(** * seedance2.0 server: platform integration core

    A shallow embedding of the parts of [server/index.js] and
    [server/browser-service.js] that the specification's testable
    properties speak about: the credential normaliser, the platform request
    client with its retry loop, the AWS4-HMAC-SHA256 signer, the in-memory
    task registry and the browser session pool.

    JavaScript strings are sequences of UTF-16 code units; they are modelled
    as [list N].  Maps that are only read by key are [gmap]s; the cookie
    [Map], whose insertion order is observable, is an association list. *)

From Stdlib Require Import ZArith NArith Lia Bool Ascii String List.
From stdpp Require Import base option list gmap strings pretty.
Import ListNotations.

Local Open Scope Z_scope.

(** ** JavaScript strings *)

Module JS.

Abbreviation jsstring := (list N).

(** A string literal: one code unit per (ASCII) character. *)
Definition lit (s : string) : jsstring :=
  List.map N_of_ascii (list_ascii_of_string s).

(** WhiteSpace and LineTerminator code units, the set [String.prototype.trim]
    strips. *)
Definition isWhiteSpace (c : N) : bool :=
  ((9 <=? c) && (c <=? 13) ||
   (c =? 32) || (c =? 160) || (c =? 5760) ||
   ((8192 <=? c) && (c <=? 8202)) ||
   (c =? 8232) || (c =? 8233) || (c =? 8239) || (c =? 8287) ||
   (c =? 12288) || (c =? 65279))%N.

(** Code units the regular-expression atom [.] does not match. *)
Definition isLineTerminator (c : N) : bool :=
  ((c =? 10) || (c =? 13) || (c =? 8232) || (c =? 8233))%N.

Fixpoint dropWhile (p : N -> bool) (s : jsstring) : jsstring :=
  match s with
  | [] => []
  | c :: s' => if p c then dropWhile p s' else s
  end.

Fixpoint takeWhile (p : N -> bool) (s : jsstring) : jsstring :=
  match s with
  | [] => []
  | c :: s' => if p c then c :: takeWhile p s' else []
  end.

Definition trimStart (s : jsstring) : jsstring := dropWhile isWhiteSpace s.
Definition trimEnd (s : jsstring) : jsstring :=
  rev (dropWhile isWhiteSpace (rev s)).

(** [s.trim()] *)
Definition trim (s : jsstring) : jsstring := trimEnd (trimStart s).

(** A string is truthy when it is not empty. *)
Definition truthy (s : jsstring) : bool :=
  match s with [] => false | _ :: _ => true end.

(** [s.indexOf(c)] for a one-character needle; [-1] when absent. *)
Fixpoint indexOf (c : N) (s : jsstring) : Z :=
  match s with
  | [] => -1
  | d :: s' =>
      if (d =? c)%N then 0
      else let i := indexOf c s' in if i <? 0 then -1 else i + 1
  end.

(** [s.includes(c)] for a one-character needle. *)
Definition includesChar (c : N) (s : jsstring) : bool :=
  existsb (N.eqb c) s.

(** [s.slice(i, j)] and [s.slice(i)] for non-negative indices. *)
Definition slice (i j : Z) (s : jsstring) : jsstring :=
  firstn (Z.to_nat j - Z.to_nat i) (skipn (Z.to_nat i) s).
Definition sliceFrom (i : Z) (s : jsstring) : jsstring :=
  skipn (Z.to_nat i) s.

Fixpoint isPrefixOf (p s : jsstring) : bool :=
  match p, s with
  | [], _ => true
  | _ :: _, [] => false
  | a :: p', b :: s' => (a =? b)%N && isPrefixOf p' s'
  end.

(** [s.includes(needle)] *)
Fixpoint includes (needle s : jsstring) : bool :=
  isPrefixOf needle s ||
  match s with
  | [] => false
  | _ :: s' => includes needle s'
  end.

(** [s.toLowerCase()], on the ASCII letters.  Lower-cased strings are only
    searched for ASCII patterns below.  Outside ASCII, only U+212A gives an
    ASCII letter alone ([k], which no pattern contains) and only U+0130 gives
    one followed by a combining mark ([i], which in the one pattern that has
    it is followed by [n]); so no pattern can match through a code unit
    outside ASCII, and those are left as they are. *)
Definition lowerUnit (c : N) : N :=
  if ((65 <=? c) && (c <=? 90))%N then (c + 32)%N else c.
Definition toLowerCase (s : jsstring) : jsstring := List.map lowerUnit s.

Definition ch (a : ascii) : N := N_of_ascii a.

(** The separators of [/[\n;]+/]. *)
Definition isFragmentSep (c : N) : bool :=
  ((c =? 10) || (c =? ch ";"))%N.

(** [s.split(/[\n;]+/)]: the pieces between maximal runs of separators; a
    leading or trailing run leaves an empty piece, and the empty string
    splits into one empty piece. *)
Fixpoint splitFragments (s : jsstring) : list jsstring :=
  match s with
  | [] => [[]]
  | c :: s' =>
      if isFragmentSep c then
        match s' with
        | c' :: _ => if isFragmentSep c' then splitFragments s'
                     else [] :: splitFragments s'
        | [] => [] :: splitFragments s'
        end
      else
        match splitFragments s' with
        | t :: ts => (c :: t) :: ts
        | [] => [[c]]
        end
  end.

(** [[a-zA-Z0-9_]] *)
Definition isWordUnit (c : N) : bool :=
  (((48 <=? c) && (c <=? 57)) || ((65 <=? c) && (c <=? 90)) ||
   ((97 <=? c) && (c <=? 122)) || (c =? 95))%N.

(** [parts.join(sep)] *)
Fixpoint join (sep : jsstring) (parts : list jsstring) : jsstring :=
  match parts with
  | [] => []
  | [p] => p
  | p :: ps => p ++ sep ++ join sep ps
  end.

(** The shape of a trimmed string: empty, or with a first and a last code
    unit that are not white space. *)
Definition trimmedShape (s : jsstring) : Prop :=
  dropWhile isWhiteSpace s = s /\ dropWhile isWhiteSpace (rev s) = rev s.

End JS.

Import JS.

(** ** Auth / session normaliser ([server/index.js]) *)

Module Normalizer.

Inductive platform_key := jimeng | xyq.

Definition DEFAULT_PLATFORM_KEY : platform_key := jimeng.

(** A JavaScript [Map] with string keys: entries in insertion order;
    [set] on a present key replaces the value in place. *)
Abbreviation cookie_map := (list (jsstring * jsstring)).

Fixpoint map_get (k : jsstring) (m : cookie_map) : option jsstring :=
  match m with
  | [] => None
  | (k', v) :: m' => if decide (k' = k) then Some v else map_get k m'
  end.

Fixpoint map_set (k v : jsstring) (m : cookie_map) : cookie_map :=
  match m with
  | [] => [(k, v)]
  | (k', v') :: m' =>
      if decide (k' = k) then (k, v) :: m' else (k', v') :: map_set k v m'
  end.

Definition SESSION_TOKEN_COOKIE_KEYS (p : platform_key) : list jsstring :=
  match p with
  | jimeng =>
      [ lit "sessionid"; lit "sessionid_ss"; lit "sid_tt";
        lit "sessionid_pippitcn_web"; lit "sessionid_ss_pippitcn_web";
        lit "sid_tt_pippitcn_web" ]
  | xyq =>
      [ lit "sessionid_pippitcn_web"; lit "sessionid_ss_pippitcn_web";
        lit "sid_tt_pippitcn_web"; lit "sessionid"; lit "sessionid_ss";
        lit "sid_tt" ]
  end.

(** The body of the [for (const rawFragment of fragments)] loop. *)
Definition parseFragment (cookieMap : cookie_map) (rawFragment : jsstring)
  : cookie_map :=
  let fragment := trim rawFragment in
  if negb (truthy fragment) then cookieMap
  else
    let i0 := indexOf (ch "=") fragment in
    let separatorIndex := if i0 <=? 0 then indexOf (ch ":") fragment else i0 in
    if separatorIndex <=? 0 then cookieMap
    else
      let key := trim (slice 0 separatorIndex fragment) in
      let value := trim (sliceFrom (separatorIndex + 1) fragment) in
      if truthy key && truthy value then map_set key value cookieMap
      else cookieMap.

Definition parseCookieString (rawCookie : jsstring) : cookie_map :=
  fold_left parseFragment (splitFragments rawCookie) [].

(** [trimmed.match(/^[a-zA-Z0-9_]+:(.+)$/)], giving capture group 1.  The
    class does not contain [:], so the greedy run of word units must be
    followed at once by the colon; [.+] then has to reach the end of the
    input without meeting a line terminator. *)
Definition colonMatch (s : jsstring) : option jsstring :=
  match takeWhile isWordUnit s, dropWhile isWordUnit s with
  | _ :: _, c :: rest =>
      if (c =? ch ":")%N && truthy rest
         && forallb (fun d => negb (isLineTerminator d)) rest
      then Some rest else None
  | _, _ => None
  end.

(** The first candidate key with a truthy value in the map. *)
Fixpoint firstCandidate (cookieMap : cookie_map) (keys : list jsstring)
  : option jsstring :=
  match keys with
  | [] => None
  | cookieKey :: keys' =>
      match map_get cookieKey cookieMap with
      | Some token => if truthy token then Some token
                      else firstCandidate cookieMap keys'
      | None => firstCandidate cookieMap keys'
      end
  end.

(** The argument of [normalizeSessionInput]: a string, or any value for which
    [typeof rawInput !== 'string']. *)
Inductive raw_input :=
| RawString (s : jsstring)
| RawOther.

Definition normalizeSessionInput (platformKey : platform_key)
  (rawInput : raw_input) : jsstring :=
  match rawInput with
  | RawOther => []
  | RawString raw =>
      let trimmed := trim raw in
      if negb (truthy trimmed) then []
      else
        match colonMatch trimmed with
        | Some g => trim g
        | None =>
            if negb (includesChar (ch "=") trimmed) then trimmed
            else
              let cookieMap := parseCookieString trimmed in
              let candidateKeys := SESSION_TOKEN_COOKIE_KEYS platformKey in
              match firstCandidate cookieMap candidateKeys with
              | Some token => token
              | None =>
                  let fallback :=
                    if negb (includesChar (ch ";") trimmed) then
                      let separatorIndex := indexOf (ch "=") trimmed in
                      if 0 <? separatorIndex then
                        trim (sliceFrom (separatorIndex + 1) trimmed)
                      else []
                    else [] in
                  fallback
              end
        end
  end.

(** Every stored value is a non-empty trimmed string. *)
Definition valuesClean (m : cookie_map) : Prop :=
  Forall (fun kv => truthy kv.2 = true /\ trim kv.2 = kv.2) m.

(** How the fragments of [r ++ w] relate to those of [r] when [w] is white
    space: the first fragments trim alike under every prefix, the others
    parse alike. *)
Definition fragmentsAlike (l' l : list jsstring) : Prop :=
  match l', l with
  | t' :: ts', t :: ts =>
      (forall pre, trim (pre ++ t') = trim (pre ++ t)) /\
      (forall m, fold_left parseFragment ts' m = fold_left parseFragment ts m)
  | _, _ => False
  end.

(** The first entry of a platform's candidate list. *)
Definition highestPriorityKey (p : platform_key) : jsstring :=
  match p with
  | jimeng => lit "sessionid"
  | xyq => lit "sessionid_pippitcn_web"
  end.

End Normalizer.

Import Normalizer.

(** ** Platform request client ([platformRequest] in [server/index.js]) *)

Module Client.

(** [data.ret] as the code observes it.  [RetInteger z] is an integer JSON
    number below 10^21 in magnitude (vendor codes are integers; [String]
    prints the decimal digits of such a number).
    Any other value is given by the two observations the code makes of it:
    whether [isFinite(Number(v))] holds and what [String(v)] is. *)
Inductive ret_field :=
| RetUndefined
| RetInteger (z : Z)
| RetValue (finite : bool) (text : jsstring).

(** [isFinite(Number(data.ret))] *)
Definition isFiniteNumber (r : ret_field) : bool :=
  match r with
  | RetUndefined => false
  | RetInteger _ => true
  | RetValue finite _ => finite
  end.

(** [String(data.ret)] *)
Definition String_ret (r : ret_field) : jsstring :=
  match r with
  | RetUndefined => lit "undefined"
  | RetInteger z => lit (pretty z)
  | RetValue _ text => text
  end.

Section Payload.

(** The JSON values handed back to the caller are not inspected here. *)
Context {json : Type}.

(** A parsed body that is not [null]: the fields the client reads, and the
    value itself. *)
Record api_body := {
  ret : ret_field;
  errmsg : option jsstring;  (** [String] of a truthy [errmsg]; [None] when falsy *)
  data : json;
  whole : json;
}.

(** [JSON.parse(responseText)] *)
Inductive parse_result :=
| ParseThrows
| ParsedNull
| ParsedValue (d : api_body).

Record http_response := {
  status : Z;
  contentType : jsstring;      (** [headers.get('content-type') || ''] *)
  responseText : jsstring;
  parsed : parse_result;
}.

(** What one [fetch] followed by [response.text()] does. *)
Inductive fetch_outcome :=
| FetchRejects (message : jsstring)
| FetchResolves (r : http_response).

Inductive error :=
| HtmlAuthError (cookieField : jsstring)
| NonJsonError (status : Z) (preview : jsstring)
| LoginError
| InsufficientBalanceError
| ApiError (retCode errMsg : jsstring)
| NullBodyTypeError
| TransportError (message : jsstring).

(** The [isApiError] property; only the errors built with
    [Object.assign(..., { isApiError: true })] carry it. *)
Definition isApiError (e : error) : bool :=
  match e with
  | HtmlAuthError _ | NonJsonError _ _ | LoginError | ApiError _ _ => true
  | InsufficientBalanceError | NullBodyTypeError | TransportError _ => false
  end.

Inductive result :=
| Returns (v : json)
| Throws (e : error).

Inductive event :=
| Sleep (ms : Z)
| HttpFetch.

(** [s.replace(/\s+/g, ' ')] *)
Fixpoint collapseWhiteSpace (s : jsstring) : jsstring :=
  match s with
  | [] => []
  | c :: s' =>
      if isWhiteSpace c then
        match s' with
        | c' :: _ => if isWhiteSpace c' then collapseWhiteSpace s'
                     else 32%N :: collapseWhiteSpace s'
        | [] => [32%N]
        end
      else c :: collapseWhiteSpace s'
  end.

Definition previewResponseBody (responseText : jsstring) : jsstring :=
  slice 0 120 (trim (collapseWhiteSpace responseText)).

Definition looksLikeHtml (responseText contentType : jsstring) : bool :=
  let normalizedType := toLowerCase contentType in
  if includes (lit "text/html") normalizedType then true
  else
    let normalizedBody := toLowerCase (slice 0 200 responseText) in
    includes (lit "<!doctype html") normalizedBody
    || includes (lit "<html") normalizedBody.

(** The [try] block of one attempt, after the response text has arrived. *)
Definition classifyResponse (platformKey : platform_key) (r : http_response)
  : result :=
  match parsed r with
  | ParseThrows =>
      if looksLikeHtml (responseText r) (contentType r) then
        Throws (HtmlAuthError
                  (match platformKey with
                   | xyq => lit "sessionid_pippitcn_web"
                   | jimeng => lit "sessionid"
                   end))
      else Throws (NonJsonError (status r) (previewResponseBody (responseText r)))
  | ParsedNull => Throws NullBodyTypeError
  | ParsedValue d =>
      if isFiniteNumber (ret d) then
        if decide (String_ret (ret d) = lit "0") then Returns (data d)
        else
          let errMsg := default (String_ret (ret d)) (errmsg d) in
          let retCode := String_ret (ret d) in
          if bool_decide (retCode = lit "1015")
             && includes (lit "login") (toLowerCase errMsg)
          then Throws LoginError
          else if bool_decide (retCode = lit "5000")
          then Throws InsufficientBalanceError
          else Throws (ApiError retCode errMsg)
      else Returns (whole d)
  end.

Definition attemptOnce (platformKey : platform_key) (o : fetch_outcome)
  : result :=
  match o with
  | FetchRejects message => Throws (TransportError message)
  | FetchResolves r => classifyResponse platformKey r
  end.

(** [for (let attempt = 0; attempt <= 3; attempt++)], entered at [attempt]
    with [remaining] iterations left; [network k] is what the [k]-th
    [fetch] of this call meets.  The result comes with the sleeps and
    fetches performed, in order. *)
Fixpoint attemptsFrom (platformKey : platform_key)
  (network : Z -> fetch_outcome) (remaining : nat) (attempt : Z)
  : list event * option result :=
  match remaining with
  | O => ([], None)
  | S remaining' =>
      let backoff := if 0 <? attempt then [Sleep (1000 * attempt)] else [] in
      match attemptOnce platformKey (network attempt) with
      | Returns v => (backoff ++ [HttpFetch], Some (Returns v))
      | Throws err =>
          if isApiError err then (backoff ++ [HttpFetch], Some (Throws err))
          else if attempt =? 3 then (backoff ++ [HttpFetch], Some (Throws err))
          else
            let '(later, res) :=
              attemptsFrom platformKey network remaining' (attempt + 1) in
            (backoff ++ HttpFetch :: later, res)
      end
  end.

Definition platformRequest (platformKey : platform_key)
  (network : Z -> fetch_outcome) : list event * option result :=
  attemptsFrom platformKey network 4 0.

Definition fetchCount (trace : list event) : nat :=
  length (List.filter (fun e => match e with HttpFetch => true | Sleep _ => false end) trace).

Definition sleeps (trace : list event) : list Z :=
  omap (fun e => match e with Sleep ms => Some ms | HttpFetch => None end) trace.

(** The response the vendor sends when the account has no credit left. *)
Definition insufficientBalanceResponse (payload : json) : http_response :=
  {| status := 200;
     contentType := lit "application/json";
     responseText :=
       lit "{" ++ [34%N] ++ lit "ret" ++ [34%N] ++ lit ":5000}";
     parsed := ParsedValue {| ret := RetInteger 5000; errmsg := None;
                              data := payload; whole := payload |} |}.

(** A back-off of [1000 * k] ms for an attempt number [k] in a range. *)
Definition backoffSleep (lo hi : Z) (ms : Z) : Prop :=
  exists k, lo <= k /\ k < hi /\ 0 < k /\ ms = 1000 * k.

End Payload.

Arguments api_body : clear implicits.
Arguments parse_result : clear implicits.
Arguments http_response : clear implicits.
Arguments fetch_outcome : clear implicits.
Arguments result : clear implicits.

End Client.

(** ** Task registry and its routes ([server/index.js]) *)

Module Registry.

(** [Number(process.env.VIDEO_GENERATION_TIMEOUT_MS)]: [None] stands for a
    value that is not a finite number (the variable unset or unparsable). *)
Definition VIDEO_GENERATION_TIMEOUT_MS (configuredTimeoutMs : option Z) : Z :=
  match configuredTimeoutMs with
  | Some ms => if 0 <? ms then ms else 45 * 60 * 1000
  | None => 45 * 60 * 1000
  end.

Inductive task_status := processing | done | error.

(** [task.result] *)
Record video_result := {
  created : Z;
  url : jsstring;
  revised_prompt : jsstring;
}.

Record task := {
  id : jsstring;
  platform : platform_key;
  status : task_status;
  progress : jsstring;
  startTime : Z;
  result : option video_result;
  taskError : option jsstring;   (** [task.error] *)
}.

(** A pending [setTimeout(() => tasks.delete(task.id), 300000)]. *)
Record timer := {
  due : Z;
  target : jsstring;
}.

(** The module state.  Task objects live in [heap] and are reached both from
    the [tasks] map and from the closures of the generator that owns them;
    [tasks] maps a task id to the address of its object. *)
Record server := {
  tasks : gmap jsstring nat;
  heap : list task;
  taskCounter : Z;
  timers : list timer;
}.

Definition initial : server :=
  {| tasks := ∅; heap := []; taskCounter := 0; timers := [] |}.

(** The progress message of a new task and the error message of last
    resort, two Chinese string literals of the source, by code unit. *)
Definition preparingMessage : jsstring :=
  [27491; 22312; 20934; 22791; 46; 46; 46]%N.
Definition generationFailedMessage : jsstring :=
  [35270; 39057; 29983; 25104; 22833; 36133]%N.

(** [`task_${++taskCounter}_${Date.now()}`] *)
Definition createTaskId (now : Z) (st : server) : jsstring * server :=
  let counter := taskCounter st + 1 in
  (lit "task_" ++ lit (pretty counter) ++ lit "_" ++ lit (pretty now),
   {| tasks := tasks st; heap := heap st; taskCounter := counter;
      timers := timers st |}).

(** The part of [POST /api/generate-video] that registers the task, after
    the request has been validated.  [startTime] is the clock at the start of
    the handler, [now] the clock when the id is made.  Gives the id and the
    address of the new task object, which the generator keeps. *)
Definition registerTask (platformKey : platform_key) (startTime now : Z)
  (st : server) : jsstring * nat * server :=
  let '(taskId, st1) := createTaskId now st in
  let task :=
    {| id := taskId; platform := platformKey; status := processing;
       progress := preparingMessage; startTime := startTime;
       result := None; taskError := None |} in
  let address := length (heap st1) in
  (taskId, address,
   {| tasks := <[taskId := address]> (tasks st1);
      heap := heap st1 ++ [task];
      taskCounter := taskCounter st1;
      timers := timers st1 |}).

Definition updateTask (address : nat) (f : task -> task) (st : server) : server :=
  {| tasks := tasks st;
     heap := match heap st !! address with
             | Some t => <[address := f t]> (heap st)
             | None => heap st
             end;
     taskCounter := taskCounter st;
     timers := timers st |}.

(** [task.progress = message], as the generators do through their own
    reference to the task object. *)
Definition setProgress (address : nat) (message : jsstring) : server -> server :=
  updateTask address (fun t =>
    {| id := id t; platform := platform t; status := status t;
       progress := message; startTime := startTime t;
       result := result t; taskError := taskError t |}).

(** The [.then] handler of the generator promise. *)
Definition generatorResolved (address : nat) (videoUrl prompt : jsstring)
  (now : Z) : server -> server :=
  updateTask address (fun t =>
    {| id := id t; platform := platform t; status := done;
       progress := progress t; startTime := startTime t;
       result := Some {| created := now `div` 1000; url := videoUrl;
                         revised_prompt := prompt |};
       taskError := taskError t |}).

(** The [.catch] handler of the generator promise. *)
Definition generatorRejected (address : nat) (errMessage : jsstring)
  : server -> server :=
  updateTask address (fun t =>
    {| id := id t; platform := platform t; status := error;
       progress := progress t; startTime := startTime t;
       result := result t;
       taskError := Some (if truthy errMessage then errMessage
                          else generationFailedMessage) |}).

(** The guard of the direct-model polling loop: it goes on while
    [Date.now() - task.startTime] is below the generation timeout. *)
Definition generatorStillPolling (configuredTimeoutMs : option Z) (now : Z)
  (t : task) : bool :=
  negb (VIDEO_GENERATION_TIMEOUT_MS configuredTimeoutMs <=? now - startTime t).

(** [now - task.startTime > 30 * 60 * 1000] for the task object at [address]. *)
Definition expired (now : Z) (st : server) (address : nat) : bool :=
  match heap st !! address with
  | Some t => 30 * 60 * 1000 <? now - startTime t
  | None => false
  end.

(** The callback of [setInterval(..., 60000)]: every entry whose task has
    expired is deleted. *)
Definition sweepExpired (now : Z) (st : server) : server :=
  {| tasks := filter (fun entry => expired now st entry.2 = false) (tasks st);
     heap := heap st;
     taskCounter := taskCounter st;
     timers := timers st |}.

Inductive poll_response :=
| NotFound
| StatusProcessing (elapsed : Z) (progress : jsstring)
| StatusDone (elapsed : Z) (result : option video_result)
| StatusError (elapsed : Z) (error : option jsstring).

(** The HTTP status of a poll response. *)
Definition httpStatus (r : poll_response) : Z :=
  match r with NotFound => 404 | _ => 200 end.

Definition scheduleDelete (now : Z) (taskId : jsstring) (st : server) : server :=
  {| tasks := tasks st; heap := heap st; taskCounter := taskCounter st;
     timers := timers st ++ [{| due := now + 300000; target := taskId |}] |}.

(** [GET /api/task/:taskId] *)
Definition pollTask (now : Z) (taskId : jsstring) (st : server)
  : poll_response * server :=
  match tasks st !! taskId with
  | None => (NotFound, st)
  | Some address =>
      match heap st !! address with
      | None => (NotFound, st)
      | Some task =>
          let elapsed := (now - startTime task) `div` 1000 in
          match status task with
          | done =>
              (StatusDone elapsed (result task), scheduleDelete now (id task) st)
          | error =>
              (StatusError elapsed (taskError task),
               scheduleDelete now (id task) st)
          | processing => (StatusProcessing elapsed (progress task), st)
          end
      end
  end.

(** A timer callback: [tasks.delete(task.id)]. *)
Definition fireTimer (tm : timer) (st : server) : server :=
  {| tasks := delete (target tm) (tasks st); heap := heap st;
     taskCounter := taskCounter st; timers := timers st |}.

(** The event loop reaching time [now]: every pending timer that is due
    runs, in the order the timers were set. *)
Definition runDueTimers (now : Z) (st : server) : server :=
  let dueNow := List.filter (fun tm => due tm <=? now) (timers st) in
  let later := List.filter (fun tm => negb (due tm <=? now)) (timers st) in
  let st' := fold_left (fun s tm => fireTimer tm s) dueNow st in
  {| tasks := tasks st'; heap := heap st'; taskCounter := taskCounter st';
     timers := later |}.

End Registry.

(** *** Registry vocabulary *)

Module RegistrySpec.
Import Registry.

(** Every entry of [tasks] points at a task object that carries the entry's
    key as its [id], as [registerTask] sets it up. *)
Definition wellFormed (st : server) : Prop :=
  forall taskId address, tasks st !! taskId = Some address ->
    exists t, heap st !! address = Some t /\ id t = taskId.

(** What can happen to the registry, one handler or callback at a time. *)
Inductive step : server -> server -> Prop :=
| step_register platformKey startTime now st :
    step st (registerTask platformKey startTime now st).2
| step_progress address message st :
    step st (setProgress address message st)
| step_resolved address videoUrl prompt now st :
    step st (generatorResolved address videoUrl prompt now st)
| step_rejected address message st :
    step st (generatorRejected address message st)
| step_sweep now st :
    step st (sweepExpired now st)
| step_poll now taskId st :
    step st (pollTask now taskId st).2
| step_timers now st :
    step st (runDueTimers now st).

Inductive reachable : server -> Prop :=
| reachable_initial : reachable initial
| reachable_step st st' : reachable st -> step st st' -> reachable st'.

(** The time of the [k]-th run of the sweep callback, for a server whose
    interval was installed at [serverStart]. *)
Definition sweepTick (serverStart k : Z) : Z := serverStart + 60000 * k.

(** What a poll of a known job answers, by the job's status. *)
Definition pollAnswer (now : Z) (t : task) : poll_response :=
  let elapsed := (now - startTime t) `div` 1000 in
  match status t with
  | processing => StatusProcessing elapsed (progress t)
  | done => StatusDone elapsed (result t)
  | error => StatusError elapsed (taskError t)
  end.

End RegistrySpec.

(** ** Browser session pool ([server/browser-service.js]) *)

Module Pool.

Definition TARGET_CLOSED_PATTERNS : list jsstring :=
  [ lit "has been closed"; lit "target closed"; lit "browser has been closed";
    lit "context or browser has been closed" ].

(** [isTargetClosedError(error)], on [error.message]. *)
Definition isTargetClosedError (message : jsstring) : bool :=
  existsb (fun pattern => includes pattern (toLowerCase message))
          TARGET_CLOSED_PATTERNS.

Inductive error :=
| PlaywrightError (message : jsstring)   (** thrown by the browser driver *)
| RequestFailedError                     (** the message built for [Failed to fetch] *)
| HtmlAuthError (cookieField : jsstring)
| NonJsonError (status : Z) (preview : jsstring)
| ProxyFailedError                       (** thrown after the [fetch] loop *)
| SessionInitError.                      (** thrown after the [getSession] loop *)

(** Calls into the driver, as they are made. *)
Inductive event :=
| AskedConnected            (** [browser.isConnected()] *)
| AskedClosed               (** [page.isClosed()] *)
| Launched                  (** [chromium.launch] *)
| OpenedPage                (** [newContext] ... [page.goto], [waitForFunction] *)
| Evaluated (page : nat)    (** [page.evaluate] *)
| ClosedBrowser (b : nat)   (** [oldBrowser.close()] *)
| RecreateBrowser.          (** entry into [recreateBrowser] *)

Definition event_eqb (a b : event) : bool :=
  match a, b with
  | AskedConnected, AskedConnected | AskedClosed, AskedClosed
  | Launched, Launched | OpenedPage, OpenedPage
  | RecreateBrowser, RecreateBrowser => true
  | Evaluated _, Evaluated _ => true
  | ClosedBrowser _, ClosedBrowser _ => true
  | _, _ => false
  end.

(** How many calls of the kind of [e] the log holds. *)
Definition calls (e : event) (log : list event) : nat :=
  length (List.filter (event_eqb e) log).

Definition evaluations (log : list event) : nat := calls (Evaluated 0) log.
Definition recreations (log : list event) : nat := calls RecreateBrowser log.

Section Driver.

Context {json : Type}.

(** What [page.evaluate] hands back, with [JSON.parse(body)]. *)
Record raw_result := {
  status : Z;
  contentType : jsstring;
  body : jsstring;
  parsedBody : option json;
}.

(** The browser driver and the browser, as the service meets them: what the
    [n]-th call of each kind does.  [Some message] is a rejection with that
    message. *)
Record driver := {
  isConnected : nat -> bool;
  isClosed : nat -> bool;
  launch : nat -> option jsstring;
  openPage : nat -> option jsstring;
  evaluate : nat -> jsstring + raw_result;
}.

Record session := {
  page : nat;
  platformKey : platform_key;
  sessionId : jsstring;
}.

(** The fields of [BrowserService] that the synchronous control flow uses,
    and the log of driver calls.  Idle timers are left out. *)
Record service := {
  browser : option nat;
  sessions : gmap jsstring session;
  log : list event;
}.

Definition M (A : Type) : Type := service -> (error + A) * service.

Definition ret {A} (a : A) : M A := fun st => (inr a, st).
Definition throw {A} (e : error) : M A := fun st => (inl e, st).
Definition bind {A B} (m : M A) (k : A -> M B) : M B :=
  fun st => match m st with
            | (inr a, st') => k a st'
            | (inl e, st') => (inl e, st')
            end.
Definition tryCatch {A} (m : M A) (handler : error -> M A) : M A :=
  fun st => match m st with
            | (inr a, st') => (inr a, st')
            | (inl e, st') => handler e st'
            end.

Notation "'do' x <- m ; k" := (bind m (fun x => k))
  (at level 10, x name, m at level 100, k at level 200).
Notation "m ;; k" := (bind m (fun _ => k))
  (at level 100, k at level 200, right associativity).

Definition getBrowser : M (option nat) := fun st => (inr (browser st), st).
Definition setBrowser (b : option nat) : M unit :=
  fun st => (inr tt, {| browser := b; sessions := sessions st; log := log st |}).
Definition getSessions : M (gmap jsstring session) :=
  fun st => (inr (sessions st), st).
Definition setSessions (m : gmap jsstring session) : M unit :=
  fun st => (inr tt, {| browser := browser st; sessions := m; log := log st |}).
Definition record (e : event) : M nat :=
  fun st => (inr (calls e (log st)),
             {| browser := browser st; sessions := sessions st;
                log := log st ++ [e] |}).

Variable chromium : driver.

Definition getSessionCacheKey (sessionId : jsstring) (platformKey : platform_key)
  (rawCookieHeader : jsstring) : jsstring :=
  (match platformKey with jimeng => lit "jimeng" | xyq => lit "xyq" end)
    ++ lit ":" ++ sessionId ++ lit "|" ++ rawCookieHeader.

(** [resetAllSessions]: [this.sessions.clear()]. *)
Definition resetAllSessions : M unit := setSessions ∅.

Definition recreateBrowser : M unit :=
  record RecreateBrowser ;;
  do oldBrowser <- getBrowser ;
  setBrowser None ;;
  resetAllSessions ;;
  match oldBrowser with
  | Some b => record (ClosedBrowser b) ;; ret tt
  | None => ret tt
  end.

Definition launchBrowser : M nat :=
  do n <- record Launched ;
  match launch chromium n with
  | Some message => throw (PlaywrightError message)
  | None => setBrowser (Some n) ;; ret n
  end.

Definition ensureBrowser : M nat :=
  do current <- getBrowser ;
  match current with
  | Some b =>
      do q <- record AskedConnected ;
      if isConnected chromium q then ret b
      else
        do q' <- record AskedConnected ;
        (if negb (isConnected chromium q') then setBrowser None else ret tt) ;;
        launchBrowser
  | None => launchBrowser
  end.

(** The [try] block of [getSession]: a fresh context and page, navigated to
    the generation page, cached under [cacheKey]. *)
Definition openSession (cacheKey sessionId : jsstring) (platformKey : platform_key)
  : M session :=
  ensureBrowser ;;
  do n <- record OpenedPage ;
  match openPage chromium n with
  | Some message => throw (PlaywrightError message)
  | None =>
      let s := {| page := n; platformKey := platformKey; sessionId := sessionId |} in
      do cached <- getSessions ;
      setSessions (<[cacheKey := s]> cached) ;;
      ret s
  end.

Definition errorMessage (e : error) : jsstring :=
  match e with
  | PlaywrightError message => message
  | _ => []
  end.

(** [for (let attempt = 0; attempt < 2; attempt++)] of [getSession]. *)
Fixpoint openSessionAttempts (remaining : nat) (attempt : Z)
  (cacheKey sessionId : jsstring) (platformKey : platform_key) : M session :=
  match remaining with
  | O => throw SessionInitError
  | S remaining' =>
      tryCatch (openSession cacheKey sessionId platformKey)
        (fun e =>
           if (attempt =? 0) && isTargetClosedError (errorMessage e) then
             recreateBrowser ;;
             openSessionAttempts remaining' (attempt + 1)
               cacheKey sessionId platformKey
           else throw e)
  end.

Definition getSession (sessionId : jsstring) (platformKey : platform_key)
  (rawCookieHeader : jsstring) : M session :=
  let cacheKey := getSessionCacheKey sessionId platformKey rawCookieHeader in
  do cached <- getSessions ;
  match cached !! cacheKey with
  | Some existing =>
      do q <- record AskedClosed ;
      if isClosed chromium q then
        setSessions (delete cacheKey cached) ;;
        openSessionAttempts 2 0 cacheKey sessionId platformKey
      else ret existing
  | None => openSessionAttempts 2 0 cacheKey sessionId platformKey
  end.

Definition previewBody (text : jsstring) : jsstring :=
  slice 0 120 (trim (Client.collapseWhiteSpace text)).

Definition looksLikeHtmlResponse (contentType text : jsstring) : bool :=
  let normalizedType := toLowerCase contentType in
  if includes (lit "text/html") normalizedType then true
  else
    let normalizedBody := toLowerCase (slice 0 200 text) in
    includes (lit "<!doctype html") normalizedBody
    || includes (lit "<html") normalizedBody.

(** The part of one [fetch] attempt after [page.evaluate] has returned. *)
Definition parseRawResult (platformKey : platform_key) (rawResult : raw_result)
  : M json :=
  match parsedBody rawResult with
  | Some value => ret value
  | None =>
      if looksLikeHtmlResponse (contentType rawResult) (body rawResult) then
        throw (HtmlAuthError
                 (match platformKey with
                  | xyq => lit "sessionid_pippitcn_web"
                  | jimeng => lit "sessionid"
                  end))
      else throw (NonJsonError (status rawResult) (previewBody (body rawResult)))
  end.

(** [for (let attempt = 0; attempt < 2; attempt++)] of [fetch], the function
    that runs under the session lock. *)
Fixpoint fetchAttempts (remaining : nat) (attempt : Z)
  (sessionId : jsstring) (platformKey : platform_key)
  (rawCookieHeader : jsstring) : M json :=
  match remaining with
  | O => throw ProxyFailedError
  | S remaining' =>
      do session <- getSession sessionId platformKey rawCookieHeader ;
      do n <- record (Evaluated (page session)) ;
      match evaluate chromium n with
      | inl thrown =>
          let message := if truthy thrown then thrown else lit "unknown error" in
          if includes (lit "Failed to fetch") message then
            throw RequestFailedError
          else if (attempt =? 0) && isTargetClosedError thrown then
            recreateBrowser ;;
            fetchAttempts remaining' (attempt + 1)
              sessionId platformKey rawCookieHeader
          else throw (PlaywrightError thrown)
      | inr rawResult => parseRawResult platformKey rawResult
      end
  end.

(** [fetch], once the session lock has been granted. *)
Definition fetch (sessionId : jsstring) (platformKey : platform_key)
  (rawCookieHeader : jsstring) : M json :=
  fetchAttempts 2 0 sessionId platformKey rawCookieHeader.

(** The state [recreateBrowser] leaves behind. *)
Definition afterRecreate (st : service) : service :=
  {| browser := None; sessions := ∅;
     log := log st ++ RecreateBrowser ::
              match browser st with Some b => [ClosedBrowser b] | None => [] end |}.

(** The state after [page.evaluate] has been called on the page of [s]. *)
Definition afterEvaluate (s : session) (st : service) : service :=
  {| browser := browser st; sessions := sessions st;
     log := log st ++ [Evaluated (page s)] |}.

(** A computation that makes no call of the kind of [e]. *)
Definition silent (e : event) {A} (m : M A) : Prop :=
  forall st, calls e (log (m st).2) = calls e (log st).

(** A driver that launches the browser and opens pages without failing. *)
Definition opensPages : Prop :=
  forall n, launch chromium n = None /\ openPage chromium n = None.

End Driver.

Arguments raw_result : clear implicits.
Arguments driver : clear implicits.

End Pool.

(** ** The per-key session lock ([runWithSessionLock]) *)

(** Operations of the pool are asynchronous: each runs in pieces, from one
    [await] to the next, and pieces of different operations interleave.  The
    model below follows the pieces that touch [sessionLocks] and [sessions]. *)

Module SessionLock.

Inductive op_kind := OpFetch | OpRefresh.

Inductive phase :=
| Queued (previous : option nat)
    (** [run = previous.catch(...).then(() => fn())] waits for the [run] of
        operation [previous]; [None] when the map had no entry for the key *)
| Closing
    (** [refreshSession], inside [closeSessionByKey], at
        [await session.context.close()] *)
| InSession
    (** inside [getSession] and, for [fetch], [page.evaluate] *)
| Settled
    (** [fn] has finished; the [finally] block has not run yet *)
| Released.
    (** the [finally] block has run *)

#[global] Instance phase_eq_dec : EqDecision phase.
Proof. solve_decision. Defined.

Record operation := {
  key : jsstring;
  kind : op_kind;
  stage : phase;
}.

Record pool := {
  sessionLocks : gmap jsstring nat;   (** cache key to the operation whose [run] is stored *)
  cached : gset jsstring;             (** the keys of [this.sessions] *)
  ops : list operation;               (** every operation called so far *)
}.

Inductive action :=
| Call (k : op_kind) (cacheKey : jsstring)
    (** a caller invokes [fetch] or [refreshSession]: the synchronous start
        of [runWithSessionLock], up to [await run] *)
| Start (i : nat)
    (** [fn] of operation [i] begins *)
| Advance (i : nat) (sessionOpen : bool)
    (** the [await] operation [i] is suspended at completes; at the end of
        [fn], [sessionOpen] tells whether a session is left cached *)
| Release (i : nat).
    (** the [finally] block of operation [i] *)

Definition setStage (i : nat) (p : phase) (st : pool) : pool :=
  {| sessionLocks := sessionLocks st; cached := cached st;
     ops := match ops st !! i with
            | Some o => <[i := {| key := key o; kind := kind o; stage := p |}]> (ops st)
            | None => ops st
            end |}.

(** [previous] has settled and its [await run] continuation, registered
    before any later operation could chain on it, has run. *)
Definition previousDone (previous : option nat) (st : pool) : bool :=
  match previous with
  | None => true
  | Some j => match ops st !! j with
              | Some o => match stage o with Released => true | _ => false end
              | None => false
              end
  end.

Definition perform (a : action) (st : pool) : option pool :=
  match a with
  | Call k cacheKey =>
      Some {| sessionLocks := <[cacheKey := length (ops st)]> (sessionLocks st);
              cached := cached st;
              ops := ops st ++ [{| key := cacheKey; kind := k;
                                   stage := Queued (sessionLocks st !! cacheKey) |}] |}
  | Start i =>
      match ops st !! i with
      | Some o =>
          match stage o with
          | Queued previous =>
              if previousDone previous st then
                match kind o with
                | OpFetch => Some (setStage i InSession st)
                | OpRefresh =>
                    (* closeSessionByKey returns at once without a session *)
                    if decide (key o ∈ cached st)
                    then Some (setStage i Closing st)
                    else Some (setStage i InSession st)
                end
              else None
          | _ => None
          end
      | None => None
      end
  | Advance i sessionOpen =>
      match ops st !! i with
      | Some o =>
          match stage o with
          | Closing =>
              (* this.sessions.delete(cacheKey); this.sessionLocks.delete(cacheKey) *)
              Some (setStage i InSession
                      {| sessionLocks := delete (key o) (sessionLocks st);
                         cached := cached st ∖ {[key o]};
                         ops := ops st |})
          | InSession =>
              Some (setStage i Settled
                      {| sessionLocks := sessionLocks st;
                         cached := if sessionOpen then cached st ∪ {[key o]}
                                   else cached st;
                         ops := ops st |})
          | _ => None
          end
      | None => None
      end
  | Release i =>
      match ops st !! i with
      | Some o =>
          match stage o with
          | Settled =>
              (* if (this.sessionLocks.get(cacheKey) === run) delete *)
              Some (setStage i Released
                      {| sessionLocks :=
                           if decide (sessionLocks st !! key o = Some i)
                           then delete (key o) (sessionLocks st)
                           else sessionLocks st;
                         cached := cached st;
                         ops := ops st |})
          | _ => None
          end
      | None => None
      end
  end.

Fixpoint performAll (schedule : list action) (st : pool) : option pool :=
  match schedule with
  | [] => Some st
  | a :: schedule' =>
      match perform a st with
      | Some st' => performAll schedule' st'
      | None => None
      end
  end.

(** An operation is inside its critical section. *)
Definition running (o : operation) : bool :=
  match stage o with
  | Closing | InSession => true
  | _ => false
  end.

(** Two different operations on one key are inside their critical sections
    at once. *)
Definition overlap (st : pool) : Prop :=
  exists i j oi oj,
    i <> j /\ ops st !! i = Some oi /\ ops st !! j = Some oj /\
    key oi = key oj /\ running oi = true /\ running oj = true.



Definition restage (o : operation) (p : phase) : operation :=
  {| key := key o; kind := kind o; stage := p |}.


End SessionLock.

(** ** AWS4-HMAC-SHA256 signing ([createAWSSignature] in [server/index.js]) *)

Module Signer.

(** [buffer.toString('hex')]: two lower-case hexadecimal digits per byte. *)
Definition hexDigit (d : N) : N :=
  (if d <? 10 then 48 + d else 87 + d)%N.

Definition hexByte (b : Byte.byte) : jsstring :=
  [hexDigit (Byte.to_N b / 16); hexDigit (Byte.to_N b mod 16)].

Definition hex (bytes : list Byte.byte) : jsstring :=
  concat (List.map hexByte bytes).

(** [a < b] on strings: code unit by code unit. *)
Fixpoint strLtb (a b : jsstring) : bool :=
  match a, b with
  | _, [] => false
  | [], _ :: _ => true
  | x :: a', y :: b' =>
      if (x <? y)%N then true
      else if (y <? x)%N then false
      else strLtb a' b'
  end.

(** [Array.prototype.sort] is stable; [le x y] says that the comparator does
    not put [y] before [x]. *)
Fixpoint insertBy {A} (le : A -> A -> bool) (x : A) (l : list A) : list A :=
  match l with
  | [] => [x]
  | y :: l' => if le x y then x :: l else y :: insertBy le x l'
  end.

Definition sortBy {A} (le : A -> A -> bool) (l : list A) : list A :=
  fold_right (insertBy le) [] l.

(** The result of [new URL(url)], as far as the signer reads it. *)
Record url_record := {
  pathname : jsstring;
  searchParams : list (jsstring * jsstring);   (** in [forEach] order *)
}.

(** Two different inputs on which a hash function takes the same value. *)
Definition collidesOn {A B} (f : A -> B) (a b : A) : Prop :=
  a <> b /\ f a = f b.

(** The key of [crypto.createHmac]: a string or a [Buffer]. *)
Inductive hmac_key :=
| KeyString (s : jsstring)
| KeyBuffer (b : list Byte.byte).

Section Primitives.

(** What Node and the platform provide. *)
Variable sha256 : jsstring -> list Byte.byte.
  (* crypto.createHash('sha256').update(s, 'utf8').digest() *)
Variable hmacSha256 : hmac_key -> jsstring -> list Byte.byte.
  (* crypto.createHmac('sha256', key).update(s).digest() *)
Variable toUpperCase : jsstring -> jsstring.
Variable parseURL : jsstring -> option url_record.
  (* new URL(url); None when it throws *)

Definition region : jsstring := lit "cn-north-1".
Definition service : jsstring := lit "imagex".

(** [queryParams.sort(([a], [b]) => (a < b ? -1 : a > b ? 1 : 0))], then
    [.map(([k, v]) => `${k}=${v}`).join('&')]. *)
Definition canonicalQueryString (params : list (jsstring * jsstring)) : jsstring :=
  join (lit "&")
    (List.map (fun kv => kv.1 ++ lit "=" ++ kv.2)
       (sortBy (fun x y => negb (strLtb y.1 x.1)) params)).

(** Is the payload hashed and its hash signed? *)
Definition signsPayload (method payload : jsstring) : bool :=
  bool_decide (toUpperCase method = lit "POST") && truthy payload.

Definition payloadHash (method payload : jsstring) : jsstring :=
  if signsPayload method payload then hex (sha256 payload) else hex (sha256 []).

(** [headersToSign], in insertion order. *)
Definition headersToSign (method timestamp sessionToken payload : jsstring)
  : list (jsstring * jsstring) :=
  [(lit "x-amz-date", timestamp)]
  ++ (if truthy sessionToken then [(lit "x-amz-security-token", sessionToken)]
      else [])
  ++ (if signsPayload method payload
      then [(lit "x-amz-content-sha256", payloadHash method payload)]
      else []).

(** [Object.keys(headersToSign).map(k => k.toLowerCase()).sort().join(';')] *)
Definition signedHeaders (hs : list (jsstring * jsstring)) : jsstring :=
  join (lit ";")
    (sortBy (fun x y => negb (strLtb y x))
       (List.map (fun kv => JS.toLowerCase kv.1) hs)).

(** The keys sorted with [localeCompare] on their lower-case forms, each
    rendered as [key:value\n].  The three header names differ first in a
    lower-case ASCII letter, where every collation agrees with the order of
    code units. *)
Definition canonicalHeaders (hs : list (jsstring * jsstring)) : jsstring :=
  concat
    (List.map (fun kv => JS.toLowerCase kv.1 ++ lit ":" ++ trim kv.2 ++ [10%N])
       (sortBy (fun x y => negb (strLtb (JS.toLowerCase y.1) (JS.toLowerCase x.1)))
          hs)).

Definition credentialScope (date : jsstring) : jsstring :=
  date ++ lit "/" ++ region ++ lit "/" ++ service ++ lit "/aws4_request".

Definition canonicalRequest (method : jsstring) (u : url_record)
  (timestamp sessionToken payload : jsstring) : jsstring :=
  let hs := headersToSign method timestamp sessionToken payload in
  join [10%N]
    [ toUpperCase method;
      (if truthy (pathname u) then pathname u else lit "/");
      canonicalQueryString (searchParams u);
      canonicalHeaders hs;
      signedHeaders hs;
      payloadHash method payload ].

Definition stringToSign (timestamp date creq : jsstring) : jsstring :=
  join [10%N]
    [ lit "AWS4-HMAC-SHA256"; timestamp; credentialScope date;
      hex (sha256 creq) ].

Definition signingKey (secretAccessKey date : jsstring) : list Byte.byte :=
  let kDate := hmacSha256 (KeyString (lit "AWS4" ++ secretAccessKey)) date in
  let kRegion := hmacSha256 (KeyBuffer kDate) region in
  let kService := hmacSha256 (KeyBuffer kRegion) service in
  hmacSha256 (KeyBuffer kService) (lit "aws4_request").

(** [createAWSSignature]; [None] when [new URL] throws or the headers hold
    no [x-amz-date] (reading [timestamp.substr] then throws). *)
Definition createAWSSignature (method url : jsstring)
  (headers : gmap jsstring jsstring)
  (accessKeyId secretAccessKey sessionToken payload : jsstring)
  : option jsstring :=
  match parseURL url, headers !! lit "x-amz-date" with
  | Some urlObj, Some timestamp =>
      let date := firstn 8 timestamp in
      let hs := headersToSign method timestamp sessionToken payload in
      let creq := canonicalRequest method urlObj timestamp sessionToken payload in
      let signature :=
        hex (hmacSha256 (KeyBuffer (signingKey secretAccessKey date))
               (stringToSign timestamp date creq)) in
      Some (lit "AWS4-HMAC-SHA256 Credential=" ++ accessKeyId ++ lit "/"
            ++ credentialScope date
            ++ lit ", SignedHeaders=" ++ signedHeaders hs
            ++ lit ", Signature=" ++ signature)
  | _, _ => None
  end.

(** What of the session token and of the payload is signed. *)
Definition signedToken (sessionToken : jsstring) : option jsstring :=
  if truthy sessionToken then Some (trim sessionToken) else None.
Definition signedPayload (method payload : jsstring) : option jsstring :=
  if signsPayload method payload then Some payload else None.

End Primitives.

(** A lower-case hexadecimal digit. *)
Definition isHexUnit (c : N) : bool :=
  (((48 <=? c) && (c <=? 57)) || ((97 <=? c) && (c <=? 102)))%N.

(** The signed header names for a request with or without session token and
    signed payload. *)
Definition signedHeadersOf (hasToken hasPayload : bool) : jsstring :=
  (if hasPayload then lit "x-amz-content-sha256;" else [])
  ++ lit "x-amz-date"
  ++ (if hasToken then lit ";x-amz-security-token" else []).

(** One line of the canonical headers. *)
Definition renderHeader (name value : jsstring) : jsstring :=
  name ++ lit ":" ++ trim value ++ [10%N].

End Signer.

(** ** Example inputs *)

Module ClientExamples.
Import Client.

(** Three timeouts, then a status-0 answer. *)
Definition okBody : api_body jsstring :=
  {| ret := RetInteger 0; errmsg := None; data := lit "payload"; whole := [] |}.

Definition okResponse : http_response jsstring :=
  {| status := 200; contentType := lit "application/json";
     responseText := []; parsed := ParsedValue okBody |}.

Definition threeTimeoutsThenOk (k : Z) : fetch_outcome jsstring :=
  if k <? 3 then FetchRejects (lit "The operation was aborted due to timeout")
  else FetchResolves okResponse.

End ClientExamples.

Module RegistryExamples.
Import Registry.

(** A small run: one job registered at 1000 ms and finished at 90000 ms. *)
Definition demoRegistered : jsstring * nat * server :=
  registerTask jimeng 1000 1001 initial.
Definition demoId : jsstring := demoRegistered.1.1.
Definition demoRunning : server := demoRegistered.2.
Definition demoDone : server :=
  generatorResolved demoRegistered.1.2 (lit "https://x/video.mp4") (lit "a cat")
    90000 demoRunning.

End RegistryExamples.

Module PoolExamples.
Import Pool.

Definition emptyService : service :=
  {| browser := None; sessions := ∅; log := [] |}.

Definition jsonOk : raw_result jsstring :=
  {| status := 200; contentType := lit "application/json";
     body := lit "{}"; parsedBody := Some (lit "{}") |}.

(** A browser whose page is closed under the first evaluation only. *)
Definition closedOnce : driver jsstring :=
  {| isConnected := fun _ => true; isClosed := fun _ => false;
     launch := fun _ => None; openPage := fun _ => None;
     evaluate := fun n =>
       match n with
       | O => inl (lit "page.evaluate: Target page, context or browser has been closed")
       | S _ => inr jsonOk
       end |}.

(** ... and one whose page is closed under every evaluation. *)
Definition closedAlways : driver jsstring :=
  {| isConnected := fun _ => true; isClosed := fun _ => false;
     launch := fun _ => None; openPage := fun _ => None;
     evaluate := fun _ =>
       inl (lit "page.evaluate: Target page, context or browser has been closed") |}.

(** A rejection whose message is of the target-closed class and also
    contains [Failed to fetch]. *)
Definition failedToFetchClosed : driver jsstring :=
  {| isConnected := fun _ => true; isClosed := fun _ => false;
     launch := fun _ => None; openPage := fun _ => None;
     evaluate := fun _ =>
       inl (lit "page.evaluate: TypeError: Failed to fetch (target closed)") |}.

(** Acquiring the session again can recreate the browser a second time
    within the same [fetch]. *)
Definition closedTwice : driver jsstring :=
  {| isConnected := fun _ => true; isClosed := fun _ => false;
     launch := fun _ => None;
     openPage := fun n =>
       match n with
       | 1%nat => Some (lit "browser.newContext: Target page, context or browser has been closed")
       | _ => None
       end;
     evaluate := fun n =>
       match n with
       | O => inl (lit "page.evaluate: Target page, context or browser has been closed")
       | S _ => inr jsonOk
       end |}.

End PoolExamples.

Module LockExamples.
Import SessionLock.

(** A pool that holds a cached session under [cacheKey] and is idle. *)
Definition idlePool (cacheKey : jsstring) : pool :=
  {| sessionLocks := ∅; cached := {[cacheKey]}; ops := [] |}.

(** [refreshSession] is called and closes the cached session; while it is
    opening the new one, [fetch] is called for the same key. *)
Definition refreshThenFetch (cacheKey : jsstring) : list action :=
  [ Call OpRefresh cacheKey; Start 0; Advance 0 true;
    Call OpFetch cacheKey; Start 1 ].

End LockExamples.

Module SignerExamples.
Import Signer.

(** Stand-ins for the primitives, to run the signer on an example. *)
Definition asciiUpperCase (s : jsstring) : jsstring :=
  List.map (fun c => if ((97 <=? c) && (c <=? 122))%N then (c - 32)%N else c) s.
Definition rootURL (url : jsstring) : option url_record :=
  Some {| pathname := lit "/"; searchParams := [(lit "Action", lit "ApplyImageUpload")] |}.
Definition noDigest (s : jsstring) : list Byte.byte := [].
Definition noMac (k : hmac_key) (s : jsstring) : list Byte.byte := [].

Definition dateHeader : gmap jsstring jsstring :=
  {[ lit "x-amz-date" := lit "20240101T000000Z" ]}.
Definition dateAndOtherHeader : gmap jsstring jsstring :=
  <[ lit "x-amz-date" := lit "20240101T000000Z" ]> {[ lit "x-other" := lit "1" ]}.

End SignerExamples.

(** ** Credentials on their way to the platform ([server/index.js]) *)

Module Auth.

(** [`${name}=${value}`] *)
Definition renderCookie (entry : jsstring * jsstring) : jsstring :=
  entry.1 ++ lit "=" ++ entry.2.

(** [entries.map(([name, value]) => `${name}=${value}`).join('; ')] *)
Definition renderCookies (entries : cookie_map) : jsstring :=
  join (lit "; ") (List.map renderCookie entries).

(** [process.env.VITE_DEFAULT_SESSION_ID || ''] and
    [process.env.VITE_DEFAULT_XYQ_SESSION_ID || '']. *)
Record environment := {
  DEFAULT_SESSION_ID : jsstring;
  DEFAULT_XYQ_SESSION_ID : jsstring;
}.

Record auth_context := {
  sessionId : jsstring;
  cookieHeader : jsstring;
}.

(** The [sessionId] field of the submitted form: a string, or [undefined]
    when the field is absent. *)
Definition formField (requestSessionId : option jsstring) : raw_input :=
  match requestSessionId with
  | Some s => RawString s
  | None => RawOther
  end.

Definition resolveAuthContext (env : environment) (platformKey : platform_key)
  (requestSessionId : option jsstring) : auth_context :=
  (* String(requestSessionId || '') *)
  let cookieMap := parseCookieString (default [] requestSessionId) in
  let cookieHeader :=
    match cookieMap with
    | _ :: _ => renderCookies cookieMap
    | [] => []
    end in
  let normalizedRequestToken :=
    normalizeSessionInput platformKey (formField requestSessionId) in
  if truthy normalizedRequestToken then
    {| sessionId := normalizedRequestToken; cookieHeader := cookieHeader |}
  else
    match platformKey with
    | xyq =>
        let fallback :=
          normalizeSessionInput platformKey
            (RawString (if truthy (DEFAULT_XYQ_SESSION_ID env)
                        then DEFAULT_XYQ_SESSION_ID env
                        else DEFAULT_SESSION_ID env)) in
        {| sessionId := fallback; cookieHeader := [] |}
    | jimeng =>
        {| sessionId :=
             normalizeSessionInput platformKey (RawString (DEFAULT_SESSION_ID env));
           cookieHeader := [] |}
    end.

(** The cookies [generateCookie] sends when the caller gave none.  [webId]
    is [String(WEB_ID)], fixed when the server starts. *)
Definition defaultCookies (webId sessionId : jsstring)
  (platformKey : platform_key) : cookie_map :=
  match platformKey with
  | xyq =>
      [ (lit "is_staff_user_pippitcn_web", lit "false");
        (lit "sid_tt_pippitcn_web", sessionId);
        (lit "sessionid_pippitcn_web", sessionId);
        (lit "sessionid_ss_pippitcn_web", sessionId) ]
  | jimeng =>
      [ (lit "_tea_web_id", webId);
        (lit "is_staff_user", lit "false");
        (lit "store-region", lit "cn-gd");
        (lit "store-region-src", lit "uid");
        (lit "sid_tt", sessionId);
        (lit "sessionid", sessionId);
        (lit "sessionid_ss", sessionId) ]
  end.

(** [if (!cookieMap.has(name)) cookieMap.set(name, value)] *)
Definition addMissing (cookieMap : cookie_map) (entry : jsstring * jsstring)
  : cookie_map :=
  match map_get entry.1 cookieMap with
  | Some _ => cookieMap
  | None => map_set entry.1 entry.2 cookieMap
  end.

Definition generateCookie (webId sessionId : jsstring)
  (platformKey : platform_key) (rawCookieHeader : jsstring) : jsstring :=
  let defaults := defaultCookies webId sessionId platformKey in
  if truthy rawCookieHeader then
    match parseCookieString rawCookieHeader with
    | (_ :: _) as cookieMap => renderCookies (fold_left addMissing defaults cookieMap)
    | [] => renderCookies defaults
    end
  else renderCookies defaults.

(** The cookies that [generateCookie] renders. *)
Definition cookieJar (webId sessionId : jsstring)
  (platformKey : platform_key) (rawCookieHeader : jsstring) : cookie_map :=
  let defaults := defaultCookies webId sessionId platformKey in
  match parseCookieString rawCookieHeader with
  | (_ :: _) as cookieMap => fold_left addMissing defaults cookieMap
  | [] => defaults
  end.

(** A string without the separators of [/[\n;]+/]. *)
Definition sepFree (s : jsstring) : bool :=
  forallb (fun c => negb (isFragmentSep c)) s.

(** A name or value as the parsers store it: not empty, trimmed, and free
    of fragment separators. *)
Definition cleanPart (s : jsstring) : Prop :=
  truthy s = true /\ trim s = s /\ sepFree s = true.

Definition cleanEntry (entry : jsstring * jsstring) : Prop :=
  cleanPart entry.1 /\ cleanPart entry.2.

(** The names of a cookie map. *)
Definition names (m : cookie_map) : list jsstring := List.map fst m.

(** No name contains [=]. *)
Definition plainNames (m : cookie_map) : bool :=
  forallb (fun entry => negb (includesChar (ch "=") entry.1)) m.

(** The parser as one pass over the code units: [current] is the fragment
    read so far, [cookieMap] the map built from the fragments before it. *)
Fixpoint parseFrom (current : jsstring) (s : jsstring) (cookieMap : cookie_map)
  : cookie_map :=
  match s with
  | [] => parseFragment cookieMap current
  | c :: s' =>
      if isFragmentSep c then parseFrom [] s' (parseFragment cookieMap current)
      else parseFrom (current ++ [c]) s' cookieMap
  end.

(** [current] put in front of the first of a list of fragments. *)
Definition extendFirst (current : jsstring) (fragments : list jsstring)
  : list jsstring :=
  match fragments with
  | t :: ts => (current ++ t) :: ts
  | [] => [current]
  end.

End Auth.

(** ** Cookies for the browser context ([server/browser-service.js]) *)

Module BrowserCookies.

(** The body of the loop of [parseCookieHeader]: only [=] separates a name
    from its value. *)
Definition parseHeaderFragment (cookieMap : cookie_map) (rawFragment : jsstring)
  : cookie_map :=
  let fragment := trim rawFragment in
  if negb (truthy fragment) then cookieMap
  else
    let separatorIndex := indexOf (ch "=") fragment in
    if separatorIndex <=? 0 then cookieMap
    else
      let key := trim (slice 0 separatorIndex fragment) in
      let value := trim (sliceFrom (separatorIndex + 1) fragment) in
      if truthy key && truthy value then map_set key value cookieMap
      else cookieMap.

Definition parseCookieHeader (rawCookieHeader : jsstring) : cookie_map :=
  if negb (truthy (trim rawCookieHeader)) then []
  else fold_left parseHeaderFragment (splitFragments rawCookieHeader) [].

End BrowserCookies.

(** *** Client vocabulary *)

Module ClientSpec.
Import Client.

Section Payload.

Context {json : Type}.

(** Is the outcome of an attempt one after which the loop goes on, if the
    attempt is not the last? *)
Definition retried (platformKey : platform_key) (o : fetch_outcome json) : bool :=
  match attemptOnce platformKey o with
  | Returns _ => false
  | Throws err => negb (isApiError err)
  end.

(** The attempt at which the loop ends. *)
Definition lastAttempt (platformKey : platform_key)
  (network : Z -> fetch_outcome json) : Z :=
  if negb (retried platformKey (network 0)) then 0
  else if negb (retried platformKey (network 1)) then 1
  else if negb (retried platformKey (network 2)) then 2
  else 3.

(** What a call does that ends at attempt [k]: a fetch, and before each
    further fetch a sleep of one second per attempt made so far. *)
Definition traceUpTo (k : Z) : list event :=
  HttpFetch :: flat_map (fun j => [Sleep (1000 * j); HttpFetch]) (seqZ 1 k).

End Payload.

(** Text in which white space occurs only as single spaces. *)
Fixpoint singleSpaced (s : jsstring) : bool :=
  match s with
  | [] => true
  | c :: s' =>
      (negb (isWhiteSpace c)
       || ((c =? 32)%N
           && match s' with d :: _ => negb (isWhiteSpace d) | [] => true end))
      && singleSpaced s'
  end.

End ClientSpec.

(** *** Task identity *)

Module RegistryIds.
Import Registry.

(** The id [createTaskId] makes from a counter value and a clock reading. *)
Definition taskIdOf (counter now : Z) : jsstring :=
  lit "task_" ++ lit (pretty counter) ++ lit "_" ++ lit (pretty now).

(** Every id in the registry was made from a counter value already used. *)
Definition idsCounted (st : server) : Prop :=
  forall taskId address, tasks st !! taskId = Some address ->
    exists counter now, counter <= taskCounter st /\ taskId = taskIdOf counter now.

(** What stays the same of a task object as long as it lives. *)
Definition sameTask (t t' : task) : Prop :=
  id t' = id t /\ platform t' = platform t /\ startTime t' = startTime t.

End RegistryIds.

(** *** Pool vocabulary *)

Module PoolSpec.
Import Pool.

(** The driver calls a computation makes, by kind: it adds at most
    [weight e] calls of the kind of [e] to the log. *)
Definition bounded (weight : event -> nat) {A} (m : M A) : Prop :=
  forall e st, (calls e (log (m st).2) <= calls e (log st) + weight e)%nat.

(** One call of the kind of [e']. *)
Definition one (e' e : event) : nat := if event_eqb e e' then 1%nat else 0%nat.

(** What the operations of the pool may cost at most. *)
Definition free (e : event) : nat := 0%nat.

Definition recreateBudget (e : event) : nat :=
  match e with
  | RecreateBrowser | ClosedBrowser _ => 1
  | _ => 0
  end%nat.

Definition ensureBudget (e : event) : nat :=
  match e with
  | AskedConnected => 2
  | Launched => 1
  | _ => 0
  end%nat.

Definition openBudget (e : event) : nat :=
  match e with
  | AskedConnected => 2
  | Launched => 1
  | OpenedPage => 1
  | _ => 0
  end%nat.

Definition sessionBudget (e : event) : nat :=
  match e with
  | AskedConnected => 4
  | AskedClosed => 1
  | Launched => 2
  | OpenedPage => 2
  | Evaluated _ => 0
  | ClosedBrowser _ => 1
  | RecreateBrowser => 1
  end%nat.

Definition fetchBudget (e : event) : nat :=
  match e with
  | AskedConnected => 8
  | AskedClosed => 2
  | Launched => 4
  | OpenedPage => 4
  | Evaluated _ => 2
  | ClosedBrowser _ => 3
  | RecreateBrowser => 3
  end%nat.

(** The errors that are thrown after the retry loops have run out. *)
Definition loopExhausted (e : error) : bool :=
  match e with
  | ProxyFailedError | SessionInitError => true
  | _ => false
  end.

(** Every error of the computation satisfies [P]. *)
Definition throwsOnly (P : error -> bool) {A} (m : M A) : Prop :=
  forall st, match (m st).1 with inl e => P e = true | inr _ => True end.

(** The state after [page.isClosed()] has been asked once more. *)
Definition afterAskedClosed (st : service) : service :=
  {| browser := browser st; sessions := sessions st;
     log := log st ++ [AskedClosed] |}.

End PoolSpec.

(** ** Checksums of uploaded images ([calculateCRC32] in [server/index.js]) *)

Module Crc.

(** The 32-bit integers of the bitwise operators: [^] and [&] convert their
    operands with ToInt32 and give a signed result, [>>>] converts with
    ToUint32 and gives an unsigned one. *)
Definition toUint32 (x : Z) : Z := x mod 2 ^ 32.

Definition toInt32 (x : Z) : Z :=
  let u := toUint32 x in if u <? 2 ^ 31 then u else u - 2 ^ 32.

(** [a ^ b] *)
Definition xor32 (a b : Z) : Z := Z.lxor (toInt32 a) (toInt32 b).

(** [a & b] *)
Definition and32 (a b : Z) : Z := Z.land (toInt32 a) (toInt32 b).

(** [a >>> n], for [0 <= n < 32] *)
Definition ushr (a n : Z) : Z := Z.shiftr (toUint32 a) n.

(** [crc & 1 ? 0xedb88320 ^ (crc >>> 1) : crc >>> 1] *)
Definition tableStep (crc : Z) : Z :=
  if and32 crc 1 =? 0 then ushr crc 1 else xor32 3988292384 (ushr crc 1).

(** [crcTable[i]]: eight steps from [i]. *)
Definition tableEntry (i : Z) : Z := Nat.iter 8 tableStep i.

Definition crcTable : list Z := List.map tableEntry (seqZ 0 256).

(** The body of the loop over the bytes:
    [crc = (crc >>> 8) ^ crcTable[(crc ^ bytes[i]) & 0xff]].  The index is
    between 0 and 255, so the table has an entry for it. *)
Definition update (crc : Z) (byte : Byte.byte) : Z :=
  let index := and32 (xor32 crc (Z.of_N (Byte.to_N byte))) 255 in
  xor32 (ushr crc 8) (default 0 (crcTable !! Z.to_nat index)).

(** The digits of a positive integer in base 16, most significant first;
    [fuel] bounds their number. *)
Fixpoint hexDigits (fuel : nat) (n : N) (acc : jsstring) : jsstring :=
  match fuel with
  | O => acc
  | S fuel' =>
      if (n =? 0)%N then acc
      else hexDigits fuel' (n / 16) (Signer.hexDigit (n mod 16) :: acc)
  end.

(** [n.toString(16)] for a non-negative integer [n]; an integer of [k] bits
    has at most [k] digits. *)
Definition toString16 (n : N) : jsstring :=
  if (n =? 0)%N then lit "0" else hexDigits (N.to_nat (N.size n)) n [].

(** [s.padStart(targetLength, '0')] *)
Definition padStart0 (targetLength : nat) (s : jsstring) : jsstring :=
  repeat (ch "0") (targetLength - length s) ++ s.

Definition calculateCRC32 (bytes : list Byte.byte) : jsstring :=
  let crc := fold_left update bytes (xor32 0 (-1)) in
  padStart0 8 (toString16 (Z.to_N (ushr (xor32 crc (-1)) 0))).

(** The value of a string of hexadecimal digits. *)
Definition hexValue (s : jsstring) : N :=
  fold_left
    (fun acc c => (16 * acc + (if (c <? 58) then c - 48 else c - 87))%N) s 0%N.

(** One shift-and-xor step of the checksum on an unsigned 32-bit state. *)
Definition shiftStep (u : Z) : Z :=
  Z.lxor (Z.shiftr u 1) (if Z.testbit u 0 then 3988292384 else 0).

End Crc.

Module CrcExamples.

(** The bytes of the ASCII string [123456789]. *)
Definition checkInput : list Byte.byte :=
  [Byte.x31; Byte.x32; Byte.x33; Byte.x34; Byte.x35; Byte.x36; Byte.x37;
   Byte.x38; Byte.x39].

End CrcExamples.

(** ** Prompts with image placeholders ([buildMetaListFromPrompt] in
    [server/index.js]) *)

Module Meta.

Inductive meta_item :=
| MetaText (text : jsstring)
    (** [{ meta_type: 'text', text }] *)
| MetaImage (material_idx : Z).
    (** [{ meta_type: 'image', text: '', material_ref: { material_idx } }] *)

(** [\d] *)
Definition isDigit (c : N) : bool := ((48 <=? c) && (c <=? 57))%N.

(** [parseInt] of a string of decimal digits.  Above [2 ^ 53] the number
    JavaScript gives is rounded, but it stays above every image count, which
    is all the code asks of it. *)
Definition parseDigits (digits : jsstring) : Z :=
  fold_left (fun acc c => 10 * acc + Z.of_N (c - 48)) digits 0.

(** [(\d+)] at the head of [s]: the digits it captures. *)
Definition digitsAt (s : jsstring) : option jsstring :=
  match takeWhile isDigit s with
  | [] => None
  | digits => Some digits
  end.

(** [(?:图|image)] at the head of [s]: the number of code units it takes.
    Under the flag [i] a code unit matches a letter of [image] when it is
    that letter in either case: no code unit outside ASCII is folded to an
    ASCII letter. *)
Definition groupAt (s : jsstring) : option nat :=
  if isPrefixOf [22270%N] s then Some 1%nat
  else if isPrefixOf (lit "image") (List.map lowerUnit s) then Some 5%nat
  else None.

(** [/@(?:图|image)?(\d+)/i] at the head of [s]: the digits captured and the
    length of the match.  The group is tried first; without digits after it
    the match is tried again without the group. *)
Definition matchAt (s : jsstring) : option (jsstring * nat) :=
  match s with
  | c :: rest =>
      if (c =? ch "@")%N then
        let withoutGroup :=
          match digitsAt rest with
          | Some digits => Some (digits, S (length digits))
          | None => None
          end in
        match groupAt rest with
        | Some g =>
            match digitsAt (skipn g rest) with
            | Some digits => Some (digits, S (g + length digits))
            | None => withoutGroup
            end
        | None => withoutGroup
        end
      else None
  | [] => None
  end.

(** [if (text.trim()) metaList.push({ meta_type: 'text', text })] *)
Definition pushText (text : jsstring) : list meta_item :=
  if truthy (trim text) then [MetaText text] else [].

(** [if (imageIndex >= 0 && imageIndex < imageCount) metaList.push(...)] *)
Definition pushImage (imageCount imageIndex : Z) : list meta_item :=
  if (0 <=? imageIndex) && (imageIndex <? imageCount)
  then [MetaImage imageIndex] else [].

(** The [while] loop over the matches and the text after the last match, as
    one pass over the prompt: [skip] code units of the match just found are
    still to be passed, and [pending] is the text since the last match. *)
Fixpoint scan (imageCount : Z) (s : jsstring) (skip : nat) (pending : jsstring)
  : list meta_item :=
  match s with
  | [] => pushText pending
  | c :: s' =>
      match skip with
      | S skip' => scan imageCount s' skip' pending
      | O =>
          match matchAt s with
          | Some (digits, len) =>
              pushText pending
              ++ pushImage imageCount (parseDigits digits - 1)
              ++ scan imageCount s' (len - 1) []
          | None => scan imageCount s' 0 (pending ++ [c])
          end
      end
  end.

(** The Chinese string literals of the function, by code unit. *)
Definition generateVideoText : jsstring := [29983; 25104; 35270; 39057]%N.
Definition useText : jsstring := [20351; 29992]%N.
Definition andText : jsstring := [21644]%N.
Definition picturesPrefix : jsstring := [22270; 29255; 65292]%N.
Definition picturesVideoText : jsstring :=
  [22270; 29255; 29983; 25104; 35270; 39057]%N.

(** The list built when the loop has pushed nothing. *)
Definition defaultMetaList (imageCount : Z) (normalizedPrompt : jsstring)
  : list meta_item :=
  flat_map
    (fun i =>
       (if i =? 0 then [MetaText useText] else [])
       ++ [MetaImage i]
       ++ (if i <? imageCount - 1 then [MetaText andText] else []))
    (seqZ 0 imageCount)
  ++ [MetaText (if truthy normalizedPrompt
                then picturesPrefix ++ normalizedPrompt
                else picturesVideoText)].

Definition buildMetaListFromPrompt (prompt : jsstring) (imageCount : Z)
  : list meta_item :=
  let normalizedPrompt := trim prompt in
  if imageCount <=? 0 then
    [MetaText (if truthy normalizedPrompt then normalizedPrompt
               else generateVideoText)]
  else
    match scan imageCount prompt 0 [] with
    | [] => defaultMetaList imageCount normalizedPrompt
    | metaList => metaList
    end.

(** A text item that is not blank, or an image item that refers to one of
    the [imageCount] uploaded images. *)
Definition validItem (imageCount : Z) (item : meta_item) : bool :=
  match item with
  | MetaText text => truthy (trim text)
  | MetaImage i => (0 <=? i) && (i <? imageCount)
  end.

(** The images a list refers to, in order. *)
Definition imagesOf (metaList : list meta_item) : list Z :=
  omap (fun item => match item with
                    | MetaImage i => Some i
                    | MetaText _ => None
                    end) metaList.

End Meta.

(** ** Settings kept in the browser ([src/components/SettingsModal.tsx]) *)

Module Settings.

(** [localStorage]: [getItem] gives [null] for a key that is not set. *)
Abbreviation storage := (gmap jsstring jsstring).

Definition LS_SESSION_KEY_LEGACY : jsstring := lit "seedance_session_id".
Definition LS_PLATFORM_KEY : jsstring := lit "seedance_platform".
Definition LS_SESSION_KEYS (p : platform_key) : jsstring :=
  match p with
  | jimeng => lit "seedance_session_id_jimeng"
  | xyq => lit "seedance_session_id_xyq"
  end.

(** [Record<PlatformId, string>]: the fields [jimeng] and [xyq]. *)
Record session_ids := {
  jimengSession : jsstring;
  xyqSession : jsstring;
}.

Record AppSettings := {
  platform : platform_key;
  sessions : session_ids;
}.

(** A [PlatformId] as the string it is. *)
Definition platformId (p : platform_key) : jsstring :=
  match p with jimeng => lit "jimeng" | xyq => lit "xyq" end.

(** [localStorage.getItem(key) || fallback] *)
Definition getItemOr (localStorage : storage) (key fallback : jsstring) : jsstring :=
  match localStorage !! key with
  | Some v => if truthy v then v else fallback
  | None => fallback
  end.

Definition loadSettings (localStorage : storage) : AppSettings :=
  let legacySession := getItemOr localStorage LS_SESSION_KEY_LEGACY [] in
  let savedPlatform := localStorage !! LS_PLATFORM_KEY in
  let platform :=
    if bool_decide (savedPlatform = Some (lit "xyq")) then xyq else jimeng in
  {| platform := platform;
     sessions :=
       {| jimengSession := getItemOr localStorage (LS_SESSION_KEYS jimeng) legacySession;
          xyqSession := getItemOr localStorage (LS_SESSION_KEYS xyq) [] |} |}.

Definition saveSettings (settings : AppSettings) (localStorage : storage) : storage :=
  <[LS_SESSION_KEY_LEGACY := jimengSession (sessions settings)]>
    (<[LS_SESSION_KEYS xyq := xyqSession (sessions settings)]>
       (<[LS_SESSION_KEYS jimeng := jimengSession (sessions settings)]>
          (<[LS_PLATFORM_KEY := platformId (platform settings)]> localStorage))).

(** [handleSave]: the settings handed to [onSave] and the storage after
    [saveSettings]. *)
Definition handleSave (localSettings : AppSettings) (localStorage : storage)
  : AppSettings * storage :=
  let normalized :=
    {| platform := platform localSettings;
       sessions :=
         {| jimengSession := trim (jimengSession (sessions localSettings));
            xyqSession := trim (xyqSession (sessions localSettings)) |} |} in
  (normalized, saveSettings normalized localStorage).

End Settings.

Module SettingsExamples.
Import Settings.

Definition pastedSettings : AppSettings :=
  {| platform := xyq;
     sessions := {| jimengSession := lit " abc "; xyqSession := [] |} |}.

End SettingsExamples.

(** ** Polling from the browser ([pollVideoTask] in
    [src/services/videoService.ts]) *)

Module Poller.

Section Payload.

(** The [result] of a finished task is handed on as it is. *)
Context {json : Type}.

(** The fields of a poll answer that the client reads, with the types the
    source declares for them. *)
Record poll_data := {
  status : option jsstring;
  result : json;
  resultUrl : option jsstring;  (** [result?.data?.[0]?.url], when truthy *)
  error : option jsstring;      (** [error], when truthy *)
  progress : option jsstring;   (** [progress], when truthy *)
}.

(** [JSON.parse(text)] *)
Inductive parse_result :=
| ParseThrows
| ParsedNull
| ParsedValue (pollData : poll_data).

(** [response.text()] and what [JSON.parse] makes of it. *)
Inductive response_body :=
| BodyRejects
| BodyText (text : jsstring) (parsed : parse_result).

Record poll_response := {
  ok : bool;
  httpStatus : Z;
  body : response_body;
}.

(** What [fetch] does in one round: [message] is [error.message] when an
    [Error] was thrown. *)
Inductive fetch_outcome :=
| FetchRejects (message : option jsstring)
| FetchResolves (pollRes : poll_response).

Inductive failure :=
| EmptyTaskId
| PollFailed (message : jsstring)
| BodyFailed
| NotJson (httpStatus : Z) (preview : jsstring)
| NullBody
| HttpFailed (httpStatus : Z) (error : option jsstring)
| NoVideo
| GenerationFailed (error : option jsstring)
| TimedOut (timeoutMinutes : Z).

Inductive outcome :=
| Returns (result : json)
| Throws (f : failure).

Inductive event :=
| Wait (ms : Z)
| Fetch
| Progress (message : jsstring).

(** Two Chinese string literals of the function, by code unit. *)
Definition submittedMessage : jsstring :=
  [24050; 25552; 20132; 65292; 31561; 24453; 65; 73; 29983; 25104; 35270;
   39057; 46; 46; 46]%N.
Definition networkFailedMessage : jsstring :=
  [32593; 32476; 35831; 27714; 22833; 36133]%N.

Definition previewBody (text : jsstring) : jsstring :=
  slice 0 120 (trim (Client.collapseWhiteSpace text)).

(** [onProgress?.(message)] *)
Definition report (onProgress : bool) (message : jsstring) : list event :=
  if onProgress then [Progress message] else [].

(** One round of the loop after the wait and the fetch: [None] when the
    loop goes on. *)
Definition round (onProgress : bool) (o : fetch_outcome)
  : list event * option outcome :=
  match o with
  | FetchRejects message =>
      ([], Some (Throws (PollFailed (default networkFailedMessage message))))
  | FetchResolves pollRes =>
      match body pollRes with
      | BodyRejects => ([], Some (Throws BodyFailed))
      | BodyText text ParseThrows =>
          ([], Some (Throws (NotJson (httpStatus pollRes) (previewBody text))))
      | BodyText _ ParsedNull => ([], Some (Throws NullBody))
      | BodyText _ (ParsedValue pollData) =>
          if negb (ok pollRes) then
            ([], Some (Throws (HttpFailed (httpStatus pollRes) (error pollData))))
          else if bool_decide (status pollData = Some (lit "done")) then
            match resultUrl pollData with
            | Some _ => ([], Some (Returns (result pollData)))
            | None => ([], Some (Throws NoVideo))
            end
          else if bool_decide (status pollData = Some (lit "error")) then
            ([], Some (Throws (GenerationFailed (error pollData))))
          else
            (match progress pollData with
             | Some message => report onProgress message
             | None => []
             end, None)
      end
  end.

(** [Math.ceil(a / b)] for integers, [b] positive. *)
Definition ceilDiv (a b : Z) : Z := - ((- a) `div` b).

(** The [while] loop from round [k] on.  [now 0] is the clock read into
    [startTime], [now (k + 1)] the clock read by the test before round [k];
    [server k] is what the fetch of round [k] meets.  [fuel] bounds the
    number of rounds. *)
Fixpoint roundsFrom (POLL_TIMEOUT_MS : Z) (now : nat -> Z)
  (server : nat -> fetch_outcome) (onProgress : bool) (fuel k : nat)
  : list event * option outcome :=
  match fuel with
  | O => ([], None)
  | S fuel' =>
      if now (S k) - now 0%nat <? POLL_TIMEOUT_MS then
        let '(events, ended) := round onProgress (server k) in
        match ended with
        | Some o => (Wait 3000 :: Fetch :: events, Some o)
        | None =>
            let '(later, o) :=
              roundsFrom POLL_TIMEOUT_MS now server onProgress fuel' (S k) in
            (Wait 3000 :: Fetch :: events ++ later, o)
        end
      else ([], Some (Throws (TimedOut (ceilDiv POLL_TIMEOUT_MS 60000))))
  end.

Definition pollVideoTask (POLL_TIMEOUT_MS : Z) (now : nat -> Z)
  (server : nat -> fetch_outcome) (fuel : nat) (taskId : jsstring)
  (onProgress : bool) : list event * option outcome :=
  if negb (truthy taskId) then ([], Some (Throws EmptyTaskId))
  else
    let '(events, o) :=
      roundsFrom POLL_TIMEOUT_MS now server onProgress fuel 0 in
    (report onProgress submittedMessage ++ events, o).

Definition fetches (trace : list event) : nat :=
  length (List.filter (fun e => match e with Fetch => true | _ => false end) trace).

(** Between two tests of the loop the wait of 3000 ms has passed. *)
Definition clockAdvances (now : nat -> Z) : Prop :=
  now 0%nat <= now 1%nat /\ forall k, now (S k) + 3000 <= now (S (S k)).

End Payload.

Arguments poll_data : clear implicits.
Arguments parse_result : clear implicits.
Arguments response_body : clear implicits.
Arguments poll_response : clear implicits.
Arguments fetch_outcome : clear implicits.
Arguments outcome : clear implicits.

End Poller.

Module PollerSamples.
Import Poller.

(** A server that never finishes the task, and a clock that advances by the
    wait alone. *)
Definition alwaysProcessing (k : nat) : fetch_outcome jsstring :=
  FetchResolves
    {| ok := true; httpStatus := 200;
       body := BodyText (lit "{}")
                 (ParsedValue {| status := Some (lit "processing");
                                 result := []; resultUrl := None;
                                 error := None; progress := None |}) |}.

Definition tickingClock (k : nat) : Z := 3000 * Z.of_nat (k - 1).

End PollerSamples.

(** ** More example inputs *)

Module ClientSamples.
Import Client.

(** A status the vendor uses for a rejected request. *)
Definition rejectedBody : api_body jsstring :=
  {| ret := RetInteger 1014; errmsg := Some (lit "rate limited");
     data := []; whole := [] |}.

Definition rejectedResponse : http_response jsstring :=
  {| status := 200; contentType := lit "application/json";
     responseText := []; parsed := ParsedValue rejectedBody |}.

(** The login page, sent instead of JSON when the session has expired. *)
Definition loginPage : http_response jsstring :=
  {| status := 200; contentType := lit "text/html; charset=utf-8";
     responseText := lit "<!DOCTYPE html><html><body>login</body></html>";
     parsed := ParseThrows |}.

End ClientSamples.

Module LockSamples.
Import SessionLock.



End LockSamples.

(** * Properties *)

(** ** Strings *)

Section StringFacts.

Implicit Types (s t w : jsstring) (p : N -> bool).

Lemma dropWhile_app_takeWhile p s : takeWhile p s ++ dropWhile p s = s.
Proof. induction s as [|c s IH]; simpl; [done|]. destruct (p c); simpl; congruence. Qed.

Lemma dropWhile_all p s : forallb p s = true -> dropWhile p s = [].
Proof.
  induction s as [|c s IH]; simpl; [done|].
  destruct (p c); simpl; [auto|discriminate].
Qed.

Lemma dropWhile_head p s c s' : dropWhile p s = c :: s' -> p c = false.
Proof.
  induction s as [|d s IH]; simpl; [discriminate|].
  destruct (p d) eqn:Hd; [auto|]. intros [= -> _]. exact Hd.
Qed.

Lemma dropWhile_fix p c s' : p c = false -> dropWhile p (c :: s') = c :: s'.
Proof. intros H. simpl. by rewrite H. Qed.

Lemma dropWhile_app p s t :
  dropWhile p (s ++ t) =
  match dropWhile p s with [] => dropWhile p t | _ :: _ => dropWhile p s ++ t end.
Proof.
  induction s as [|c s IH]; simpl; [by destruct (dropWhile p t)|].
  destruct (p c); [exact IH|done].
Qed.

Lemma dropWhile_suffix p s : exists pre, s = pre ++ dropWhile p s /\ forallb p pre = true.
Proof.
  exists (takeWhile p s). split; [by rewrite dropWhile_app_takeWhile|].
  induction s as [|c s IH]; simpl; [done|]. destruct (p c) eqn:E; simpl; [by rewrite E|done].
Qed.

Lemma forallb_rev p s : forallb p (rev s) = forallb p s.
Proof.
  induction s as [|c s IH]; simpl; [done|].
  rewrite forallb_app, IH. simpl. rewrite andb_true_r. apply andb_comm.
Qed.

(** Trailing white space does not survive [trimEnd]. *)
Lemma trimEnd_app_ws s w :
  forallb isWhiteSpace w = true -> trimEnd (s ++ w) = trimEnd s.
Proof.
  intros Hw. unfold trimEnd. rewrite rev_app_distr, dropWhile_app.
  rewrite (dropWhile_all _ (rev w)); [done|]. by rewrite forallb_rev.
Qed.

Lemma trim_app_ws s w :
  forallb isWhiteSpace w = true -> trim (s ++ w) = trim s.
Proof.
  intros Hw. unfold trim, trimStart. rewrite dropWhile_app.
  destruct (dropWhile isWhiteSpace s) as [|c s'] eqn:E.
  - by rewrite (dropWhile_all _ w).
  - by apply trimEnd_app_ws.
Qed.

Lemma trim_cons_ws c s : isWhiteSpace c = true -> trim (c :: s) = trim s.
Proof. intros H. unfold trim, trimStart. simpl. by rewrite H. Qed.

Lemma trim_all_ws w : forallb isWhiteSpace w = true -> trim w = [].
Proof. intros H. unfold trim, trimStart. by rewrite dropWhile_all. Qed.

Lemma trimmedShape_trim_id s : trimmedShape s -> trim s = s.
Proof.
  intros [H1 H2]. unfold trim, trimStart, trimEnd.
  by rewrite H1, H2, rev_involutive.
Qed.

Lemma trim_trimmedShape s : trimmedShape (trim s).
Proof.
  unfold trimmedShape, trim, trimStart, trimEnd.
  set (a := dropWhile isWhiteSpace s).
  destruct (dropWhile_suffix isWhiteSpace (rev a)) as (pre & Hpre & Hall).
  set (b := dropWhile isWhiteSpace (rev a)) in *.
  rewrite rev_involutive.
  assert (Hb : dropWhile isWhiteSpace b = b).
  { destruct b as [|c b'] eqn:Eb; [done|].
    apply dropWhile_fix. eapply dropWhile_head. exact Eb. }
  split; [|exact Hb].
  assert (Ha : a = rev b ++ rev pre).
  { rewrite <- (rev_involutive a), Hpre, rev_app_distr. done. }
  destruct (rev b) as [|c r] eqn:Er; [done|].
  apply dropWhile_fix.
  destruct a as [|c0 a'] eqn:Ea; [discriminate|].
  simpl in Ha. injection Ha as -> _.
  eapply dropWhile_head. exact Ea.
Qed.

Lemma trim_idemp s : trim (trim s) = trim s.
Proof. apply trimmedShape_trim_id, trim_trimmedShape. Qed.

Lemma includesChar_dropWhile p c s :
  p c = false -> includesChar c (dropWhile p s) = includesChar c s.
Proof.
  intros Hc. unfold includesChar. induction s as [|d s IH]; simpl; [done|].
  destruct (p d) eqn:Hd; [|done]. rewrite IH.
  destruct (N.eqb_spec c d) as [->|]; [congruence|done].
Qed.

Lemma includesChar_rev c s : includesChar c (rev s) = includesChar c s.
Proof.
  unfold includesChar. induction s as [|d s IH]; simpl; [done|].
  rewrite existsb_app, IH. simpl. rewrite orb_false_r. apply orb_comm.
Qed.

Lemma includesChar_trim c s :
  isWhiteSpace c = false -> includesChar c (trim s) = includesChar c s.
Proof.
  intros Hc. unfold trim, trimEnd, trimStart.
  rewrite includesChar_rev, includesChar_dropWhile by done.
  rewrite includesChar_rev. by apply includesChar_dropWhile.
Qed.

Lemma truthy_false s : truthy s = false -> s = [].
Proof. by destruct s. Qed.

End StringFacts.

(** ** The cookie parser *)

Section ParserFacts.

Implicit Types (s t w f : jsstring) (m : cookie_map).

Lemma parseFragment_trim_eq m f f' :
  trim f = trim f' -> parseFragment m f = parseFragment m f'.
Proof. intros H. unfold parseFragment. by rewrite H. Qed.

Lemma parseFragment_blank m f : trim f = [] -> parseFragment m f = m.
Proof. intros H. unfold parseFragment. by rewrite H. Qed.

Lemma fold_blank_fragments (l : list jsstring) m :
  Forall (fun f => forallb isWhiteSpace f = true) l ->
  fold_left parseFragment l m = m.
Proof.
  induction 1 as [|f l Hf _ IH]; simpl; [done|].
  by rewrite parseFragment_blank, IH by by apply trim_all_ws.
Qed.

Lemma split_nonempty s : splitFragments s <> [].
Proof.
  induction s as [|c s IH]; simpl; [done|].
  destruct (isFragmentSep c).
  - destruct s as [|c' s']; [done|]. by destruct (isFragmentSep c').
  - by destruct (splitFragments s).
Qed.

Lemma split_blank w :
  forallb isWhiteSpace w = true ->
  Forall (fun f => forallb isWhiteSpace f = true) (splitFragments w).
Proof.
  induction w as [|c w IH]; simpl; [by repeat constructor|].
  intros [Hc Hw]%andb_true_iff. specialize (IH Hw).
  destruct (isFragmentSep c).
  - destruct w as [|c' w']; [by repeat constructor|].
    destruct (isFragmentSep c'); [done|by constructor].
  - destruct (splitFragments w) as [|t ts].
    + constructor; [simpl; by rewrite Hc|constructor].
    + inversion IH; subst. constructor; [simpl; by rewrite Hc|done].
Qed.

Lemma fold_split_cons_ws c s m :
  isWhiteSpace c = true ->
  fold_left parseFragment (splitFragments (c :: s)) m =
  fold_left parseFragment (splitFragments s) m.
Proof.
  intros Hc. simpl. destruct (isFragmentSep c).
  - destruct s as [|c' s']; [done|]. by destruct (isFragmentSep c').
  - destruct (splitFragments s) as [|t ts] eqn:E.
    + by apply split_nonempty in E.
    + simpl. f_equal. apply parseFragment_trim_eq. by apply trim_cons_ws.
Qed.

Lemma fold_split_trimStart s m :
  fold_left parseFragment (splitFragments (trimStart s)) m =
  fold_left parseFragment (splitFragments s) m.
Proof.
  unfold trimStart. induction s as [|c s IH]; [done|].
  cbn [dropWhile]. destruct (isWhiteSpace c) eqn:Hc; [|done].
  by rewrite IH, fold_split_cons_ws.
Qed.

Lemma fragmentsAlike_fold l' l m :
  fragmentsAlike l' l ->
  fold_left parseFragment l' m = fold_left parseFragment l m.
Proof.
  destruct l' as [|t' ts'], l as [|t ts]; simpl; try done.
  intros [Hh Ht]. rewrite (parseFragment_trim_eq m t' t) by apply (Hh []).
  apply Ht.
Qed.

Lemma fragmentsAlike_blank w :
  forallb isWhiteSpace w = true -> fragmentsAlike (splitFragments w) [[]].
Proof.
  intros Hw. pose proof (split_blank w Hw) as Hall.
  destruct (splitFragments w) as [|t ts] eqn:E.
  - by apply split_nonempty in E.
  - inversion Hall; subst. split.
    + intros pre. rewrite app_nil_r. by apply trim_app_ws.
    + intros m. by apply fold_blank_fragments.
Qed.

Lemma split_app_ws r w :
  forallb isWhiteSpace w = true ->
  fragmentsAlike (splitFragments (r ++ w)) (splitFragments r).
Proof.
  intros Hw. induction r as [|c r IH]; [by apply fragmentsAlike_blank|].
  change ((c :: r) ++ w) with (c :: (r ++ w)).
  cbn [splitFragments]. destruct (isFragmentSep c) eqn:Hc.
  - destruct r as [|c' r'].
    + cbn [app]. pose proof (fragmentsAlike_blank w Hw) as Hb.
      assert (Hfold : forall m,
        fold_left parseFragment (splitFragments w) m = m).
      { intros m. apply fold_blank_fragments. by apply split_blank. }
      assert (Hgoal : fragmentsAlike ([] :: splitFragments w) [[]; []]).
      { split; [done|]. intros m. by rewrite Hfold. }
      destruct w as [|c' w']; [exact Hgoal|].
      destruct (isFragmentSep c') eqn:Hc'; [|exact Hgoal].
      destruct (splitFragments (c' :: w')) as [|t ts] eqn:E; [done|].
      destruct Hb as [Hh Ht]. split.
      * intros pre. rewrite Hh. simpl. done.
      * intros m. pose proof (Hfold m) as Hm. simpl in Hm.
        pose proof (Hfold (parseFragment m t)) as _.
        assert (Hbl : Forall (fun f => forallb isWhiteSpace f = true) (t :: ts)).
        { rewrite <- E. by apply split_blank. }
        inversion Hbl; subst. simpl. by rewrite fold_blank_fragments.
    + cbn [app]. destruct (isFragmentSep c'); [exact IH|].
      split; [done|]. intros m. by apply fragmentsAlike_fold.
  - destruct (splitFragments (r ++ w)) as [|t' ts'], (splitFragments r) as [|t ts];
      simpl in IH; try done.
    destruct IH as [Hh Ht]. split; [|exact Ht].
    intros pre. specialize (Hh (pre ++ [c])). by rewrite <- !app_assoc in Hh.
Qed.

Lemma trimEnd_decompose s :
  exists w, s = trimEnd s ++ w /\ forallb isWhiteSpace w = true.
Proof.
  destruct (dropWhile_suffix isWhiteSpace (rev s)) as (pre & Hpre & Hall).
  exists (rev pre). split; [|by rewrite forallb_rev].
  unfold trimEnd. rewrite <- rev_app_distr, <- Hpre. by rewrite rev_involutive.
Qed.

Lemma fold_split_trimEnd s m :
  fold_left parseFragment (splitFragments (trimEnd s)) m =
  fold_left parseFragment (splitFragments s) m.
Proof.
  destruct (trimEnd_decompose s) as (w & Hs & Hw).
  rewrite Hs at 2. symmetry. apply fragmentsAlike_fold. by apply split_app_ws.
Qed.

(** Surrounding white space is invisible to the cookie parser. *)
Lemma parseCookieString_trim s :
  parseCookieString (trim s) = parseCookieString s.
Proof.
  unfold parseCookieString, trim.
  by rewrite fold_split_trimEnd, fold_split_trimStart.
Qed.

Lemma map_set_clean k v m :
  truthy v = true -> trim v = v -> valuesClean m -> valuesClean (map_set k v m).
Proof.
  intros Hv Ht. induction 1 as [|[k' v'] m Hkv Hm IH]; simpl.
  - by repeat constructor.
  - case_decide; constructor; done.
Qed.

Lemma parseFragment_clean m f : valuesClean m -> valuesClean (parseFragment m f).
Proof.
  intros Hm. unfold parseFragment.
  destruct (negb (truthy (trim f))); [done|].
  match goal with |- context [if ?i <=? 0 then m else _] =>
    destruct (i <=? 0); [done|] end.
  match goal with |- context [if ?b then _ else m] =>
    destruct b eqn:Hb; [|done] end.
  apply andb_true_iff in Hb as [_ Hv].
  apply map_set_clean; [exact Hv|apply trim_idemp|done].
Qed.

Lemma fold_parseFragment_clean (l : list jsstring) m :
  valuesClean m -> valuesClean (fold_left parseFragment l m).
Proof.
  revert m. induction l as [|f l IH]; simpl; [done|].
  intros m Hm. by apply IH, parseFragment_clean.
Qed.

Lemma parseCookieString_clean s : valuesClean (parseCookieString s).
Proof. apply fold_parseFragment_clean. constructor. Qed.

Lemma map_get_clean k v m :
  valuesClean m -> map_get k m = Some v -> truthy v = true /\ trim v = v.
Proof.
  induction 1 as [|[k' v'] m Hkv _ IH]; simpl; [done|].
  case_decide; [by intros [= <-]|exact IH].
Qed.

End ParserFacts.

(** ** The credential normaliser *)

Section NormalizerFacts.

Implicit Types (s t : jsstring) (p : platform_key) (m : cookie_map).

Lemma highestPriorityKey_head p :
  head (SESSION_TOKEN_COOKIE_KEYS p) = Some (highestPriorityKey p).
Proof. by destruct p. Qed.

Lemma firstCandidate_found m (keys : list jsstring) t :
  firstCandidate m keys = Some t -> exists k, map_get k m = Some t.
Proof.
  induction keys as [|k keys IH]; simpl; [done|].
  destruct (map_get k m) as [v|] eqn:E; [|exact IH].
  destruct (truthy v); [|exact IH]. intros [= <-]. by exists k.
Qed.

Lemma firstCandidate_head m k (keys : list jsstring) v :
  map_get k m = Some v -> truthy v = true ->
  firstCandidate m (k :: keys) = Some v.
Proof. intros Hk Hv. simpl. by rewrite Hk, Hv. Qed.

Lemma parseCookieString_empty : parseCookieString [] = [].
Proof. reflexivity. Qed.

(** A string without [=] that is not of the [identifier:value] shape is
    returned trimmed. *)
Lemma normalize_bare p s :
  includesChar (ch "=") s = false ->
  colonMatch (trim s) = None ->
  normalizeSessionInput p (RawString s) = trim s.
Proof.
  intros Heq Hcolon. unfold normalizeSessionInput.
  rewrite Hcolon, (includesChar_trim (ch "=")), Heq by done.
  destruct (truthy (trim s)) eqn:Ht; cbn [negb]; [done|].
  symmetry. by apply truthy_false.
Qed.

(** Whatever [normalizeSessionInput] returns carries no surrounding white
    space. *)
Lemma normalize_trimmed p r :
  trim (normalizeSessionInput p r) = normalizeSessionInput p r.
Proof.
  destruct r as [s|]; [|done]. unfold normalizeSessionInput.
  destruct (negb (truthy (trim s))); [done|].
  destruct (colonMatch (trim s)) as [g|]; [apply trim_idemp|].
  destruct (negb (includesChar (ch "=") (trim s))); [apply trim_idemp|].
  destruct (firstCandidate _ _) as [token|] eqn:E.
  - apply firstCandidate_found in E as [k Hk].
    eapply map_get_clean in Hk as [_ Hk]; [done|apply parseCookieString_clean].
  - destruct (negb (includesChar (ch ";") (trim s))); [|done].
    destruct (0 <? _); [apply trim_idemp|done].
Qed.

(** C3, amended: a credential string that contains no [=] and whose trimmed
    form is not of the single [identifier:value] shape is returned with its
    surrounding white space removed, for every platform key; a string that
    has no surrounding white space is therefore returned unchanged. *)
Theorem normalize_bare_token_trimmed p s :
  includesChar (ch "=") s = false ->
  colonMatch (trim s) = None ->
  normalizeSessionInput p (RawString s) = trim s /\
  (trim s = s -> normalizeSessionInput p (RawString s) = s).
Proof.
  intros Heq Hcolon. pose proof (normalize_bare p s Heq Hcolon) as H.
  split; [exact H|]. intros Hs. by rewrite H.
Qed.

Lemma normalize_bare_token_trimmed_witness :
  normalizeSessionInput xyq (RawString (lit " 0a1b2c3d4e5f ")) = lit "0a1b2c3d4e5f" /\
  normalizeSessionInput jimeng (RawString (lit "0a1b2c3d4e5f")) = lit "0a1b2c3d4e5f".
Proof.
  split.
  - apply (normalize_bare_token_trimmed xyq (lit " 0a1b2c3d4e5f ")); reflexivity.
  - apply (normalize_bare_token_trimmed jimeng (lit "0a1b2c3d4e5f")); reflexivity.
Defined.

(** C3 as stated fails: a bare token with surrounding white space, or one of
    the [identifier:value] shape, contains no [=] and is not returned
    unchanged. *)
Lemma normalize_bare_token_identity_fails :
  (includesChar (ch "=") (lit " abc ") = false /\
   normalizeSessionInput jimeng (RawString (lit " abc ")) <> lit " abc ") /\
  (includesChar (ch "=") (lit "sessionid:abc") = false /\
   normalizeSessionInput jimeng (RawString (lit "sessionid:abc"))
     <> lit "sessionid:abc").
Proof. vm_compute. repeat split; discriminate. Qed.

(** C4, amended: for a credential string that contains [=] and whose trimmed
    form is not of the single [identifier:value] shape, if the parsed cookie
    pairs hold a value under the platform's highest-priority candidate name,
    [normalizeSessionInput] returns exactly that value, whatever the order of
    the fragments and the white space around fragments, names and values. *)
Theorem normalize_highest_priority_cookie p s v :
  includesChar (ch "=") s = true ->
  colonMatch (trim s) = None ->
  map_get (highestPriorityKey p) (parseCookieString s) = Some v ->
  normalizeSessionInput p (RawString s) = v.
Proof.
  intros Heq Hcolon Hget. unfold normalizeSessionInput.
  rewrite Hcolon, (includesChar_trim (ch "=")), Heq by done.
  destruct (truthy (trim s)) eqn:Ht; cbn [negb].
  - rewrite parseCookieString_trim.
    destruct (map_get_clean _ _ _ (parseCookieString_clean s) Hget) as [Hv _].
    pose proof (highestPriorityKey_head p) as Hhd.
    destruct (SESSION_TOKEN_COOKIE_KEYS p) as [|k keys]; [done|].
    injection Hhd as ->. by rewrite (firstCandidate_head _ _ _ v).
  - apply truthy_false in Ht. rewrite <- parseCookieString_trim, Ht in Hget.
    done.
Qed.

Lemma normalize_highest_priority_cookie_witness :
  normalizeSessionInput xyq
    (RawString (lit " sid_tt=def ;; sessionid = abc ; sessionid_pippitcn_web= q1 "))
  = lit "q1".
Proof.
  apply (normalize_highest_priority_cookie xyq
    (lit " sid_tt=def ;; sessionid = abc ; sessionid_pippitcn_web= q1 ") (lit "q1"));
    reflexivity.
Defined.

(** C4 as stated fails: pasted with its header name, a cookie header parses
    to pairs that include [sessionid], yet the [identifier:value] rule wins
    and the rest of the line is returned. *)
Lemma normalize_highest_priority_cookie_fails :
  map_get (highestPriorityKey jimeng)
    (parseCookieString (lit "Cookie: sid_tt=def; sessionid=abc")) = Some (lit "abc") /\
  normalizeSessionInput jimeng (RawString (lit "Cookie: sid_tt=def; sessionid=abc"))
    = lit "sid_tt=def; sessionid=abc" /\
  normalizeSessionInput jimeng (RawString (lit "Cookie: sid_tt=def; sessionid=abc"))
    <> lit "abc".
Proof. vm_compute. repeat split; discriminate. Qed.

(** C5, amended: when the token [normalizeSessionInput] returns contains no
    [=] and is not of the [identifier:value] shape, normalising it again
    returns it unchanged. *)
Theorem normalize_idempotent_on_bare_tokens p s :
  includesChar (ch "=") (normalizeSessionInput p (RawString s)) = false ->
  colonMatch (normalizeSessionInput p (RawString s)) = None ->
  normalizeSessionInput p (RawString (normalizeSessionInput p (RawString s)))
  = normalizeSessionInput p (RawString s).
Proof.
  intros Heq Hcolon. set (t := normalizeSessionInput p (RawString s)) in *.
  assert (Ht : trim t = t) by apply normalize_trimmed.
  rewrite normalize_bare; [exact Ht|exact Heq|by rewrite Ht].
Qed.

Lemma normalize_idempotent_on_bare_tokens_witness :
  normalizeSessionInput jimeng
    (RawString (normalizeSessionInput jimeng
       (RawString (lit "sid_tt=x; sessionid= 0a1b2c ;"))))
  = normalizeSessionInput jimeng (RawString (lit "sid_tt=x; sessionid= 0a1b2c ;")).
Proof.
  apply (normalize_idempotent_on_bare_tokens jimeng
           (lit "sid_tt=x; sessionid= 0a1b2c ;")); reflexivity.
Defined.

(** C5 as stated fails: a session value that itself ends in [=] is extracted
    by the first pass and lost by the second. *)
Lemma normalize_not_idempotent :
  normalizeSessionInput jimeng (RawString (lit "sessionid=YWJj=")) = lit "YWJj=" /\
  normalizeSessionInput jimeng
    (RawString (normalizeSessionInput jimeng (RawString (lit "sessionid=YWJj="))))
  <> normalizeSessionInput jimeng (RawString (lit "sessionid=YWJj=")).
Proof. vm_compute. split; [reflexivity|discriminate]. Qed.

End NormalizerFacts.

(** X1: whatever the platform and the input, a string of any shape or no
    string at all, the session id that [normalizeSessionInput] returns has no
    white space at its ends. *)
Theorem normalizeSessionInput_result_trimmed p r :
  trim (normalizeSessionInput p r) = normalizeSessionInput p r /\
  trimmedShape (normalizeSessionInput p r).
Proof.
  split; [apply normalize_trimmed|].
  rewrite <- normalize_trimmed. apply trim_trimmedShape.
Qed.

(** ** Cookies: what the parser stores and how headers are rebuilt *)

Section Cookies.

Import Auth BrowserCookies.

Section SeparatorFacts.
Lemma app_sep_inj c (a a' b b' : jsstring) :
  includesChar c a = false -> includesChar c a' = false ->
  a ++ c :: b = a' ++ c :: b' -> a = a' /\ b = b'.
Proof.
  unfold includesChar. revert a'. induction a as [|x a IH]; intros [|y a']; simpl.
  - by intros _ _ [= ->].
  - intros _ [Hy _]%orb_false_iff [= <- _]. by rewrite N.eqb_refl in Hy.
  - intros [Hx _]%orb_false_iff _ [= -> _]. by rewrite N.eqb_refl in Hx.
  - intros [_ Ha]%orb_false_iff [_ Ha']%orb_false_iff [= -> E].
    destruct (IH a' Ha Ha' E) as [-> ->]. done.
Qed.
End SeparatorFacts.


Section CookieFacts.

Implicit Types (s t f r k v : jsstring) (m : cookie_map).

Lemma sepFree_dropWhile p s : sepFree s = true -> sepFree (dropWhile p s) = true.
Proof.
  unfold sepFree. induction s as [|c s IH]; simpl; [done|].
  intros [Hc Hs]%andb_true_iff. destruct (p c); [auto|].
  simpl. by rewrite Hc, Hs.
Qed.

Lemma sepFree_rev s : sepFree (rev s) = sepFree s.
Proof. apply forallb_rev. Qed.

Lemma sepFree_trim s : sepFree s = true -> sepFree (trim s) = true.
Proof.
  intros H. unfold trim, trimEnd, trimStart.
  rewrite sepFree_rev. apply sepFree_dropWhile. rewrite sepFree_rev.
  by apply sepFree_dropWhile.
Qed.

Lemma sepFree_firstn n s : sepFree s = true -> sepFree (firstn n s) = true.
Proof.
  unfold sepFree. revert n. induction s as [|c s IH]; intros [|n]; simpl; try done.
  intros [Hc Hs]%andb_true_iff. rewrite Hc. simpl. by apply IH.
Qed.

Lemma sepFree_skipn n s : sepFree s = true -> sepFree (skipn n s) = true.
Proof.
  unfold sepFree. revert n. induction s as [|c s IH]; intros [|n]; simpl; try done.
  intros [Hc Hs]%andb_true_iff. by apply IH.
Qed.

Lemma split_sepFree s : Forall (fun f => sepFree f = true) (splitFragments s).
Proof.
  induction s as [|c s IH]; simpl; [by repeat constructor|].
  destruct (isFragmentSep c) eqn:Hc.
  - destruct s as [|c' s']; [by repeat constructor|].
    destruct (isFragmentSep c'); [done|by constructor].
  - destruct (splitFragments s) as [|t ts].
    + repeat constructor. simpl. by rewrite Hc.
    + inversion IH; subst. constructor; [|done]. simpl. by rewrite Hc.
Qed.

Lemma map_set_Forall (P : jsstring * jsstring -> Prop) k v m :
  P (k, v) -> Forall P m -> Forall P (map_set k v m).
Proof.
  intros Hkv. induction 1 as [|[k' v'] m Hh Hm IH]; simpl.
  - by repeat constructor.
  - case_decide; constructor; done.
Qed.

Lemma names_map_set k v m :
  names (map_set k v m) = if decide (k ∈ names m) then names m else names m ++ [k].
Proof.
  unfold names. induction m as [|[k' v'] m IH].
  - cbn [map_set List.map fst app]. destruct (decide (k ∈ [])) as [Hin|]; [|done].
    by apply elem_of_nil in Hin.
  - cbn [map_set]. destruct (decide (k' = k)) as [->|Hne]; cbn [List.map fst].
    + destruct (decide (k ∈ k :: List.map fst m)) as [|Hout]; [done|].
      exfalso. apply Hout. by left.
    + rewrite IH. destruct (decide (k ∈ List.map fst m)) as [Hin|Hout].
      * destruct (decide (k ∈ k' :: List.map fst m)) as [|Hout]; [done|].
        exfalso. apply Hout. by right.
      * destruct (decide (k ∈ k' :: List.map fst m)) as [Hin|]; [|done].
        apply elem_of_cons in Hin as [?|?]; [congruence|done].
Qed.

Lemma map_set_NoDup k v m : NoDup (names m) -> NoDup (names (map_set k v m)).
Proof.
  intros H. rewrite names_map_set. case_decide; [done|].
  apply NoDup_app. repeat split; [done| |apply NoDup_singleton].
  intros x Hx ->%list_elem_of_singleton. done.
Qed.

Lemma map_set_fresh k v m : k ∉ names m -> map_set k v m = m ++ [(k, v)].
Proof.
  unfold names. induction m as [|[k' v'] m IH]; simpl; [done|].
  intros Hout. rewrite decide_False.
  - rewrite IH; [done|]. intros ?. apply Hout. by right.
  - intros ->. apply Hout. by left.
Qed.

Lemma map_get_set n k v m :
  map_get n (map_set k v m) = if decide (k = n) then Some v else map_get n m.
Proof.
  induction m as [|[k' v'] m IH]; simpl; [done|].
  destruct (decide (k' = k)) as [->|Hne]; simpl.
  - by destruct (decide (k = n)).
  - destruct (decide (k' = n)) as [->|]; [by rewrite decide_False|done].
Qed.

Lemma parseFragment_entries m f :
  sepFree f = true ->
  Forall cleanEntry m /\ NoDup (names m) ->
  Forall cleanEntry (parseFragment m f) /\ NoDup (names (parseFragment m f)).
Proof.
  intros Hf [Hm Hn]. unfold parseFragment.
  destruct (negb (truthy (trim f))); [done|].
  match goal with |- context [if ?i <=? 0 then m else _] =>
    destruct (i <=? 0); [done|] end.
  match goal with |- context [if ?b then _ else m] =>
    destruct b eqn:Hb; [|done] end.
  apply andb_true_iff in Hb as [Hk Hv]. split; [|by apply map_set_NoDup].
  apply map_set_Forall; [|done]. split; simpl.
  - repeat split; [done|apply trim_idemp|].
    apply sepFree_trim. unfold slice. by apply sepFree_firstn, sepFree_skipn, sepFree_trim.
  - repeat split; [done|apply trim_idemp|].
    apply sepFree_trim. unfold sliceFrom. by apply sepFree_skipn, sepFree_trim.
Qed.

Lemma fold_parseFragment_entries (l : list jsstring) m :
  Forall (fun f => sepFree f = true) l ->
  Forall cleanEntry m /\ NoDup (names m) ->
  Forall cleanEntry (fold_left parseFragment l m)
  /\ NoDup (names (fold_left parseFragment l m)).
Proof.
  intros Hl. revert m. induction Hl as [|f l Hf _ IH]; simpl; [done|].
  intros m Hm. by apply IH, parseFragment_entries.
Qed.

(** X2: whatever string is parsed, every name and every value that
    [parseCookieString] stores is non-empty, trimmed and free of [;] and
    line feeds, and no name is stored twice. *)
Theorem parseCookieString_entries s :
  Forall cleanEntry (parseCookieString s) /\ NoDup (names (parseCookieString s)).
Proof.
  apply fold_parseFragment_entries; [apply split_sepFree|].
  split; [constructor|apply NoDup_nil_2].
Qed.

End CookieFacts.

Section HeaderRoundTrip.

Implicit Types (s t f r k v : jsstring) (m : cookie_map).

Lemma indexOf_app_fresh c k v :
  includesChar c k = false -> indexOf c (k ++ c :: v) = Z.of_nat (length k).
Proof.
  unfold includesChar. induction k as [|d k IH]; simpl.
  - by rewrite N.eqb_refl.
  - intros [Hd Hk]%orb_false_iff. rewrite N.eqb_sym, Hd, (IH Hk).
    destruct (Z.ltb_spec (Z.of_nat (length k)) 0); lia.
Qed.

Lemma trim_ws_prefix pre s : forallb isWhiteSpace pre = true -> trim (pre ++ s) = trim s.
Proof.
  induction pre as [|c pre IH]; simpl; [done|].
  intros [Hc Hp]%andb_true_iff. by rewrite trim_cons_ws, IH.
Qed.

Lemma cleanPart_head k : cleanPart k -> exists c k', k = c :: k' /\ isWhiteSpace c = false.
Proof.
  intros (Ht & Hk & _). destruct k as [|c k']; [done|]. exists c, k'. split; [done|].
  pose proof (trim_trimmedShape (c :: k')) as [H _]. rewrite Hk in H.
  by eapply dropWhile_head.
Qed.

Lemma cleanPart_last v : cleanPart v -> exists c v', rev v = c :: v' /\ isWhiteSpace c = false.
Proof.
  intros (Ht & Hv & _). pose proof (trim_trimmedShape v) as [_ H]. rewrite Hv in H.
  destruct (rev v) as [|c v'] eqn:E.
  - apply (f_equal (@rev N)) in E. rewrite rev_involutive in E. by subst.
  - exists c, v'. split; [done|]. by eapply dropWhile_head.
Qed.

Lemma trim_rendered k v :
  cleanPart k -> cleanPart v -> trim (renderCookie (k, v)) = renderCookie (k, v).
Proof.
  intros Hk Hv. apply trimmedShape_trim_id. unfold renderCookie. cbn [fst snd].
  destruct (cleanPart_head k Hk) as (c & k' & -> & Hc).
  destruct (cleanPart_last v Hv) as (d & v' & Ev & Hd).
  split.
  - cbn [app]. by apply dropWhile_fix.
  - rewrite !rev_app_distr, Ev. cbn [app]. by apply dropWhile_fix.
Qed.

(** A rendered pair parses back to the pair. *)
Lemma parseFragment_rendered m pre k v :
  forallb isWhiteSpace pre = true ->
  cleanPart k -> cleanPart v -> includesChar (ch "=") k = false ->
  parseFragment m (pre ++ renderCookie (k, v)) = map_set k v m.
Proof.
  intros Hpre Hk Hv Hplain. unfold parseFragment.
  rewrite trim_ws_prefix, trim_rendered by done.
  unfold renderCookie. cbn [fst snd].
  destruct (cleanPart_head k Hk) as (c & k' & Ek & Hc).
  change (lit "=" ++ v) with (ch "=" :: v).
  rewrite indexOf_app_fresh by done.
  assert (Hlen : 0 < Z.of_nat (length k)) by (subst k; simpl; lia).
  replace (truthy (k ++ ch "=" :: v)) with true by by subst k.
  cbn [negb].
  destruct (Z.leb_spec (Z.of_nat (length k)) 0) as [|_]; [lia|].
  destruct (Z.leb_spec (Z.of_nat (length k)) 0) as [|_]; [lia|].
  unfold slice, sliceFrom.
  replace (Z.to_nat (Z.of_nat (length k)) - Z.to_nat 0)%nat with (length k) by lia.
  replace (Z.to_nat (Z.of_nat (length k) + 1)) with (S (length k)) by lia.
  change (Z.to_nat 0) with 0%nat. rewrite drop_0, take_app_length.
  replace (S (length k)) with (length k + 1)%nat by lia.
  rewrite drop_app_add. change (drop 1 (ch "=" :: v)) with v.
  destruct Hk as (Hk1 & Hk2 & _), Hv as (Hv1 & Hv2 & _).
  by rewrite Hk2, Hv2, Hk1, Hv1.
Qed.

Lemma split_one f : sepFree f = true -> splitFragments f = [f].
Proof.
  unfold sepFree. induction f as [|c f IH]; simpl; [done|].
  intros [Hc Hf]%andb_true_iff. apply negb_true_iff in Hc. by rewrite Hc, IH.
Qed.

(** A separator after a fragment that holds none closes the fragment. *)
Lemma split_after_fragment f c r :
  sepFree f = true -> isFragmentSep c = true ->
  match r with d :: _ => isFragmentSep d = false | [] => True end ->
  splitFragments (f ++ c :: r) = f :: splitFragments r.
Proof.
  unfold sepFree. intros Hf Hc Hr. induction f as [|d f IH].
  - cbn [app splitFragments]. rewrite Hc. destruct r as [|d r]; [done|]. by rewrite Hr.
  - simpl in Hf. apply andb_true_iff in Hf as [Hd Hf]. apply negb_true_iff in Hd.
    cbn [app splitFragments]. by rewrite Hd, (IH Hf).
Qed.

Lemma sepFree_rendered k v : cleanPart k -> cleanPart v -> sepFree (renderCookie (k, v)) = true.
Proof.
  intros (_ & _ & Hk) (_ & _ & Hv). unfold renderCookie, sepFree in *. cbn [fst snd].
  by rewrite !forallb_app, Hk, Hv.
Qed.

Lemma join_cons2 (sep a b : jsstring) (l : list jsstring) :
  join sep (a :: b :: l) = a ++ sep ++ join sep (b :: l).
Proof. reflexivity. Qed.

(** The fragments of a rendered cookie map. *)
Lemma split_rendered e (es : cookie_map) :
  Forall cleanEntry (e :: es) ->
  splitFragments (renderCookies (e :: es)) =
  renderCookie e :: List.map (fun e' => 32%N :: renderCookie e') es.
Proof.
  revert e. induction es as [|e' es IH]; intros [k v] Hall.
  - inversion Hall as [|? ? [Hk Hv] _]; subst. unfold renderCookies. cbn [List.map join].
    by apply split_one, sepFree_rendered.
  - inversion Hall as [|? ? [Hk Hv] Hrest]; subst.
    specialize (IH e' Hrest). unfold renderCookies in *. cbn [List.map] in *.
    rewrite join_cons2.
    set (rest := join (lit "; ") (renderCookie e' :: List.map renderCookie es)) in *.
    change (lit "; " ++ rest) with (ch ";" :: 32%N :: rest).
    rewrite split_after_fragment; [|by apply sepFree_rendered|done|done].
    cbn [splitFragments]. change (isFragmentSep 32) with false. cbn iota.
    by rewrite IH.
Qed.

Lemma fold_rendered (es : cookie_map) (pre : jsstring) m :
  forallb isWhiteSpace pre = true ->
  Forall cleanEntry es -> plainNames es = true ->
  NoDup (names m ++ names es) ->
  fold_left parseFragment (List.map (fun e => pre ++ renderCookie e) es) m = m ++ es.
Proof.
  intros Hpre Hall. revert m. induction Hall as [|[k v] es [Hk Hv] _ IH]; intros m Hplain Hnd.
  - by rewrite app_nil_r.
  - cbn [plainNames forallb fst] in Hplain. apply andb_true_iff in Hplain as [Hkp Hplain].
    apply negb_true_iff in Hkp. cbn [List.map fold_left].
    rewrite parseFragment_rendered by done.
    cbn [names List.map fst] in Hnd.
    assert (Hfresh : k ∉ names m).
    { apply NoDup_app in Hnd as (_ & Hdisj & _). intros Hin. apply (Hdisj k Hin). by left. }
    rewrite map_set_fresh by done. rewrite IH; [by rewrite <- app_assoc|done|].
    unfold names in *. rewrite List.map_app. cbn [List.map fst].
    by rewrite <- app_assoc.
Qed.

Lemma render_parse (es : cookie_map) :
  Forall cleanEntry es -> NoDup (names es) -> plainNames es = true ->
  parseCookieString (renderCookies es) = es.
Proof.
  intros Hall Hnd Hplain. destruct es as [|[k v] es]; [done|].
  unfold parseCookieString. rewrite split_rendered by done.
  cbn [fold_left]. inversion Hall as [|? ? [Hk Hv] Hrest]; subst.
  cbn [plainNames forallb fst] in Hplain. apply andb_true_iff in Hplain as [Hkp Hplain].
  apply negb_true_iff in Hkp.
  rewrite <- (app_nil_l (renderCookie (k, v))).
  rewrite parseFragment_rendered by done. cbn [map_set].
  change (fun e' => 32%N :: renderCookie e') with (fun e' => [32%N] ++ renderCookie e').
  by rewrite fold_rendered.
Qed.

(** X3: the header built from the cookies of a parsed string parses back to
    the same cookies, names, values and order, provided no name holds [=]. *)
Theorem cookie_header_round_trip s :
  plainNames (parseCookieString s) = true ->
  parseCookieString (renderCookies (parseCookieString s)) = parseCookieString s.
Proof.
  intros Hplain.
  destruct (fold_parseFragment_entries (splitFragments s) []) as [Hall Hnd].
  - apply split_sepFree.
  - split; [constructor|apply NoDup_nil_2].
  - by apply render_parse.
Qed.

End HeaderRoundTrip.

Lemma cookie_header_round_trip_witness :
  plainNames (parseCookieString (lit "sid_tt = abc ;sessionid=d=e; x:1")) = true /\
  parseCookieString
    (renderCookies (parseCookieString (lit "sid_tt = abc ;sessionid=d=e; x:1")))
  = parseCookieString (lit "sid_tt = abc ;sessionid=d=e; x:1").
Proof.
  split; [reflexivity|].
  apply (cookie_header_round_trip (lit "sid_tt = abc ;sessionid=d=e; x:1")).
  reflexivity.
Defined.

(** A name that begins with [=], as [name:value] fragments can give, is
    lost when the rebuilt header is parsed again. *)
Example cookie_header_round_trip_needs_plain_names :
  parseCookieString (lit "=a:b") = [(lit "=a", lit "b")] /\
  parseCookieString (renderCookies (parseCookieString (lit "=a:b"))) = [].
Proof. split; reflexivity. Qed.

Section ParserComposition.

Implicit Types (s t f r k v cur : jsstring) (m : cookie_map).

Lemma split_sep_sep c d s :
  isFragmentSep c = true -> isFragmentSep d = true ->
  splitFragments (c :: d :: s) = splitFragments (d :: s).
Proof. intros Hc Hd. cbn [splitFragments]. by rewrite Hc, Hd. Qed.

Lemma split_sep_other c d s :
  isFragmentSep c = true -> isFragmentSep d = false ->
  splitFragments (c :: d :: s) = [] :: splitFragments (d :: s).
Proof. intros Hc Hd. cbn [splitFragments]. by rewrite Hc, Hd. Qed.

Lemma split_sep_head c s :
  isFragmentSep c = true -> exists ts, splitFragments (c :: s) = [] :: ts /\
    forall m, fold_left parseFragment ts m = fold_left parseFragment (splitFragments s) m.
Proof.
  revert c. induction s as [|d s IH]; intros c Hc.
  - exists [[]]. split; [|done]. cbn. by rewrite Hc.
  - destruct (isFragmentSep d) eqn:Hd.
    + destruct (IH d Hd) as (ts & E & Hts). exists ts. split.
      * by rewrite split_sep_sep.
      * intros m. rewrite E. cbn [fold_left]. by rewrite parseFragment_blank.
    + exists (splitFragments (d :: s)). split; [|done]. by apply split_sep_other.
Qed.

(** Reading the fragments of [s] one after the other is one pass over [s]. *)
Lemma fold_split_parseFrom cur s m :
  fold_left parseFragment (extendFirst cur (splitFragments s)) m = parseFrom cur s m.
Proof.
  revert cur m. induction s as [|c s IH]; intros cur m.
  - cbn. by rewrite app_nil_r.
  - cbn [parseFrom]. destruct (isFragmentSep c) eqn:Hc.
    + destruct (split_sep_head c s Hc) as (ts & -> & Hts).
      cbn [extendFirst fold_left]. rewrite app_nil_r, Hts, <- IH.
      destruct (splitFragments s) as [|t ts'] eqn:E; [by apply split_nonempty in E|].
      done.
    + cbn [splitFragments]. rewrite Hc, <- IH.
      destruct (splitFragments s) as [|t ts'] eqn:E; [by apply split_nonempty in E|].
      cbn [extendFirst]. by rewrite <- app_assoc.
Qed.

Lemma parseCookieString_parseFrom s m :
  fold_left parseFragment (splitFragments s) m = parseFrom [] s m.
Proof.
  rewrite <- fold_split_parseFrom.
  destruct (splitFragments s) as [|t ts] eqn:E; [by apply split_nonempty in E|done].
Qed.

Lemma parseFrom_app_sep cur s c r m :
  isFragmentSep c = true ->
  parseFrom cur (s ++ c :: r) m = parseFrom [] r (parseFrom cur s m).
Proof.
  intros Hc. revert cur m. induction s as [|d s IH]; intros cur m; cbn [app parseFrom].
  - by rewrite Hc.
  - destruct (isFragmentSep d); apply IH.
Qed.

Lemma parse_app_sep s c r :
  isFragmentSep c = true ->
  parseCookieString (s ++ c :: r) =
  fold_left parseFragment (splitFragments r) (parseCookieString s).
Proof.
  intros Hc. unfold parseCookieString.
  by rewrite !parseCookieString_parseFrom, parseFrom_app_sep.
Qed.

(** X4: parsing is incremental.  Text added after a [;] or a line feed is
    parsed on top of the cookies of the text before it: its fragments are
    read one by one into the map already built. *)
Theorem parseCookieString_incremental s r :
  parseCookieString (s ++ lit ";" ++ r) =
    fold_left parseFragment (splitFragments r) (parseCookieString s) /\
  parseCookieString (s ++ [10%N] ++ r) =
    fold_left parseFragment (splitFragments r) (parseCookieString s).
Proof. split; by apply parse_app_sep. Qed.

(** X5: the last cookie of a name wins.  A pair [name=value] added at the
    end of a cookie string sets the value of [name], in the place of an
    earlier cookie of that name when there is one, and leaves every other
    cookie as it was. *)
Theorem parseCookieString_last_wins s k v :
  cleanPart k -> cleanPart v -> includesChar (ch "=") k = false ->
  parseCookieString (s ++ lit "; " ++ renderCookie (k, v)) =
    map_set k v (parseCookieString s) /\
  forall n, map_get n (parseCookieString (s ++ lit "; " ++ renderCookie (k, v))) =
            if decide (k = n) then Some v else map_get n (parseCookieString s).
Proof.
  intros Hk Hv Hplain.
  assert (E : parseCookieString (s ++ lit "; " ++ renderCookie (k, v)) =
              map_set k v (parseCookieString s)).
  { change (lit "; " ++ renderCookie (k, v))
      with (ch ";" :: ([32%N] ++ renderCookie (k, v))).
    rewrite parse_app_sep by done.
    rewrite split_one.
    - cbn [fold_left]. by apply parseFragment_rendered.
    - unfold sepFree. rewrite forallb_app. apply andb_true_iff. split; [done|].
      by apply sepFree_rendered. }
  split; [exact E|]. intros n. rewrite E. apply map_get_set.
Qed.

End ParserComposition.

Lemma parseCookieString_last_wins_witness :
  parseCookieString (lit "sessionid=old; x=1" ++ lit "; " ++ renderCookie (lit "sessionid", lit "new"))
  = [(lit "sessionid", lit "new"); (lit "x", lit "1")].
Proof.
  rewrite (proj1 (parseCookieString_last_wins (lit "sessionid=old; x=1")
                    (lit "sessionid") (lit "new")
                    ltac:(repeat split; reflexivity) ltac:(repeat split; reflexivity)
                    eq_refl)).
  reflexivity.
Defined.


Section BrowserCookieFacts.

Implicit Types (s t f r k v : jsstring) (m : cookie_map).

Lemma indexOf_absent c s : includesChar c s = false -> indexOf c s = -1.
Proof.
  unfold includesChar. induction s as [|d s IH]; simpl; [done|].
  intros [Hd Hs]%orb_false_iff. rewrite N.eqb_sym, Hd, (IH Hs). done.
Qed.

(** Where [=] is found past the first place, or no [:] is, the two loop
    bodies do the same. *)
Lemma parseHeaderFragment_agrees m f :
  0 < indexOf (ch "=") (trim f) \/ includesChar (ch ":") (trim f) = false ->
  parseHeaderFragment m f = parseFragment m f.
Proof.
  intros H. unfold parseHeaderFragment, parseFragment.
  destruct (negb (truthy (trim f))); [done|].
  cbv zeta. destruct (indexOf (ch "=") (trim f) <=? 0) eqn:E.
  - destruct H as [H|H]; [apply Z.leb_le in E; lia|].
    rewrite (indexOf_absent _ _ H). reflexivity.
  - by rewrite E.
Qed.

Lemma fold_header_agrees (l : list jsstring) m :
  Forall (fun f => 0 < indexOf (ch "=") (trim f)
                   \/ includesChar (ch ":") (trim f) = false) l ->
  fold_left parseHeaderFragment l m = fold_left parseFragment l m.
Proof.
  intros Hl. revert m. induction Hl as [|f l Hf _ IH]; intros m; simpl; [done|].
  by rewrite parseHeaderFragment_agrees, IH.
Qed.

Lemma trim_nil_ws s : trim s = [] -> forallb isWhiteSpace s = true.
Proof.
  unfold trim, trimEnd, trimStart. intros H.
  apply (f_equal (@rev N)) in H. rewrite rev_involutive in H. cbn in H.
  destruct (dropWhile_suffix isWhiteSpace (rev (dropWhile isWhiteSpace s)))
    as (pre & Hpre & Hall).
  rewrite H, app_nil_r in Hpre.
  assert (Hd : forallb isWhiteSpace (dropWhile isWhiteSpace s) = true).
  { rewrite <- forallb_rev, Hpre. done. }
  destruct (dropWhile isWhiteSpace s) as [|c s'] eqn:E.
  - destruct (dropWhile_suffix isWhiteSpace s) as (pre' & Hs & Hall').
    rewrite E, app_nil_r in Hs. by rewrite Hs.
  - apply dropWhile_head in E. simpl in Hd. by rewrite E in Hd.
Qed.

Lemma parseHeaderFragment_blank m f : trim f = [] -> parseHeaderFragment m f = m.
Proof. intros H. unfold parseHeaderFragment. by rewrite H. Qed.

(** The early return of [parseCookieHeader] changes nothing: a blank header
    has only blank fragments. *)
Lemma parseCookieHeader_fold s :
  parseCookieHeader s = fold_left parseHeaderFragment (splitFragments s) [].
Proof.
  unfold parseCookieHeader. destruct (truthy (trim s)) eqn:E; [done|].
  apply truthy_false, trim_nil_ws, split_blank in E. cbn [negb].
  generalize (@nil (jsstring * jsstring)).
  induction E as [|f l Hf _ IH]; intros m; simpl; [done|].
  by rewrite parseHeaderFragment_blank, <- IH by by apply trim_all_ws.
Qed.

Lemma includesChar_split c s :
  includesChar c s = false ->
  Forall (fun f => includesChar c f = false) (splitFragments s).
Proof.
  unfold includesChar. induction s as [|d s IH]; simpl; [by repeat constructor|].
  intros [Hd Hs]%orb_false_iff. specialize (IH Hs).
  destruct (isFragmentSep d).
  - destruct s as [|d' s']; [by repeat constructor|].
    destruct (isFragmentSep d'); [done|by constructor].
  - destruct (splitFragments s) as [|t ts].
    + repeat constructor. simpl. by rewrite Hd.
    + inversion IH; subst. constructor; [|done]. simpl. by rewrite Hd.
Qed.

(** X6: on a header without [:] the browser service's [parseCookieHeader]
    reads the same cookies, in the same order, as the server's
    [parseCookieString]. *)
Theorem parseCookieHeader_agrees s :
  includesChar (ch ":") s = false ->
  parseCookieHeader s = parseCookieString s.
Proof.
  intros H. rewrite parseCookieHeader_fold. unfold parseCookieString.
  apply fold_header_agrees.
  eapply Forall_impl; [by apply includesChar_split|].
  intros f Hf. right. by rewrite includesChar_trim.
Qed.

End BrowserCookieFacts.

Lemma parseCookieHeader_agrees_witness :
  includesChar (ch ":") (lit "sid_tt=abc; sessionid = def") = false /\
  parseCookieHeader (lit "sid_tt=abc; sessionid = def")
  = parseCookieString (lit "sid_tt=abc; sessionid = def").
Proof.
  split; [reflexivity|].
  apply (parseCookieHeader_agrees (lit "sid_tt=abc; sessionid = def")). reflexivity.
Defined.

(** With a colon the two differ: the server reads [name:value], the browser
    service does not. *)
Example parseCookieHeader_skips_colon_pairs :
  parseCookieString (lit "sessionid:abc") = [(lit "sessionid", lit "abc")] /\
  parseCookieHeader (lit "sessionid:abc") = [].
Proof. split; reflexivity. Qed.

Section AuthContextFacts.

Implicit Types (s t f r k v : jsstring) (m : cookie_map).

Lemma fold_header_rendered (es : cookie_map) (pre : jsstring) m :
  forallb isWhiteSpace pre = true ->
  Forall cleanEntry es -> plainNames es = true ->
  fold_left parseHeaderFragment (List.map (fun e => pre ++ renderCookie e) es) m =
  fold_left parseFragment (List.map (fun e => pre ++ renderCookie e) es) m.
Proof.
  intros Hpre Hall Hplain. apply fold_header_agrees.
  induction Hall as [|[k v] es [Hk Hv] _ IH]; cbn [List.map]; constructor.
  - left. cbn [plainNames forallb fst] in Hplain.
    apply andb_true_iff in Hplain as [Hp _]. apply negb_true_iff in Hp.
    rewrite trim_ws_prefix, trim_rendered by done.
    unfold renderCookie. cbn [fst snd] in *. change (lit "=" ++ v) with (ch "=" :: v).
    rewrite indexOf_app_fresh by done.
    destruct (cleanPart_head k Hk) as (c & k' & -> & _). simpl. lia.
  - apply IH. cbn [plainNames forallb] in Hplain.
    by apply andb_true_iff in Hplain as [_ ?].
Qed.

Lemma render_parse_header (es : cookie_map) :
  Forall cleanEntry es -> NoDup (names es) -> plainNames es = true ->
  parseCookieHeader (renderCookies es) = es.
Proof.
  intros Hall Hnd Hplain. rewrite <- (render_parse es) at 2 by done.
  rewrite parseCookieHeader_fold. unfold parseCookieString.
  destruct es as [|e es]; [done|]. rewrite split_rendered by done.
  change (renderCookie e :: List.map (fun e' => 32%N :: renderCookie e') es)
    with (List.map (fun e' => [] ++ renderCookie e') [e]
          ++ List.map (fun e' => [32%N] ++ renderCookie e') es).
  rewrite !fold_left_app. inversion Hall; subst.
  cbn [plainNames forallb] in Hplain. apply andb_true_iff in Hplain as [Hp1 Hp2].
  rewrite (fold_header_rendered [e] []); [|done|by constructor|].
  - by rewrite fold_header_rendered.
  - cbn [plainNames forallb]. by rewrite Hp1.
Qed.

(** X7: when the session field of a request yields a session id, the
    context hands that id on together with a cookie header that the HTTP
    client's parser and the browser service's parser both read back as the
    cookies of the request, provided no cookie name holds [=]. *)
Theorem resolveAuthContext_keeps_request_cookies env pk s :
  truthy (normalizeSessionInput pk (RawString s)) = true ->
  plainNames (parseCookieString s) = true ->
  sessionId (resolveAuthContext env pk (Some s)) = normalizeSessionInput pk (RawString s) /\
  parseCookieString (cookieHeader (resolveAuthContext env pk (Some s)))
    = parseCookieString s /\
  parseCookieHeader (cookieHeader (resolveAuthContext env pk (Some s)))
    = parseCookieString s.
Proof.
  intros Hid Hplain. unfold resolveAuthContext. cbn [formField default]. unfold Datatypes.id.
  rewrite Hid. cbn [sessionId cookieHeader]. split; [done|].
  destruct (fold_parseFragment_entries (splitFragments s) []) as [Hall Hnd].
  { apply split_sepFree. }
  { split; [constructor|apply NoDup_nil_2]. }
  fold (parseCookieString s) in Hall, Hnd.
  destruct (parseCookieString s) as [|e es] eqn:E; [done|].
  split; [by apply render_parse|by apply render_parse_header].
Qed.

(** When it yields none, the cookies of the request are dropped and the
    session id comes from the environment. *)
Lemma resolveAuthContext_fallback env pk (req : option jsstring) :
  truthy (normalizeSessionInput pk (formField req)) = false ->
  cookieHeader (resolveAuthContext env pk req) = [] /\
  sessionId (resolveAuthContext env pk req) = sessionId (resolveAuthContext env pk None).
Proof.
  intros H. unfold resolveAuthContext. rewrite H. cbn [formField normalizeSessionInput truthy].
  by destruct pk.
Qed.

End AuthContextFacts.

Lemma resolveAuthContext_keeps_request_cookies_witness :
  sessionId (resolveAuthContext
               {| DEFAULT_SESSION_ID := []; DEFAULT_XYQ_SESSION_ID := [] |} jimeng
               (Some (lit " sid_guard=g:1 ; sessionid=abc")))
  = lit "abc".
Proof.
  rewrite (proj1 (resolveAuthContext_keeps_request_cookies
            {| DEFAULT_SESSION_ID := []; DEFAULT_XYQ_SESSION_ID := [] |} jimeng
            (lit " sid_guard=g:1 ; sessionid=abc") eq_refl eq_refl)).
  reflexivity.
Defined.

Section GenerateCookieFacts.

Implicit Types (s t n k v : jsstring) (m ds : cookie_map).

Lemma addMissing_get n ds m :
  map_get n (fold_left addMissing ds m) =
  match map_get n m with
  | Some v => Some v
  | None => map_get n ds
  end.
Proof.
  revert m. induction ds as [|[k v] ds IH]; intros m; cbn [fold_left].
  - by destruct (map_get n m).
  - rewrite IH. unfold addMissing. cbn [fst snd map_get].
    destruct (map_get k m) as [x|] eqn:Ek.
    + destruct (map_get n m) eqn:En; [done|].
      destruct (decide (k = n)) as [->|]; [congruence|done].
    + rewrite map_get_set. destruct (decide (k = n)) as [->|]; [by rewrite Ek|done].
Qed.

Lemma addMissing_NoDup ds m :
  NoDup (names m) -> NoDup (names (fold_left addMissing ds m)).
Proof.
  revert m. induction ds as [|[k v] ds IH]; intros m Hm; cbn [fold_left]; [done|].
  apply IH. unfold addMissing. destruct (map_get _ m); [done|by apply map_set_NoDup].
Qed.

Lemma addMissing_prefix ds m : exists added, fold_left addMissing ds m = m ++ added.
Proof.
  revert m. induction ds as [|[k v] ds IH]; intros m; cbn [fold_left].
  - exists []. by rewrite app_nil_r.
  - unfold addMissing at 2. cbn [fst snd]. destruct (map_get k m) eqn:Ek; [apply IH|].
    assert (Hfresh : k ∉ names m).
    { clear IH. unfold names. induction m as [|[k' v'] m IHm]; [by intros ?%elem_of_nil|].
      cbn [map_get] in Ek. destruct (decide (k' = k)); [done|].
      cbn [List.map fst]. intros [?|?]%elem_of_cons; [congruence|]. by apply IHm. }
    rewrite map_set_fresh by done. destruct (IH (m ++ [(k, v)])) as [added ->].
    exists ((k, v) :: added). by rewrite <- app_assoc.
Qed.

Lemma defaultCookies_NoDup webId sid pk : NoDup (names (defaultCookies webId sid pk)).
Proof.
  destruct pk; cbn [defaultCookies names List.map fst];
    apply (bool_decide_unpack _); vm_compute; reflexivity.
Qed.

Lemma generateCookie_cookieJar webId sid pk raw :
  generateCookie webId sid pk raw = renderCookies (cookieJar webId sid pk raw).
Proof.
  unfold generateCookie, cookieJar. destruct raw as [|c raw]; [done|].
  cbn [truthy]. by destruct (parseCookieString (c :: raw)).
Qed.

(** X8: [generateCookie] sends the caller's cookies first and as they were
    given, and fills in each default cookie whose name the caller did not
    give.  So for every name the caller's value wins over the default, and no
    name is sent twice. *)
Theorem generateCookie_merges webId sid pk raw :
  generateCookie webId sid pk raw = renderCookies (cookieJar webId sid pk raw) /\
  NoDup (names (cookieJar webId sid pk raw)) /\
  (exists added, cookieJar webId sid pk raw = parseCookieString raw ++ added) /\
  forall n, map_get n (cookieJar webId sid pk raw) =
            match map_get n (parseCookieString raw) with
            | Some v => Some v
            | None => map_get n (defaultCookies webId sid pk)
            end.
Proof.
  split; [apply generateCookie_cookieJar|]. unfold cookieJar.
  destruct (fold_parseFragment_entries (splitFragments raw) []) as [_ Hnd].
  { apply split_sepFree. }
  { split; [constructor|apply NoDup_nil_2]. }
  fold (parseCookieString raw) in Hnd.
  destruct (parseCookieString raw) as [|e es] eqn:E.
  - split; [apply defaultCookies_NoDup|]. split; [by eexists|done].
  - split; [by apply addMissing_NoDup|]. split; [apply addMissing_prefix|].
    intros n. apply addMissing_get.
Qed.

End GenerateCookieFacts.

End Cookies.


(** ** The platform request client *)

Import Client ClientExamples.

Section ClientFacts.

Context {json : Type}.
Implicit Types (network : Z -> fetch_outcome json) (pk : platform_key).

Lemma lit_inj (a b : string) : lit a = lit b -> a = b.
Proof.
  unfold lit. intros H.
  rewrite <- (string_of_list_ascii_of_string a), <- (string_of_list_ascii_of_string b).
  f_equal. revert H. generalize (list_ascii_of_string a) (list_ascii_of_string b).
  induction l as [|x l IH]; intros [|y l']; simpl; try done.
  intros [= Hxy Hl]. f_equal; [|by apply IH].
  by rewrite <- (ascii_N_embedding x), <- (ascii_N_embedding y), Hxy.
Qed.

Lemma String_ret_integer z (n : Z) :
  String_ret (RetInteger z) = lit (pretty n) <-> z = n.
Proof.
  simpl. split; [|by intros ->].
  intros H%lit_inj. by apply (inj pretty) in H.
Qed.

(** X9: a finite non-zero status other than 5000 ends the call at once,
    after one fetch and without a sleep, with an error that carries
    [isApiError]. *)
Lemma business_error_terminal pk network r d z :
  network 0 = FetchResolves r ->
  parsed r = ParsedValue d ->
  ret d = RetInteger z ->
  z <> 0 -> z <> 5000 ->
  exists e, platformRequest pk network = ([HttpFetch], Some (Throws e))
            /\ isApiError e = true.
Proof.
  intros Hn Hp Hr Hz0 Hz5.
  unfold platformRequest. cbn [attemptsFrom Z.ltb Z.compare app].
  rewrite Hn. cbn [attemptOnce]. unfold classifyResponse. rewrite Hp, Hr.
  cbn [isFiniteNumber].
  destruct (decide (String_ret (RetInteger z) = lit "0")) as [E|_].
  { apply (String_ret_integer z 0) in E. done. }
  destruct (bool_decide _ && _); [by eexists|].
  rewrite bool_decide_eq_false_2; [by eexists|].
  intros E. apply (String_ret_integer z 5000) in E. done.
Qed.

(** C1 fails on status 5000: the error thrown for it lacks [isApiError], so
    the [catch] treats it as a transport failure.  With the vendor answering
    5000 every time the client sleeps and fetches again three times before
    the balance error reaches the caller. *)
Theorem platformRequest_retries_insufficient_balance pk (payload : json) :
  platformRequest pk (fun _ => FetchResolves (insufficientBalanceResponse payload))
  = ([HttpFetch; Sleep 1000; HttpFetch; Sleep 2000; HttpFetch; Sleep 3000;
      HttpFetch],
     Some (Throws InsufficientBalanceError)).
Proof. reflexivity. Qed.

Lemma attemptsFrom_bounds pk network remaining attempt :
  0 <= attempt ->
  (fetchCount (attemptsFrom pk network remaining attempt).1 <= remaining)%nat /\
  Forall (backoffSleep attempt (attempt + Z.of_nat remaining))
         (sleeps (attemptsFrom pk network remaining attempt).1).
Proof.
  revert attempt. induction remaining as [|n IH]; intros attempt Ha.
  - simpl. split; [unfold fetchCount; simpl; lia|constructor].
  - cbn [attemptsFrom].
    set (backoff := if 0 <? attempt then [Sleep (1000 * attempt)] else []).
    assert (Hb : Forall (backoffSleep attempt (attempt + Z.of_nat (S n)))
                   (sleeps backoff) /\ fetchCount backoff = 0%nat).
    { subst backoff. destruct (Z.ltb_spec 0 attempt) as [E|E]; simpl.
      - split; [|done]. repeat constructor. exists attempt. lia.
      - split; [constructor|done]. }
    destruct Hb as [Hbs Hbc].
    assert (Happ : forall t1 t2, fetchCount (t1 ++ t2)
                                 = (fetchCount t1 + fetchCount t2)%nat).
    { intros. unfold fetchCount. by rewrite List.filter_app, length_app. }
    assert (Hsapp : forall t1 t2 : list event, sleeps (t1 ++ t2) = sleeps t1 ++ sleeps t2).
    { intros. unfold sleeps. apply omap_app. }
    assert (Hone : (fetchCount (backoff ++ [HttpFetch]) <= S n)%nat /\
              Forall (backoffSleep attempt (attempt + Z.of_nat (S n)))
                     (sleeps (backoff ++ [HttpFetch]))).
    { rewrite Happ, Hbc, Hsapp. simpl. rewrite app_nil_r.
      split; [unfold fetchCount; simpl; lia|done]. }
    destruct (attemptOnce pk (network attempt)) as [v|err]; [exact Hone|].
    destruct (isApiError err); [exact Hone|].
    destruct (attempt =? 3); [exact Hone|].
    specialize (IH (attempt + 1) ltac:(lia)).
    destruct (attemptsFrom pk network n (attempt + 1)) as [later res].
    destruct IH as [Hc Hs]. cbn [fst] in *.
    change (backoff ++ HttpFetch :: later) with (backoff ++ [HttpFetch] ++ later).
    rewrite !Happ, Hbc, !Hsapp. split.
    + unfold fetchCount at 1. simpl. lia.
    + apply Forall_app. split; [done|]. simpl.
      eapply Forall_impl; [exact Hs|]. intros ms (k & ? & ? & ? & ?).
      exists k. lia.
Qed.

(** C2: a call never issues more than four fetches, and it sleeps only
    1s, 2s, 3s; after three transport failures the fourth attempt is made
    after sleeps of 1s, 2s and 3s, a status-0 answer to it is returned as the
    payload's [data], and a transport failure of it reaches the caller. *)
Theorem platformRequest_transport_retry pk network m0 m1 m2 :
  network 0 = FetchRejects m0 ->
  network 1 = FetchRejects m1 ->
  network 2 = FetchRejects m2 ->
  (forall net : Z -> fetch_outcome json,
      (fetchCount (platformRequest pk net).1 <= 4)%nat /\
      Forall (fun ms => ms = 1000 \/ ms = 2000 \/ ms = 3000)
             (sleeps (platformRequest pk net).1)) /\
  (forall r d,
      network 3 = FetchResolves r -> parsed r = ParsedValue d ->
      ret d = RetInteger 0 ->
      platformRequest pk network
      = ([HttpFetch; Sleep 1000; HttpFetch; Sleep 2000; HttpFetch; Sleep 3000;
          HttpFetch], Some (Returns (data d)))) /\
  (forall m3,
      network 3 = FetchRejects m3 ->
      platformRequest pk network
      = ([HttpFetch; Sleep 1000; HttpFetch; Sleep 2000; HttpFetch; Sleep 3000;
          HttpFetch], Some (Throws (TransportError m3)))).
Proof.
  intros H0 H1 H2. split; [|split].
  - intros net. unfold platformRequest.
    pose proof (attemptsFrom_bounds pk net 4 0 ltac:(lia)) as [Hc Hs].
    split; [exact Hc|]. eapply Forall_impl; [exact Hs|].
    intros ms (k & ? & ? & ? & ->).
    assert (k = 1 \/ k = 2 \/ k = 3) as [->|[->| ->]] by lia; auto.
  - intros r d H3 Hp Hr. unfold platformRequest. cbn [attemptsFrom].
    change (0 + 1 + 1 + 1) with 3. change (0 + 1 + 1) with 2.
    change (0 + 1) with 1. rewrite H0, H1, H2, H3.
    unfold attemptOnce, classifyResponse. rewrite Hp, Hr. reflexivity.
  - intros m3 H3. unfold platformRequest. cbn [attemptsFrom].
    change (0 + 1 + 1 + 1) with 3. change (0 + 1 + 1) with 2.
    change (0 + 1) with 1. rewrite H0, H1, H2, H3. reflexivity.
Qed.

End ClientFacts.

Lemma platformRequest_transport_retry_witness :
  platformRequest jimeng threeTimeoutsThenOk
  = ([HttpFetch; Sleep 1000; HttpFetch; Sleep 2000; HttpFetch; Sleep 3000;
      HttpFetch], Some (Returns (lit "payload"))).
Proof.
  exact (proj1 (proj2 (platformRequest_transport_retry jimeng threeTimeoutsThenOk
            _ _ _ eq_refl eq_refl eq_refl))
          okResponse okBody eq_refl eq_refl eq_refl).
Defined.

(** *** The loop in closed form, previews *)

Section ClientWork.

Import ClientSpec.


Section ClientLoop.

Context {json : Type}.
Implicit Types (network : Z -> fetch_outcome json) (pk : platform_key).

(** X10: [platformRequest] always ends with a result, never by leaving
    its loop.  It fetches until the first attempt that returns or fails with
    an [isApiError] error, or else until the fourth attempt; it yields the
    outcome of that attempt, and before attempt [k] it has slept [1000 * k]
    ms. *)
Theorem platformRequest_closed_form pk network :
  platformRequest pk network =
  (traceUpTo (lastAttempt pk network),
   Some (attemptOnce pk (network (lastAttempt pk network)))).
Proof.
  unfold platformRequest, lastAttempt, retried. cbn [attemptsFrom].
  change (0 + 1 + 1 + 1) with 3. change (0 + 1 + 1) with 2. change (0 + 1) with 1.
  change (0 <? 0) with false. change (0 <? 1) with true. change (0 <? 2) with true.
  change (0 <? 3) with true. change (0 =? 3) with false. change (1 =? 3) with false.
  change (2 =? 3) with false. change (3 =? 3) with true.
  destruct (attemptOnce pk (network 0)) as [v0|e0] eqn:E0;
    [cbn [negb]; by rewrite E0|].
  destruct (isApiError e0); cbn [negb]; [by rewrite E0|].
  destruct (attemptOnce pk (network 1)) as [v1|e1] eqn:E1;
    [cbn [negb]; by rewrite E1|].
  destruct (isApiError e1); cbn [negb]; [by rewrite E1|].
  destruct (attemptOnce pk (network 2)) as [v2|e2] eqn:E2;
    [cbn [negb]; by rewrite E2|].
  destruct (isApiError e2); cbn [negb]; [by rewrite E2|].
  destruct (attemptOnce pk (network 3)) as [v3|e3] eqn:E3; [done|].
  by destruct (isApiError e3).
Qed.

(** X11: an answer that is not JSON ends the call after one fetch and
    without a sleep, with an [isApiError] error: when it looks like HTML the
    error names the platform's session cookie, otherwise it carries the HTTP
    status and a preview of the body. *)
Theorem platformRequest_non_json_terminal pk network r :
  network 0 = FetchResolves r ->
  parsed r = ParseThrows ->
  exists e,
    platformRequest pk network = ([HttpFetch], Some (Throws e)) /\
    isApiError e = true /\
    e = if looksLikeHtml (responseText r) (contentType r)
        then HtmlAuthError (highestPriorityKey pk)
        else NonJsonError (status r) (previewResponseBody (responseText r)).
Proof.
  intros Hn Hp. unfold platformRequest. cbn [attemptsFrom Z.ltb Z.compare app].
  rewrite Hn. cbn [attemptOnce]. unfold classifyResponse. rewrite Hp.
  destruct (looksLikeHtml _ _); eexists; (split; [reflexivity|]);
    (split; [reflexivity|]); by destruct pk.
Qed.

End ClientLoop.

Section ClientSampleRuns.

Import ClientSamples.

Lemma business_error_terminal_witness :
  exists e,
    platformRequest jimeng (fun _ => FetchResolves rejectedResponse)
    = ([HttpFetch], Some (Throws e)) /\ isApiError e = true.
Proof.
  apply (business_error_terminal jimeng (fun _ => FetchResolves rejectedResponse)
           rejectedResponse rejectedBody 1014); [reflexivity..|lia|lia].
Defined.

Lemma platformRequest_non_json_terminal_witness :
  exists e,
    platformRequest xyq (fun _ => FetchResolves loginPage)
    = ([HttpFetch], Some (Throws e)) /\
    isApiError e = true /\
    e = if looksLikeHtml (responseText loginPage) (contentType loginPage)
        then HtmlAuthError (highestPriorityKey xyq)
        else NonJsonError (status loginPage)
               (previewResponseBody (responseText loginPage)).
Proof.
  apply (platformRequest_non_json_terminal xyq (fun _ => FetchResolves loginPage)
           loginPage); reflexivity.
Defined.

End ClientSampleRuns.

Section Previews.

Implicit Types (s t : jsstring).

Lemma singleSpaced_tail c s : singleSpaced (c :: s) = true -> singleSpaced s = true.
Proof. cbn [singleSpaced]. by intros [_ ?]%andb_true_iff. Qed.

Lemma singleSpaced_dropWhile p s :
  singleSpaced s = true -> singleSpaced (dropWhile p s) = true.
Proof.
  induction s as [|c s IH]; [done|]. intros H. cbn [dropWhile].
  destruct (p c); [|done]. apply IH. by apply singleSpaced_tail in H.
Qed.

Lemma singleSpaced_firstn n s :
  singleSpaced s = true -> singleSpaced (firstn n s) = true.
Proof.
  revert n. induction s as [|c s IH]; intros [|n]; try done.
  cbn [firstn singleSpaced]. intros [Hc Hs]%andb_true_iff.
  apply andb_true_iff. split; [|by apply IH].
  destruct (negb (isWhiteSpace c)); [done|]. cbn [orb] in *.
  apply andb_true_iff in Hc as [Hc Hd]. rewrite Hc. cbn [andb].
  destruct s as [|d s], n as [|n]; done.
Qed.

Lemma singleSpaced_snoc_inv s c : singleSpaced (s ++ [c]) = true -> singleSpaced s = true.
Proof.
  intros H. rewrite <- (take_app_length s [c]). by apply singleSpaced_firstn.
Qed.

Lemma singleSpaced_trimEnd s : singleSpaced s = true -> singleSpaced (trimEnd s) = true.
Proof.
  intros H. destruct (trimEnd_decompose s) as (w & Hs & _).
  rewrite Hs in H. clear Hs. revert H. generalize (trimEnd s). intros t.
  induction w as [|c w IH] using rev_ind; [by rewrite app_nil_r|].
  rewrite app_assoc. intros H%singleSpaced_snoc_inv. by apply IH.
Qed.

Lemma collapse_singleSpaced s : singleSpaced (collapseWhiteSpace s) = true.
Proof.
  induction s as [|c s IH]; [done|]. cbn [collapseWhiteSpace].
  destruct (isWhiteSpace c) eqn:Hc.
  - destruct s as [|d s]; [done|]. destruct (isWhiteSpace d) eqn:Hd; [exact IH|].
    cbn [singleSpaced]. rewrite IH. cbn [collapseWhiteSpace] in *. rewrite Hd in *.
    cbn. by rewrite Hd.
  - cbn [singleSpaced]. by rewrite Hc, IH.
Qed.

(** X12: the preview of a response body is at most 120 code units long,
    does not begin with white space, and holds white space only as single
    spaces, whatever the body is.  The browser service's [previewBody] is the
    same function. *)
Theorem previewResponseBody_shape s :
  (length (previewResponseBody s) <= 120)%nat /\
  dropWhile isWhiteSpace (previewResponseBody s) = previewResponseBody s /\
  singleSpaced (previewResponseBody s) = true /\
  Pool.previewBody s = previewResponseBody s.
Proof.
  split; [|split; [|split; [|reflexivity]]]; revert s; intros s;
    unfold previewResponseBody, slice;
    change (Z.to_nat 120 - Z.to_nat 0)%nat with 120%nat;
    change (Z.to_nat 0) with 0%nat; rewrite drop_0.
  - rewrite length_firstn. lia.
  - pose proof (trim_trimmedShape (collapseWhiteSpace s)) as [H _].
    destruct (trim (collapseWhiteSpace s)) as [|c t] eqn:E; [done|].
    cbn [firstn]. apply dropWhile_fix. by eapply dropWhile_head.
  - apply singleSpaced_firstn. unfold trim, trimStart.
    apply singleSpaced_trimEnd, singleSpaced_dropWhile, collapse_singleSpaced.
Qed.

End Previews.

End ClientWork.


(** ** The task registry *)

Import Registry RegistrySpec RegistryExamples.

Section RegistryFacts.

Implicit Types (st : server) (t : task) (tm : timer).

Lemma wellFormed_initial : wellFormed initial.
Proof. intros taskId address H. cbn in H. by rewrite lookup_empty in H. Qed.

Lemma wellFormed_updateTask address f st :
  (forall t, id (f t) = id t) -> wellFormed st -> wellFormed (updateTask address f st).
Proof.
  intros Hf Hwf taskId a Ha. cbn in *. destruct (Hwf _ _ Ha) as (t & Ht & Hid).
  destruct (heap st !! address) as [t0|] eqn:E; [|by exists t].
  destruct (decide (a = address)) as [->|Hne].
  - exists (f t0). rewrite list_lookup_insert_eq by by eapply lookup_lt_Some.
    split; [done|]. rewrite Hf. congruence.
  - exists t. by rewrite list_lookup_insert_ne.
Qed.

Lemma wellFormed_register platformKey startTime now st :
  wellFormed st -> wellFormed (registerTask platformKey startTime now st).2.
Proof.
  intros Hwf taskId a. cbn. rewrite lookup_insert. case_decide as E.
  - intros [= <-]. eexists. rewrite lookup_app_r, Nat.sub_diag by done.
    split; [reflexivity|]. by cbn.
  - intros Ha. destruct (Hwf _ _ Ha) as (t & Ht & Hid). exists t.
    split; [|done]. by apply lookup_app_l_Some.
Qed.

Lemma wellFormed_sweep now st : wellFormed st -> wellFormed (sweepExpired now st).
Proof.
  intros Hwf taskId a. cbn. intros [Ha _]%map_lookup_filter_Some. by apply Hwf.
Qed.

Lemma tasks_fold_fireTimer (l : list timer) st :
  heap (fold_left (fun s tm => fireTimer tm s) l st) = heap st /\
  forall k, tasks (fold_left (fun s tm => fireTimer tm s) l st) !! k =
            if existsb (fun tm => bool_decide (target tm = k)) l then None
            else tasks st !! k.
Proof.
  revert st. induction l as [|tm l IH]; intros st; [done|].
  cbn [fold_left existsb]. destruct (IH (fireTimer tm st)) as [Hh Ht].
  split; [by rewrite Hh|]. intros k. rewrite Ht. cbn.
  destruct (existsb _ l); [by rewrite orb_true_r|]. rewrite orb_false_r.
  case_bool_decide as E.
  - rewrite <- E. apply lookup_delete_eq.
  - by apply lookup_delete_ne.
Qed.

Lemma wellFormed_runDueTimers now st : wellFormed st -> wellFormed (runDueTimers now st).
Proof.
  intros Hwf taskId a. unfold runDueTimers. cbn [tasks heap].
  destruct (tasks_fold_fireTimer
              (List.filter (fun tm => due tm <=? now) (timers st)) st) as [Hh Ht].
  rewrite Hh, Ht. destruct (existsb _ _); [done|]. apply Hwf.
Qed.

Lemma wellFormed_poll now taskId st : wellFormed st -> wellFormed (pollTask now taskId st).2.
Proof.
  intros Hwf. unfold pollTask. repeat case_match; try done.
Qed.

Lemma step_wellFormed st st' : step st st' -> wellFormed st -> wellFormed st'.
Proof.
  destruct 1; intros Hwf.
  - by apply wellFormed_register.
  - by apply wellFormed_updateTask.
  - by apply wellFormed_updateTask.
  - by apply wellFormed_updateTask.
  - by apply wellFormed_sweep.
  - by apply wellFormed_poll.
  - by apply wellFormed_runDueTimers.
Qed.

Lemma reachable_wellFormed st : reachable st -> wellFormed st.
Proof.
  induction 1 as [|st st' _ IH Hstep]; [apply wellFormed_initial|].
  by eapply step_wellFormed.
Qed.

(** Once the deletion timer set by a terminal poll is due, the task is gone. *)
Lemma scheduled_delete_fires now later taskId st :
  now + 300000 <= later ->
  tasks (runDueTimers later (scheduleDelete now taskId st)) !! taskId = None.
Proof.
  intros Hle. unfold runDueTimers. cbn [tasks timers scheduleDelete].
  match goal with |- tasks (fold_left _ ?l ?s) !! _ = _ =>
    destruct (tasks_fold_fireTimer l s) as [_ Ht] end.
  rewrite Ht. rewrite List.filter_app, existsb_app. cbn.
  destruct (Z.leb_spec (now + 300000) later); [|lia]. cbn.
  rewrite bool_decide_eq_true_2 by done. by rewrite orb_true_r.
Qed.

(** ... and not before that by this timer: it is still pending. *)
Lemma scheduled_delete_pending now earlier taskId st :
  earlier < now + 300000 ->
  {| due := now + 300000; target := taskId |}
    ∈ timers (runDueTimers earlier (scheduleDelete now taskId st)).
Proof.
  intros Hlt. unfold runDueTimers. cbn [timers scheduleDelete].
  rewrite List.filter_app. apply elem_of_app. right. cbn.
  destruct (Z.leb_spec (now + 300000) earlier); [lia|]. cbn. apply list_elem_of_here.
Qed.

(** C7: a poll for an id that is not in the registry answers 404 and changes
    nothing; a poll for a known job answers with exactly the shape that
    belongs to the job's status; a poll that sees the job processing changes
    nothing, and a poll that sees it done or failed sets a timer for 300000
    ms later, which is still pending before that time and has removed the job
    from the registry once that time has come. *)
Theorem poll_task_contract st now taskId :
  wellFormed st ->
  (tasks st !! taskId = None ->
     pollTask now taskId st = (NotFound, st) /\ httpStatus NotFound = 404) /\
  (forall address t,
     tasks st !! taskId = Some address -> heap st !! address = Some t ->
     (pollTask now taskId st).1 = pollAnswer now t /\
     httpStatus (pollTask now taskId st).1 = 200 /\
     match status t with
     | processing => (pollTask now taskId st).2 = st
     | done | error =>
         (pollTask now taskId st).2 = scheduleDelete now taskId st /\
         (forall earlier, earlier < now + 300000 ->
            {| due := now + 300000; target := taskId |}
              ∈ timers (runDueTimers earlier (pollTask now taskId st).2)) /\
         (forall later, now + 300000 <= later ->
            tasks (runDueTimers later (pollTask now taskId st).2) !! taskId = None)
     end).
Proof.
  intros Hwf. split.
  - intros Hnone. unfold pollTask. by rewrite Hnone.
  - intros address t Ha Ht. destruct (Hwf _ _ Ha) as (t' & Ht' & Hid).
    assert (t' = t) as -> by congruence.
    unfold pollTask, pollAnswer. rewrite Ha, Ht, Hid.
    destruct (status t); cbn [fst snd]; (split; [done|split; [done|]]); [done| |].
    + split; [done|]. split; intros ? ?.
      * by apply scheduled_delete_pending.
      * by apply scheduled_delete_fires.
    + split; [done|]. split; intros ? ?.
      * by apply scheduled_delete_pending.
      * by apply scheduled_delete_fires.
Qed.

End RegistryFacts.

Lemma demoRunning_reachable : reachable demoRunning.
Proof. eapply reachable_step; [apply reachable_initial|]. apply step_register. Qed.

Lemma demoDone_reachable : reachable demoDone.
Proof. eapply reachable_step; [apply demoRunning_reachable|]. apply step_resolved. Qed.

Lemma poll_task_contract_witness :
  (pollTask 100000 demoId demoDone).1
  = StatusDone 99 (Some {| created := 90; url := lit "https://x/video.mp4";
                           revised_prompt := lit "a cat" |}) /\
  tasks (runDueTimers 400000 (pollTask 100000 demoId demoDone).2) !! demoId = None.
Proof.
  destruct (poll_task_contract demoDone 100000 demoId
              (reachable_wellFormed _ demoDone_reachable)) as [_ H].
  destruct (H 0%nat
              {| id := demoId; platform := jimeng; status := done;
                 progress := preparingMessage; startTime := 1000;
                 result := Some {| created := 90; url := lit "https://x/video.mp4";
                                   revised_prompt := lit "a cat" |};
                 taskError := None |}
              ltac:(vm_compute; reflexivity) ltac:(vm_compute; reflexivity))
    as (Hans & _ & _ & _ & Hgone).
  split; [exact Hans|]. apply Hgone. lia.
Defined.

Section SweepFacts.

Implicit Types (st : server) (t : task).

Lemma sweep_lookup now st taskId address t :
  tasks st !! taskId = Some address -> heap st !! address = Some t ->
  tasks (sweepExpired now st) !! taskId =
  if 30 * 60 * 1000 <? now - startTime t then None else Some address.
Proof.
  intros Ha Ht. cbn [sweepExpired tasks].
  destruct (30 * 60 * 1000 <? now - startTime t) eqn:E.
  - apply map_lookup_filter_None. right. intros a Ha'. cbn.
    assert (a = address) as -> by congruence. unfold expired. by rewrite Ht, E.
  - apply map_lookup_filter_Some. split; [done|]. cbn. unfold expired.
    by rewrite Ht, E.
Qed.

Lemma pollTask_absent now taskId st :
  tasks st !! taskId = None -> (pollTask now taskId st).1 = NotFound.
Proof. intros H. unfold pollTask. by rewrite H. Qed.

(** C10: the sweep deletes a task that is more than 30 minutes old whatever
    its status, and keeps one that is not.  Without configuration the
    generation timeout is 45 minutes, and a sweep tick falls within a minute
    after a task's 30-minute mark; a task swept while its generator is still
    polling stays in memory and keeps being updated by the generator, also
    when it finishes, yet every later poll for its id answers 404. *)
Theorem sweep_evicts_running_task st now taskId address t :
  tasks st !! taskId = Some address ->
  heap st !! address = Some t ->
  (30 * 60 * 1000 < now - startTime t ->
     tasks (sweepExpired now st) !! taskId = None /\
     heap (sweepExpired now st) !! address = Some t /\
     (forall later, (pollTask later taskId (sweepExpired now st)).1 = NotFound) /\
     (forall message later,
        exists t',
          heap (setProgress address message (sweepExpired now st)) !! address
            = Some t' /\ progress t' = message /\
          (pollTask later taskId
             (setProgress address message (sweepExpired now st))).1 = NotFound) /\
     (forall videoUrl prompt finished later,
        exists t',
          heap (generatorResolved address videoUrl prompt finished
                  (sweepExpired now st)) !! address = Some t' /\
          status t' = done /\
          (pollTask later taskId
             (generatorResolved address videoUrl prompt finished
                (sweepExpired now st))).1 = NotFound)) /\
  (now - startTime t <= 30 * 60 * 1000 ->
     tasks (sweepExpired now st) !! taskId = Some address) /\
  VIDEO_GENERATION_TIMEOUT_MS None = 45 * 60 * 1000 /\
  (now - startTime t < 45 * 60 * 1000 -> generatorStillPolling None now t = true) /\
  (forall serverStart, serverStart <= startTime t ->
     exists k, 0 < k /\
       30 * 60 * 1000 < sweepTick serverStart k - startTime t <= 31 * 60 * 1000 /\
       generatorStillPolling None (sweepTick serverStart k) t = true).
Proof.
  intros Ha Ht. pose proof (sweep_lookup now st taskId address t Ha Ht) as Hsw.
  split; [|split; [|split; [|split]]].
  - intros Hold. destruct (Z.ltb_spec (30 * 60 * 1000) (now - startTime t)); [|lia].
    split; [exact Hsw|]. split; [exact Ht|].
    assert (Hlen : (address < length (heap st))%nat) by by eapply lookup_lt_Some.
    split; [|split].
    + intros later. by apply pollTask_absent.
    + intros message later. eexists. cbn [setProgress updateTask heap sweepExpired].
      rewrite Ht. rewrite list_lookup_insert_eq by done.
      split; [reflexivity|]. split; [done|]. by apply pollTask_absent.
    + intros videoUrl prompt finished later. eexists.
      cbn [generatorResolved updateTask heap sweepExpired].
      rewrite Ht. rewrite list_lookup_insert_eq by done.
      split; [reflexivity|]. split; [done|]. by apply pollTask_absent.
  - intros Hyoung. destruct (Z.ltb_spec (30 * 60 * 1000) (now - startTime t)); [lia|].
    exact Hsw.
  - reflexivity.
  - intros Hlt. unfold generatorStillPolling. cbn [VIDEO_GENERATION_TIMEOUT_MS].
    destruct (Z.leb_spec (45 * 60 * 1000) (now - startTime t)); [lia|done].
  - intros serverStart Hle.
    exists ((startTime t + 30 * 60 * 1000 - serverStart) `div` 60000 + 1).
    unfold sweepTick, generatorStillPolling. cbn [VIDEO_GENERATION_TIMEOUT_MS].
    pose proof (Z.div_mod (startTime t + 30 * 60 * 1000 - serverStart) 60000
                  ltac:(lia)) as Hdm.
    pose proof (Z.mod_pos_bound (startTime t + 30 * 60 * 1000 - serverStart) 60000
                  ltac:(lia)) as Hmod.
    assert (0 <= (startTime t + 30 * 60 * 1000 - serverStart) `div` 60000)
      by (apply Z.div_pos; lia).
    split; [lia|]. split; [lia|].
    match goal with |- negb (?a <=? ?b) = true =>
      destruct (Z.leb_spec a b); [lia|done] end.
Qed.

End SweepFacts.

Lemma sweep_evicts_running_task_witness :
  tasks (sweepExpired 1860000 demoRunning) !! demoId = None /\
  (pollTask 1900000 demoId (sweepExpired 1860000 demoRunning)).1 = NotFound /\
  generatorStillPolling None 1860000
    {| id := demoId; platform := jimeng; status := processing;
       progress := preparingMessage; startTime := 1000;
       result := None; taskError := None |} = true.
Proof.
  destruct (sweep_evicts_running_task demoRunning 1860000 demoId 0%nat
              {| id := demoId; platform := jimeng; status := processing;
                 progress := preparingMessage; startTime := 1000;
                 result := None; taskError := None |}
              ltac:(vm_compute; reflexivity) ltac:(vm_compute; reflexivity))
    as (Hold & _ & _ & Hpoll & _).
  destruct (Hold ltac:(cbn; lia)) as (Hgone & _ & Hnf & _).
  split; [exact Hgone|]. split; [apply Hnf|]. apply Hpoll. cbn. lia.
Defined.

(** *** Task ids, task identity, repeated sweeps *)

Section TaskIds.

Import RegistryIds.
Implicit Types (st : server) (t : task).

Lemma lit_app (a b : string) : lit (a +:+ b) = lit a ++ lit b.
Proof.
  unfold lit. induction a as [|x a IH]; [done|]. cbn. by rewrite <- IH.
Qed.

Lemma pretty_N_go_no_underscore (x : N) (s : string) :
  includesChar (ch "_") (lit s) = false ->
  includesChar (ch "_") (lit (pretty_N_go x s)) = false.
Proof.
  revert s. induction (N.lt_wf_0 x) as [x _ IH]; intros s Hs.
  assert (x = 0 \/ 0 < x)%N as [->|Hx] by lia.
  - by rewrite pretty_N_go_0.
  - rewrite pretty_N_go_step by done. apply IH; [by apply N.div_lt|].
    unfold lit, includesChar in *. cbn [list_ascii_of_string List.map existsb].
    rewrite Hs, orb_false_r. unfold pretty_N_char. by repeat case_match.
Qed.

Lemma pretty_Z_no_underscore (z : Z) : includesChar (ch "_") (lit (pretty z)) = false.
Proof.
  assert (HN : forall n : N, includesChar (ch "_") (lit (pretty n)) = false).
  { intros n. unfold pretty, pretty_N. case_decide; [done|].
    by apply pretty_N_go_no_underscore. }
  destruct z as [|p|p]; [done|apply (HN (Npos p))|].
  change (pretty (Z.neg p)) with ("-" +:+ pretty (Npos p)).
  rewrite lit_app. unfold includesChar. rewrite existsb_app. cbn [lit existsb orb].
  apply (HN (Npos p)).
Qed.

Lemma taskIdOf_inj counter now counter' now' :
  taskIdOf counter now = taskIdOf counter' now' -> counter = counter' /\ now = now'.
Proof.
  unfold taskIdOf. intros E. apply app_inv_head in E.
  change (lit "_" ++ lit (pretty now)) with (ch "_" :: lit (pretty now)) in E.
  change (lit "_" ++ lit (pretty now')) with (ch "_" :: lit (pretty now')) in E.
  apply app_sep_inj in E as [E1 E2]; try apply pretty_Z_no_underscore.
  apply lit_inj in E1, E2. split; by apply (inj pretty).
Qed.

Lemma idsCounted_register pk startTime now st :
  idsCounted st -> idsCounted (registerTask pk startTime now st).2.
Proof.
  intros H taskId a. unfold registerTask, createTaskId. cbn [snd tasks taskCounter].
  fold (taskIdOf (taskCounter st + 1) now).
  rewrite lookup_insert. case_decide as E.
  - intros _. exists (taskCounter st + 1), now. split; [lia|done].
  - intros Ha. destruct (H _ _ Ha) as (c & n & Hc & ->). exists c, n. split; [lia|done].
Qed.

Lemma taskCounter_fold_fireTimer (l : list timer) st :
  taskCounter (fold_left (fun s tm => fireTimer tm s) l st) = taskCounter st.
Proof.
  revert st. induction l as [|tm l IH]; intros st; [done|].
  cbn [fold_left]. by rewrite IH.
Qed.

Lemma idsCounted_step st st' : step st st' -> idsCounted st -> idsCounted st'.
Proof.
  destruct 1; intros H.
  - by apply idsCounted_register.
  - exact H.
  - exact H.
  - exact H.
  - intros taskId a. cbn [sweepExpired tasks taskCounter].
    intros [Ha _]%map_lookup_filter_Some. by apply (H _ _ Ha).
  - unfold pollTask. repeat case_match; try done.
  - intros taskId a. unfold runDueTimers. cbn [tasks taskCounter].
    match goal with |- tasks (fold_left _ ?l ?s) !! _ = _ -> _ =>
      destruct (tasks_fold_fireTimer l s) as [_ Ht]
    end.
    rewrite Ht, taskCounter_fold_fireTimer. destruct (existsb _ _); [done|]. apply H.
Qed.

Lemma reachable_idsCounted st : reachable st -> idsCounted st.
Proof.
  induction 1 as [|st st' _ IH Hstep].
  - intros taskId a H. cbn in H. by rewrite lookup_empty in H.
  - by eapply idsCounted_step.
Qed.

(** X13: task ids are never reused.  In every state the server can reach,
    the id made for a new task is not in the registry, so registering the
    task replaces no other; every other entry stays as it was. *)
Theorem registerTask_fresh pk startTime now st :
  reachable st ->
  tasks st !! (registerTask pk startTime now st).1.1 = None /\
  forall taskId, taskId <> (registerTask pk startTime now st).1.1 ->
    tasks (registerTask pk startTime now st).2 !! taskId = tasks st !! taskId.
Proof.
  intros Hr. unfold registerTask, createTaskId. cbn [fst snd tasks].
  fold (taskIdOf (taskCounter st + 1) now). split.
  - destruct (tasks st !! _) as [a|] eqn:E; [|done].
    destruct (reachable_idsCounted st Hr _ _ E) as (c & n & Hc & Hid).
    apply taskIdOf_inj in Hid as [? _]. lia.
  - intros taskId Hne. by rewrite lookup_insert_ne.
Qed.

Lemma sameTask_refl t : sameTask t t.
Proof. done. Qed.

Lemma updateTask_sameTask address f st a t :
  (forall t0, sameTask t0 (f t0)) ->
  heap st !! a = Some t ->
  exists t', heap (updateTask address f st) !! a = Some t' /\ sameTask t t'.
Proof.
  intros Hf Ha. cbn. destruct (heap st !! address) as [t0|] eqn:E; [|by exists t].
  destruct (decide (a = address)) as [->|Hne].
  - exists (f t0). rewrite list_lookup_insert_eq by by eapply lookup_lt_Some.
    split; [done|]. assert (t0 = t) as -> by congruence. apply Hf.
  - exists t. by rewrite list_lookup_insert_ne.
Qed.

(** X14: a task object is never dropped from memory by the registry's
    handlers, and its id, platform and start time never change, whatever
    handler or callback runs. *)
Theorem step_keeps_task_identity st st' a t :
  step st st' ->
  heap st !! a = Some t ->
  exists t', heap st' !! a = Some t' /\ sameTask t t'.
Proof.
  destruct 1; intros Ha.
  - exists t. split; [|done]. cbn. by apply lookup_app_l_Some.
  - by apply updateTask_sameTask.
  - by apply updateTask_sameTask.
  - by apply updateTask_sameTask.
  - by exists t.
  - exists t. split; [|done]. unfold pollTask. by repeat case_match.
  - exists t. split; [|done]. unfold runDueTimers. cbn [heap].
    match goal with |- heap (fold_left _ ?l ?s) !! _ = _ =>
      destruct (tasks_fold_fireTimer l s) as [-> _] end. done.
Qed.

Lemma expired_sweep now now' st a : expired now' (sweepExpired now st) a = expired now' st a.
Proof. reflexivity. Qed.

Lemma expired_mono now now' st a :
  now <= now' -> expired now st a = true -> expired now' st a = true.
Proof.
  unfold expired. intros Hle. destruct (heap st !! a) as [t|]; [|done].
  intros H%Z.ltb_lt. apply Z.ltb_lt. lia.
Qed.

(** X15: a later sweep absorbs an earlier one.  Sweeping at [now] and then
    at a later time [now'] leaves exactly what one sweep at [now'] leaves; in
    particular a sweep repeated at the same time changes nothing. *)
Theorem sweepExpired_absorbs now now' st :
  now <= now' ->
  sweepExpired now' (sweepExpired now st) = sweepExpired now' st.
Proof.
  intros Hle. unfold sweepExpired. cbn [tasks heap taskCounter timers]. f_equal.
  apply (map_filter_filter_l
           (fun entry : jsstring * nat => expired now' st entry.2 = false)
           (fun entry : jsstring * nat => expired now st entry.2 = false)).
  intros taskId a _. cbn [snd]. intros Hlate.
  destruct (expired now st a) eqn:E; [|done].
  apply (expired_mono now now') in E; [congruence|done].
Qed.

End TaskIds.

Lemma registerTask_fresh_witness :
  tasks demoDone !! (registerTask xyq 95000 95001 demoDone).1.1 = None.
Proof.
  apply (registerTask_fresh xyq 95000 95001 demoDone demoDone_reachable).
Defined.

Lemma step_keeps_task_identity_witness :
  exists t', heap demoDone !! 0%nat = Some t' /\
    RegistryIds.sameTask
      {| id := demoId; platform := jimeng; status := processing;
         progress := preparingMessage; startTime := 1000;
         result := None; taskError := None |} t'.
Proof.
  apply (step_keeps_task_identity demoRunning demoDone 0%nat).
  - apply step_resolved.
  - reflexivity.
Defined.

Lemma sweepExpired_absorbs_witness :
  sweepExpired 1860000 (sweepExpired 1800000 demoDone) = sweepExpired 1860000 demoDone.
Proof. apply sweepExpired_absorbs. lia. Defined.


(** ** The browser session pool *)

Import Pool PoolExamples.

Section PoolFacts.

Context {json : Type} (chromium : driver json).
Implicit Types (st : service) (sid raw : jsstring) (pk : platform_key).

Lemma calls_app e (l1 l2 : list event) :
  calls e (l1 ++ l2) = (calls e l1 + calls e l2)%nat.
Proof. unfold calls. by rewrite List.filter_app, length_app. Qed.

Lemma evaluations_any_page p (l : list event) : calls (Evaluated p) l = evaluations l.
Proof. reflexivity. Qed.

Lemma isTargetClosedError_truthy thrown :
  isTargetClosedError thrown = true -> truthy thrown = true.
Proof. by destruct thrown. Qed.

Lemma recreateBrowser_spec st :
  recreateBrowser st = (inr tt, afterRecreate st).
Proof.
  unfold recreateBrowser, afterRecreate, bind, record, getBrowser, setBrowser,
    resetAllSessions, setSessions, ret. cbn.
  destruct (browser st); cbn; by rewrite <- ?app_assoc.
Qed.

End PoolFacts.

(** *** What session acquisition leaves in the log *)

Section PoolLog.

Context {json : Type} (chromium : driver json).

Lemma silent_ret e {A} (a : A) : silent e (ret a).
Proof. by intros st. Qed.

Lemma silent_throw e {A} (err : error) : silent e (@throw A err).
Proof. by intros st. Qed.

Lemma silent_bind e {A B} (m : M A) (k : A -> M B) :
  silent e m -> (forall a, silent e (k a)) -> silent e (bind m k).
Proof.
  intros Hm Hk st. unfold bind. specialize (Hm st).
  destruct (m st) as [[err|a] st']; cbn in *; [done|].
  by rewrite Hk.
Qed.

Lemma silent_tryCatch e {A} (m : M A) (h : error -> M A) :
  silent e m -> (forall err, silent e (h err)) -> silent e (tryCatch m h).
Proof.
  intros Hm Hh st. unfold tryCatch. specialize (Hm st).
  destruct (m st) as [[err|a] st']; cbn in *; [|done].
  by rewrite Hh.
Qed.

Lemma silent_record e e' : event_eqb e e' = false -> silent e (record e').
Proof.
  intros Hne st. unfold record, calls. cbn [snd log].
  rewrite List.filter_app, length_app. cbn [List.filter]. rewrite Hne. cbn. lia.
Qed.

Lemma silent_getBrowser e : silent e getBrowser.
Proof. by intros st. Qed.
Lemma silent_setBrowser e b : silent e (setBrowser b).
Proof. by intros st. Qed.
Lemma silent_getSessions e : silent e getSessions.
Proof. by intros st. Qed.
Lemma silent_setSessions e m : silent e (setSessions m).
Proof. by intros st. Qed.

Ltac silent_step :=
  first
    [ apply silent_ret | apply silent_throw
    | apply silent_getBrowser | apply silent_setBrowser
    | apply silent_getSessions | apply silent_setSessions
    | apply silent_record; reflexivity
    | apply silent_bind; [|intros ?]
    | apply silent_tryCatch; [|intros ?]
    | match goal with
      | |- silent _ (match ?x with _ => _ end) => destruct x
      end ].

Lemma silent_recreateBrowser e :
  event_eqb e RecreateBrowser = false ->
  (forall b, event_eqb e (ClosedBrowser b) = false) ->
  silent e recreateBrowser.
Proof.
  intros H1 H2. unfold recreateBrowser, resetAllSessions.
  apply silent_bind; [by apply silent_record|intros _].
  apply silent_bind; [apply silent_getBrowser|intros old].
  apply silent_bind; [apply silent_setBrowser|intros _].
  apply silent_bind; [apply silent_setSessions|intros _].
  destruct old; [|apply silent_ret].
  apply silent_bind; [by apply silent_record|intros _]. apply silent_ret.
Qed.

Lemma silent_openSession_evaluated cacheKey sid pk :
  silent (Evaluated 0) (openSession chromium cacheKey sid pk).
Proof. unfold openSession, ensureBrowser, launchBrowser. repeat silent_step. Qed.

Lemma silent_openSessionAttempts_evaluated remaining attempt cacheKey sid pk :
  silent (Evaluated 0) (openSessionAttempts chromium remaining attempt cacheKey sid pk).
Proof.
  revert attempt. induction remaining as [|n IH]; intros attempt; cbn.
  - apply silent_throw.
  - apply silent_tryCatch; [apply silent_openSession_evaluated|intros err].
    destruct (_ && _); [|apply silent_throw].
    apply silent_bind; [by apply silent_recreateBrowser|intros _]. apply IH.
Qed.

(** Acquiring a session never evaluates anything in a page. *)
Lemma getSession_evaluations sid pk raw st :
  evaluations (log (getSession chromium sid pk raw st).2) = evaluations (log st).
Proof.
  revert st. change (silent (Evaluated 0) (getSession chromium sid pk raw)).
  unfold getSession. apply silent_bind; [apply silent_getSessions|intros cached].
  destruct (cached !! _).
  - apply silent_bind; [by apply silent_record|intros q].
    destruct (isClosed chromium q); [|apply silent_ret].
    apply silent_bind; [apply silent_setSessions|intros _].
    apply silent_openSessionAttempts_evaluated.
  - apply silent_openSessionAttempts_evaluated.
Qed.

Lemma silent_openSession_recreate cacheKey sid pk :
  silent RecreateBrowser (openSession chromium cacheKey sid pk).
Proof. unfold openSession, ensureBrowser, launchBrowser. repeat silent_step. Qed.

Lemma openSession_opensPages cacheKey sid pk st :
  opensPages chromium -> exists s, (openSession chromium cacheKey sid pk st).1 = inr s.
Proof.
  intros Hok. unfold openSession, ensureBrowser, launchBrowser, bind, record,
    getBrowser, setBrowser, getSessions, setSessions, ret.
  destruct (browser st) as [b|]; cbn [fst snd log browser sessions].
  - destruct (isConnected chromium _); cbn [fst snd log browser sessions].
    + rewrite (proj2 (Hok _)). by eexists.
    + destruct (negb (isConnected chromium _)); cbn [fst snd log browser sessions];
        rewrite (proj1 (Hok _)); cbn [fst snd log browser sessions];
        rewrite (proj2 (Hok _)); by eexists.
  - rewrite (proj1 (Hok _)). cbn [fst snd log browser sessions].
    rewrite (proj2 (Hok _)). by eexists.
Qed.

(** With such a driver, acquiring a session recreates nothing. *)
Lemma getSession_recreations sid pk raw st :
  opensPages chromium ->
  recreations (log (getSession chromium sid pk raw st).2) = recreations (log st).
Proof.
  intros Hok.
  assert (Hopen : forall cacheKey,
    silent RecreateBrowser (openSessionAttempts chromium 2 0 cacheKey sid pk)).
  { intros cacheKey st0. cbn [openSessionAttempts]. unfold tryCatch.
    pose proof (silent_openSession_recreate cacheKey sid pk st0) as Hs.
    destruct (openSession_opensPages cacheKey sid pk st0 Hok) as (s & Hs1).
    destruct (openSession chromium cacheKey sid pk st0) as [[err|s'] st'];
      cbn in Hs1; [done|exact Hs]. }
  revert st. change (silent RecreateBrowser (getSession chromium sid pk raw)).
  unfold getSession. apply silent_bind; [apply silent_getSessions|intros cached].
  destruct (cached !! _).
  - apply silent_bind; [by apply silent_record|intros q].
    destruct (isClosed chromium q); [|apply silent_ret].
    apply silent_bind; [apply silent_setSessions|intros _]. apply Hopen.
  - apply Hopen.
Qed.

End PoolLog.

Section PoolRetry.

Context {json : Type} (chromium : driver json).
Implicit Types (st : service) (sid raw : jsstring) (pk : platform_key).

(** C8, amended: when the first in-page evaluation of a [fetch] fails with a
    target/context-closed error whose message does not contain
    [Failed to fetch], the pool drops the browser handle and every cached
    session with exactly one [recreateBrowser] call of its own, acquires a
    session again and evaluates once more; the outcome of that second
    evaluation is the outcome of the [fetch]: a parsed answer is returned, a
    failure reaches the caller, and nothing is recreated or evaluated after
    it.  A failure to acquire the session again reaches the caller as well. *)
Theorem fetch_target_closed_retry sid pk raw st s0 st1 thrown :
  getSession chromium sid pk raw st = (inr s0, st1) ->
  evaluate chromium (evaluations (log st1)) = inl thrown ->
  isTargetClosedError thrown = true ->
  includes (lit "Failed to fetch") thrown = false ->
  let st2 := afterRecreate (afterEvaluate s0 st1) in
  browser st2 = None /\ sessions st2 = ∅ /\
  recreations (log st2) = S (recreations (log st1)) /\
  evaluations (log st2) = S (evaluations (log st1)) /\
  (forall e st3,
     getSession chromium sid pk raw st2 = (inl e, st3) ->
     fetch chromium sid pk raw st = (inl e, st3)) /\
  (forall s1 st3,
     getSession chromium sid pk raw st2 = (inr s1, st3) ->
     evaluations (log (afterEvaluate s1 st3)) = S (S (evaluations (log st1))) /\
     (opensPages chromium ->
        recreations (log (afterEvaluate s1 st3)) = S (recreations (log st1))) /\
     (forall rawResult value,
        evaluate chromium (evaluations (log st3)) = inr rawResult ->
        parsedBody rawResult = Some value ->
        fetch chromium sid pk raw st = (inr value, afterEvaluate s1 st3)) /\
     (forall thrown2,
        evaluate chromium (evaluations (log st3)) = inl thrown2 ->
        fetch chromium sid pk raw st
        = (inl (if includes (lit "Failed to fetch")
                     (if truthy thrown2 then thrown2 else lit "unknown error")
                then RequestFailedError else PlaywrightError thrown2),
           afterEvaluate s1 st3))).
Proof.
  intros Hget Hev Hclosed Hnf st2.
  assert (Hfetch : fetch chromium sid pk raw st =
                   fetchAttempts chromium 1 1 sid pk raw st2).
  { unfold fetch. cbn [fetchAttempts]. unfold bind at 1. rewrite Hget.
    unfold bind at 1. unfold record at 1. cbn [log].
    rewrite evaluations_any_page, Hev.
    rewrite (isTargetClosedError_truthy _ Hclosed), Hnf, Hclosed. cbn [Z.eqb andb].
    unfold bind at 1. rewrite recreateBrowser_spec. reflexivity. }
  assert (Hrec : recreations (log st2) = S (recreations (log st1))).
  { subst st2. unfold recreations. cbn [afterRecreate afterEvaluate log browser].
    rewrite !calls_app. destruct (browser st1); cbn; lia. }
  assert (Hevs : evaluations (log st2) = S (evaluations (log st1))).
  { subst st2. unfold evaluations. cbn [afterRecreate afterEvaluate log browser].
    rewrite !calls_app. destruct (browser st1); cbn; lia. }
  split; [done|]. split; [done|].
  split; [exact Hrec|split; [exact Hevs|]].
  - split.
    + intros e st3 Hget2. rewrite Hfetch. cbn [fetchAttempts].
      unfold bind at 1. by rewrite Hget2.
    + intros s1 st3 Hget2.
      pose proof (getSession_evaluations chromium sid pk raw st2) as He3.
      rewrite Hget2 in He3. cbn [snd] in He3.
      split; [|split; [|split]].
      * unfold evaluations in *. cbn [afterEvaluate log]. rewrite calls_app.
        rewrite He3, Hevs. cbn. lia.
      * intros Hok.
        pose proof (getSession_recreations chromium sid pk raw st2 Hok) as Hr3.
        rewrite Hget2 in Hr3. cbn [snd] in Hr3.
        unfold recreations in *. cbn [afterEvaluate log]. rewrite calls_app.
        rewrite Hr3, Hrec. cbn. lia.
      * intros rawResult value Hev2 Hparsed. rewrite Hfetch. cbn [fetchAttempts].
        unfold bind at 1. rewrite Hget2. unfold bind at 1. unfold record at 1.
        cbn [log]. rewrite evaluations_any_page, Hev2.
        unfold parseRawResult. rewrite Hparsed. reflexivity.
      * intros thrown2 Hev2. rewrite Hfetch. cbn [fetchAttempts].
        unfold bind at 1. rewrite Hget2. unfold bind at 1. unfold record at 1.
        cbn [log]. rewrite evaluations_any_page, Hev2.
        destruct (includes _ (if truthy thrown2 then _ else _)); reflexivity.
Qed.

End PoolRetry.

Lemma fetch_target_closed_retry_witness :
  (fetch closedOnce (lit "tok") jimeng [] emptyService).1 = inr (lit "{}") /\
  log (fetch closedOnce (lit "tok") jimeng [] emptyService).2
  = [Launched; OpenedPage; Evaluated 0; RecreateBrowser; ClosedBrowser 0;
     Launched; OpenedPage; Evaluated 1] /\
  (fetch closedAlways (lit "tok") jimeng [] emptyService).1
  = inl (PlaywrightError
           (lit "page.evaluate: Target page, context or browser has been closed")) /\
  log (fetch closedAlways (lit "tok") jimeng [] emptyService).2
  = [Launched; OpenedPage; Evaluated 0; RecreateBrowser; ClosedBrowser 0;
     Launched; OpenedPage; Evaluated 1].
Proof.
  pose (msg := lit "page.evaluate: Target page, context or browser has been closed").
  pose (s0 := (getSession closedOnce (lit "tok") jimeng [] emptyService)).
  destruct (fetch_target_closed_retry closedOnce (lit "tok") jimeng [] emptyService
              {| page := 0; platformKey := jimeng; sessionId := lit "tok" |}
              s0.2 msg
              ltac:(vm_compute; reflexivity) ltac:(vm_compute; reflexivity)
              ltac:(vm_compute; reflexivity) ltac:(vm_compute; reflexivity))
    as (_ & _ & _ & _ & _ & Hretry).
  pose (st2 := afterRecreate
                 (afterEvaluate {| page := 0; platformKey := jimeng;
                                   sessionId := lit "tok" |} s0.2)).
  destruct (Hretry {| page := 1; platformKey := jimeng; sessionId := lit "tok" |}
              (getSession closedOnce (lit "tok") jimeng [] st2).2
              ltac:(vm_compute; reflexivity)) as (_ & _ & Hok & _).
  rewrite (Hok jsonOk (lit "{}") ltac:(vm_compute; reflexivity) eq_refl).
  split; [reflexivity|]. split; [vm_compute; reflexivity|].
  destruct (fetch_target_closed_retry closedAlways (lit "tok") jimeng [] emptyService
              {| page := 0; platformKey := jimeng; sessionId := lit "tok" |}
              (getSession closedAlways (lit "tok") jimeng [] emptyService).2 msg
              ltac:(vm_compute; reflexivity) ltac:(vm_compute; reflexivity)
              ltac:(vm_compute; reflexivity) ltac:(vm_compute; reflexivity))
    as (_ & _ & _ & _ & _ & Hretry').
  destruct (Hretry' {| page := 1; platformKey := jimeng; sessionId := lit "tok" |}
              (getSession closedAlways (lit "tok") jimeng []
                 (afterRecreate
                    (afterEvaluate {| page := 0; platformKey := jimeng;
                                      sessionId := lit "tok" |}
                       (getSession closedAlways (lit "tok") jimeng [] emptyService).2))).2
              ltac:(vm_compute; reflexivity)) as (_ & _ & _ & Hfail).
  rewrite (Hfail msg ltac:(vm_compute; reflexivity)).
  split; vm_compute; reflexivity.
Defined.

(** C8 as stated fails: the [Failed to fetch] test comes first, so this
    target-closed failure of the first evaluation is turned into the
    request-failed error at once; nothing is recreated and nothing retried. *)
Lemma fetch_target_closed_not_retried :
  isTargetClosedError
    (lit "page.evaluate: TypeError: Failed to fetch (target closed)") = true /\
  (fetch failedToFetchClosed (lit "tok") jimeng [] emptyService).1
  = inl RequestFailedError /\
  log (fetch failedToFetchClosed (lit "tok") jimeng [] emptyService).2
  = [Launched; OpenedPage; Evaluated 0] /\
  browser (fetch failedToFetchClosed (lit "tok") jimeng [] emptyService).2 = Some 0%nat.
Proof. vm_compute. repeat split; reflexivity. Qed.

Example fetch_recreates_twice :
  (fetch closedTwice (lit "tok") jimeng [] emptyService).1 = inr (lit "{}") /\
  recreations (log (fetch closedTwice (lit "tok") jimeng [] emptyService).2) = 2%nat /\
  evaluations (log (fetch closedTwice (lit "tok") jimeng [] emptyService).2) = 2%nat.
Proof. vm_compute. repeat split; reflexivity. Qed.

(** *** Bounded work, reuse, cache keys *)

Section PoolWork.

Import PoolSpec.


Section PoolBudget.

Context {json : Type} (chromium : driver json).
Implicit Types (st : service) (sid raw : jsstring) (pk : platform_key)
  (w : event -> nat).

Lemma bounded_weaken w w' {A} (m : M A) :
  bounded w m -> (forall e, (w e <= w' e)%nat) -> bounded w' m.
Proof. intros Hm Hw e st. specialize (Hm e st). specialize (Hw e). lia. Qed.

Lemma bounded_ret {A} (a : A) : bounded free (ret a).
Proof. intros e st. cbn [ret snd]. lia. Qed.

Lemma bounded_throw {A} (err : error) : bounded free (@throw A err).
Proof. intros e st. cbn [throw snd]. lia. Qed.

Lemma bounded_getBrowser : bounded free getBrowser.
Proof. intros e st. cbn [getBrowser snd]. lia. Qed.

Lemma bounded_getSessions : bounded free getSessions.
Proof. intros e st. cbn [getSessions snd]. lia. Qed.

Lemma bounded_setBrowser b : bounded free (setBrowser b).
Proof. intros e st. unfold setBrowser. cbn [snd log]. lia. Qed.

Lemma bounded_setSessions m : bounded free (setSessions m).
Proof. intros e st. unfold setSessions. cbn [snd log]. lia. Qed.

Lemma bounded_record e' : bounded (one e') (record e').
Proof.
  intros e st. unfold record, one. cbn [snd log]. rewrite calls_app.
  unfold calls at 2. cbn [List.filter]. destruct (event_eqb e e'); cbn; lia.
Qed.

Lemma bounded_bind w1 w2 w {A B} (m : M A) (k : A -> M B) :
  bounded w1 m -> (forall a, bounded w2 (k a)) ->
  (forall e, (w1 e + w2 e <= w e)%nat) ->
  bounded w (bind m k).
Proof.
  intros Hm Hk Hw e st. unfold bind. specialize (Hm e st). specialize (Hw e).
  destruct (m st) as [[err|a] st']; cbn [fst snd] in *; [lia|].
  specialize (Hk a e st'). lia.
Qed.

Lemma bounded_tryCatch w1 w2 w {A} (m : M A) (h : error -> M A) :
  bounded w1 m -> (forall err, bounded w2 (h err)) ->
  (forall e, (w1 e + w2 e <= w e)%nat) ->
  bounded w (tryCatch m h).
Proof.
  intros Hm Hh Hw e st. unfold tryCatch. specialize (Hm e st). specialize (Hw e).
  destruct (m st) as [[err|a] st']; cbn [fst snd] in *; [|lia].
  specialize (Hh err e st'). lia.
Qed.

(** The budgets fit: a comparison of two budgets, kind by kind. *)
Ltac fits := intros []; vm_compute; lia.

Ltac free_step :=
  first [ apply bounded_ret | apply bounded_throw | apply bounded_getBrowser
        | apply bounded_getSessions | apply bounded_setBrowser
        | apply bounded_setSessions ].

Lemma bounded_recreateBrowser : bounded recreateBudget recreateBrowser.
Proof.
  intros e st. rewrite recreateBrowser_spec. unfold afterRecreate. cbn [snd log].
  rewrite calls_app. unfold calls at 2.
  destruct (browser st), e; cbn; lia.
Qed.

Lemma bounded_launchBrowser : bounded (one Launched) (launchBrowser chromium).
Proof.
  unfold launchBrowser.
  apply (bounded_bind (one Launched) free); [apply bounded_record| |fits].
  intros n. destruct (launch chromium n); [free_step|].
  apply (bounded_bind free free); [free_step|intros _; free_step|fits].
Qed.

Lemma bounded_ensureBrowser : bounded ensureBudget (ensureBrowser chromium).
Proof.
  unfold ensureBrowser.
  apply (bounded_bind free ensureBudget); [free_step| |fits].
  intros [b|].
  - apply (bounded_bind (one AskedConnected) (fun e => (one AskedConnected e + one Launched e)%nat));
      [apply bounded_record| |fits].
    intros q. destruct (isConnected chromium q).
    { eapply bounded_weaken; [free_step|fits]. }
    apply (bounded_bind (one AskedConnected) (one Launched));
      [apply bounded_record| |fits].
    intros q'.
    apply (bounded_bind free (one Launched)); [|intros _; apply bounded_launchBrowser|fits].
    destruct (negb _); free_step.
  - eapply bounded_weaken; [apply bounded_launchBrowser|fits].
Qed.

Lemma bounded_openSession cacheKey sid pk :
  bounded openBudget (openSession chromium cacheKey sid pk).
Proof.
  unfold openSession.
  apply (bounded_bind ensureBudget (one OpenedPage)); [apply bounded_ensureBrowser| |fits].
  intros _.
  apply (bounded_bind (one OpenedPage) free); [apply bounded_record| |fits].
  intros n. destruct (openPage chromium n); [free_step|].
  apply (bounded_bind free free); [free_step| |fits]. intros cached.
  apply (bounded_bind free free); [free_step|intros _; free_step|fits].
Qed.

Lemma bounded_openSessionAttempts cacheKey sid pk :
  bounded (fun e => (openBudget e + (recreateBudget e + openBudget e))%nat)
    (openSessionAttempts chromium 2 0 cacheKey sid pk).
Proof.
  cbn [openSessionAttempts]. change (0 + 1) with 1. change (1 =? 0) with false.
  cbn [andb].
  apply (bounded_tryCatch openBudget (fun e => (recreateBudget e + openBudget e)%nat));
    [apply bounded_openSession| |fits].
  intros err. destruct (_ && _); [|eapply bounded_weaken; [free_step|fits]].
  apply (bounded_bind recreateBudget openBudget); [apply bounded_recreateBrowser| |fits].
  intros _.
  apply (bounded_tryCatch openBudget free); [apply bounded_openSession| |fits].
  intros err'. free_step.
Qed.

Lemma bounded_getSession sid pk raw :
  bounded sessionBudget (getSession chromium sid pk raw).
Proof.
  unfold getSession.
  apply (bounded_bind free sessionBudget); [free_step| |fits].
  intros cached. destruct (cached !! _).
  - apply (bounded_bind (one AskedClosed)
             (fun e => (openBudget e + (recreateBudget e + openBudget e))%nat));
      [apply bounded_record| |fits].
    intros q. destruct (isClosed chromium q); [|eapply bounded_weaken; [free_step|fits]].
    apply (bounded_bind free
             (fun e => (openBudget e + (recreateBudget e + openBudget e))%nat));
      [free_step|intros _; apply bounded_openSessionAttempts|fits].
  - eapply bounded_weaken; [apply bounded_openSessionAttempts|fits].
Qed.

Lemma bounded_parseRawResult pk (r : raw_result json) :
  bounded free (parseRawResult pk r).
Proof.
  unfold parseRawResult. destruct (parsedBody r); [free_step|].
  destruct (looksLikeHtmlResponse _ _); free_step.
Qed.

(** One attempt of [fetch] that is not followed by another. *)
Lemma bounded_lastAttempt sid pk raw :
  bounded (fun e => (sessionBudget e + one (Evaluated 0) e)%nat)
    (fetchAttempts chromium 1 1 sid pk raw).
Proof.
  cbn [fetchAttempts]. change (1 =? 0) with false. cbn [andb].
  apply (bounded_bind sessionBudget (one (Evaluated 0))); [apply bounded_getSession| |fits].
  intros s.
  apply (bounded_bind (one (Evaluated 0)) free);
    [apply (bounded_record (Evaluated (page s)))| |fits].
  intros n. destruct (evaluate chromium n); [|apply bounded_parseRawResult].
  destruct (includes _ _); free_step.
Qed.

Lemma bounded_fetch sid pk raw : bounded fetchBudget (fetch chromium sid pk raw).
Proof.
  unfold fetch. cbn [fetchAttempts]. change (0 + 1) with 1.
  apply (bounded_bind sessionBudget
           (fun e => (one (Evaluated 0) e
                      + (recreateBudget e + (sessionBudget e + one (Evaluated 0) e)))%nat));
    [apply bounded_getSession| |fits].
  intros s.
  apply (bounded_bind (one (Evaluated 0))
           (fun e => (recreateBudget e + (sessionBudget e + one (Evaluated 0) e))%nat));
    [apply (bounded_record (Evaluated (page s)))| |fits].
  intros n. destruct (evaluate chromium n) as [thrown|rawResult].
  - destruct (includes _ _); [eapply bounded_weaken; [free_step|fits]|].
    destruct (_ && _); [|eapply bounded_weaken; [free_step|fits]].
    apply (bounded_bind recreateBudget
             (fun e => (sessionBudget e + one (Evaluated 0) e)%nat));
      [apply bounded_recreateBrowser|intros _; apply bounded_lastAttempt|fits].
  - eapply bounded_weaken; [apply bounded_parseRawResult|fits].
Qed.

(** X16: whatever the browser does, one [fetch] evaluates at most twice in
    a page, recreates the browser at most three times, launches at most four
    browsers and opens at most four pages. *)
Theorem fetch_bounded_work sid pk raw st :
  (evaluations (log (fetch chromium sid pk raw st).2) <= evaluations (log st) + 2)%nat /\
  (recreations (log (fetch chromium sid pk raw st).2) <= recreations (log st) + 3)%nat /\
  (calls Launched (log (fetch chromium sid pk raw st).2) <= calls Launched (log st) + 4)%nat /\
  (calls OpenedPage (log (fetch chromium sid pk raw st).2) <= calls OpenedPage (log st) + 4)%nat.
Proof.
  repeat split.
  - apply (bounded_fetch sid pk raw (Evaluated 0) st).
  - apply (bounded_fetch sid pk raw RecreateBrowser st).
  - apply (bounded_fetch sid pk raw Launched st).
  - apply (bounded_fetch sid pk raw OpenedPage st).
Qed.

End PoolBudget.

Section PoolErrors.

Context {json : Type} (chromium : driver json).
Implicit Types (st : service) (sid raw : jsstring) (pk : platform_key)
  (P : error -> bool).

Lemma throwsOnly_ret P {A} (a : A) : throwsOnly P (ret a).
Proof. by intros st. Qed.

Lemma throwsOnly_throw P {A} (err : error) : P err = true -> throwsOnly P (@throw A err).
Proof. by intros H st. Qed.

Lemma throwsOnly_bind P {A B} (m : M A) (k : A -> M B) :
  throwsOnly P m -> (forall a, throwsOnly P (k a)) -> throwsOnly P (bind m k).
Proof.
  intros Hm Hk st. unfold bind. specialize (Hm st).
  destruct (m st) as [[err|a] st']; cbn [fst] in *; [done|]. apply Hk.
Qed.

Lemma throwsOnly_tryCatch P {A} (m : M A) (h : error -> M A) :
  throwsOnly P m -> (forall err, P err = true -> throwsOnly P (h err)) ->
  throwsOnly P (tryCatch m h).
Proof.
  intros Hm Hh st. unfold tryCatch. specialize (Hm st).
  destruct (m st) as [[err|a] st']; cbn [fst] in *; [|done]. by apply Hh.
Qed.

Lemma throwsOnly_total P {A B} (f : service -> B * service) (k : B -> M A) :
  (forall b, throwsOnly P (k b)) ->
  throwsOnly P (bind (fun st => (inr (f st).1, (f st).2)) k).
Proof. intros Hk. apply throwsOnly_bind; [by intros st|done]. Qed.

Ltac quiet :=
  first [ apply throwsOnly_ret | by apply throwsOnly_throw
        | by intros ? ].

Lemma recreateBrowser_quiet P : throwsOnly P recreateBrowser.
Proof. intros st. by rewrite recreateBrowser_spec. Qed.

Lemma openSession_errors cacheKey sid pk :
  throwsOnly (fun e => negb (loopExhausted e)) (openSession chromium cacheKey sid pk).
Proof.
  unfold openSession, ensureBrowser, launchBrowser.
  repeat first
    [ quiet
    | apply throwsOnly_bind; [|intros ?]
    | match goal with
      | |- throwsOnly _ (match ?x with _ => _ end) => destruct x
      end ].
Qed.

Lemma getSession_errors sid pk raw :
  throwsOnly (fun e => negb (loopExhausted e)) (getSession chromium sid pk raw).
Proof.
  assert (Hopen : forall cacheKey, throwsOnly (fun e => negb (loopExhausted e))
            (openSessionAttempts chromium 2 0 cacheKey sid pk)).
  { intros cacheKey. cbn [openSessionAttempts]. change (0 + 1) with 1.
    change (1 =? 0) with false. cbn [andb].
    apply throwsOnly_tryCatch; [apply openSession_errors|intros err Herr].
    destruct (_ && _); [|by apply throwsOnly_throw].
    apply throwsOnly_bind; [apply recreateBrowser_quiet|intros _].
    apply throwsOnly_tryCatch; [apply openSession_errors|intros err' Herr'].
    by apply throwsOnly_throw. }
  unfold getSession. apply throwsOnly_bind; [quiet|intros cached].
  destruct (cached !! _); [|apply Hopen].
  apply throwsOnly_bind; [quiet|intros q].
  destruct (isClosed chromium q); [|quiet].
  apply throwsOnly_bind; [quiet|intros _]. apply Hopen.
Qed.

Lemma parseRawResult_errors pk (r : raw_result json) :
  throwsOnly (fun e => negb (loopExhausted e)) (parseRawResult pk r).
Proof.
  unfold parseRawResult. destruct (parsedBody r); [quiet|].
  destruct (looksLikeHtmlResponse _ _); quiet.
Qed.

(** X17: the errors thrown after the retry loops, [ProxyFailedError] in
    [fetch] and [SessionInitError] in [getSession], are never thrown: each
    loop ends inside its body, with a result or with the error met there. *)
Theorem fetch_loops_end_inside sid pk raw st :
  match (fetch chromium sid pk raw st).1 with
  | inl e => loopExhausted e = false
  | inr _ => True
  end.
Proof.
  assert (H : throwsOnly (fun e => negb (loopExhausted e)) (fetch chromium sid pk raw)).
  { unfold fetch. cbn [fetchAttempts]. change (0 + 1) with 1.
    change (1 =? 0) with false. cbn [andb].
    apply throwsOnly_bind; [apply getSession_errors|intros s].
    apply throwsOnly_bind; [quiet|intros n].
    destruct (evaluate chromium n); [|apply parseRawResult_errors].
    destruct (includes _ _); [quiet|].
    destruct (_ && _); [|quiet].
    apply throwsOnly_bind; [apply recreateBrowser_quiet|intros _].
    apply throwsOnly_bind; [apply getSession_errors|intros s'].
    apply throwsOnly_bind; [quiet|intros n'].
    destruct (evaluate chromium n'); [|apply parseRawResult_errors].
    destruct (includes _ _); quiet. }
  specialize (H st). destruct (fetch chromium sid pk raw st).1; [|done].
  by apply negb_true_iff.
Qed.

End PoolErrors.

Section PoolReuse.

Context {json : Type} (chromium : driver json).
Implicit Types (st : service) (sid raw cacheKey : jsstring) (pk : platform_key).

Lemma openSession_caches cacheKey sid pk st s st' :
  openSession chromium cacheKey sid pk st = (inr s, st') ->
  sessions st' !! cacheKey = Some s.
Proof.
  unfold openSession, bind.
  destruct (ensureBrowser chromium st) as [[err|b] st1]; [done|].
  destruct (record OpenedPage st1) as [[err|n] st2]; [done|].
  destruct (openPage chromium n); [done|].
  unfold getSessions, setSessions, ret. cbn. intros [= <- <-]. cbn.
  apply lookup_insert_eq.
Qed.

Lemma openSessionAttempts_caches remaining attempt cacheKey sid pk st s st' :
  openSessionAttempts chromium remaining attempt cacheKey sid pk st = (inr s, st') ->
  sessions st' !! cacheKey = Some s.
Proof.
  revert attempt st. induction remaining as [|n IH]; intros attempt st; [done|].
  cbn [openSessionAttempts]. unfold tryCatch.
  destruct (openSession chromium cacheKey sid pk st) as [[err|s0] st1] eqn:E.
  - destruct (_ && _); [|done]. unfold bind. rewrite recreateBrowser_spec.
    apply IH.
  - intros [= <- <-]. by eapply openSession_caches.
Qed.

Lemma getSession_caches sid pk raw st s st' :
  getSession chromium sid pk raw st = (inr s, st') ->
  sessions st' !! getSessionCacheKey sid pk raw = Some s.
Proof.
  unfold getSession, bind, getSessions. cbn [fst snd].
  destruct (sessions st !! getSessionCacheKey sid pk raw) as [existing|] eqn:E.
  - unfold record. cbn [fst snd].
    destruct (isClosed chromium _).
    + unfold setSessions. cbn [fst snd]. apply openSessionAttempts_caches.
    + unfold ret. intros [= <- <-]. exact E.
  - apply openSessionAttempts_caches.
Qed.

(** X18: a session that has been acquired is reused.  When [getSession]
    has returned a session, the next call for the same credentials returns
    that session again, as long as its page is not closed, and touches neither
    the browser nor the cache: it only asks whether the page is closed. *)
Theorem getSession_reuses sid pk raw st s st' :
  getSession chromium sid pk raw st = (inr s, st') ->
  isClosed chromium (calls AskedClosed (log st')) = false ->
  getSession chromium sid pk raw st' = (inr s, afterAskedClosed st').
Proof.
  intros Hget Hopen. apply getSession_caches in Hget.
  unfold getSession, bind, getSessions. cbn [fst snd]. rewrite Hget.
  unfold record. cbn [fst snd]. by rewrite Hopen.
Qed.

End PoolReuse.

Lemma getSession_reuses_witness :
  getSession closedOnce (lit "sid") jimeng []
    (getSession closedOnce (lit "sid") jimeng [] emptyService).2
  = (inr {| page := 0; platformKey := jimeng; sessionId := lit "sid" |},
     afterAskedClosed (getSession closedOnce (lit "sid") jimeng [] emptyService).2).
Proof.
  apply (getSession_reuses closedOnce (lit "sid") jimeng [] emptyService); reflexivity.
Defined.

Section CacheKeys.

Implicit Types (a b sid raw : jsstring) (pk : platform_key).

(** X19: the cache key tells credentials apart as long as session ids hold
    no [|]: two calls with the same key then have the same platform, the same
    session id and the same cookie header. *)
Theorem getSessionCacheKey_injective sid pk raw sid' pk' raw' :
  includesChar (ch "|") sid = false ->
  includesChar (ch "|") sid' = false ->
  getSessionCacheKey sid pk raw = getSessionCacheKey sid' pk' raw' ->
  pk = pk' /\ sid = sid' /\ raw = raw'.
Proof.
  intros Hs Hs' E. unfold getSessionCacheKey in E.
  assert (Hpk : pk = pk') by (by destruct pk, pk'). subst pk'. split; [done|].
  do 2 apply app_inv_head in E.
  change (lit "|" ++ raw) with (ch "|" :: raw) in E.
  change (lit "|" ++ raw') with (ch "|" :: raw') in E.
  by apply (app_sep_inj (ch "|")) in E.
Qed.

End CacheKeys.

Lemma getSessionCacheKey_injective_witness :
  jimeng = jimeng /\ lit "abc" = lit "abc" /\ lit "sessionid=abc" = lit "sessionid=abc".
Proof.
  apply (getSessionCacheKey_injective (lit "abc") jimeng (lit "sessionid=abc")
           (lit "abc") jimeng (lit "sessionid=abc")); reflexivity.
Defined.

(** With [|] in a session id two different credentials can share a key, and
    with it a browser session. *)
Example getSessionCacheKey_collision :
  getSessionCacheKey (lit "a|b") jimeng (lit "c")
  = getSessionCacheKey (lit "a") jimeng (lit "b|c").
Proof. reflexivity. Qed.

Section TargetClosed.

Implicit Types (p q s : jsstring).

Lemma isPrefixOf_app_includes p q s :
  isPrefixOf (p ++ q) s = true -> includes q s = true.
Proof.
  revert s. induction p as [|a p IH]; intros s; cbn [app].
  - intros H. destruct s; cbn [includes]; by rewrite H.
  - destruct s as [|b s]; cbn [isPrefixOf]; [done|].
    intros [_ H]%andb_true_iff. cbn [includes]. rewrite (IH s H). apply orb_true_r.
Qed.

Lemma includes_app_r p q s : includes (p ++ q) s = true -> includes q s = true.
Proof.
  induction s as [|b s IH].
  - cbn [includes]. rewrite orb_false_r. apply isPrefixOf_app_includes.
  - cbn [includes]. intros [H|H]%orb_true_iff.
    + by apply isPrefixOf_app_includes in H.
    + rewrite (IH H). apply orb_true_r.
Qed.

(** X20: of the four patterns of [TARGET_CLOSED_PATTERNS] the first two
    decide: a message is of the target-closed class exactly when its
    lower-case form contains [has been closed] or [target closed]. *)
Theorem isTargetClosedError_two_patterns message :
  isTargetClosedError message =
  includes (lit "has been closed") (toLowerCase message)
  || includes (lit "target closed") (toLowerCase message).
Proof.
  unfold isTargetClosedError, TARGET_CLOSED_PATTERNS. cbn [existsb].
  rewrite orb_false_r.
  destruct (includes (lit "has been closed") (toLowerCase message)) eqn:E1; [done|].
  destruct (includes (lit "target closed") (toLowerCase message)) eqn:E2; cbn [orb]; [done|].
  assert (H3 : includes (lit "browser has been closed") (toLowerCase message) = false).
  { destruct (includes (lit "browser has been closed") _) eqn:E; [|done].
    apply (includes_app_r (lit "browser ") (lit "has been closed")) in E. congruence. }
  assert (H4 : includes (lit "context or browser has been closed")
                 (toLowerCase message) = false).
  { destruct (includes (lit "context or browser has been closed") _) eqn:E; [|done].
    apply (includes_app_r (lit "context or browser ") (lit "has been closed")) in E.
    congruence. }
  by rewrite H3, H4.
Qed.

End TargetClosed.

End PoolWork.


(** ** The session lock *)

Import SessionLock LockExamples.

(** C9 fails for [refreshSession]: [closeSessionByKey], which it calls under
    the lock, deletes the key's entry of [sessionLocks]; a [fetch] called for
    the same key after that finds no entry and starts at once, while the
    refresh is still inside [getSession]. *)
Theorem refresh_drops_lock_while_held cacheKey :
  exists st,
    performAll (refreshThenFetch cacheKey) (idlePool cacheKey) = Some st /\
    ops st = [ {| key := cacheKey; kind := OpRefresh; stage := InSession |};
               {| key := cacheKey; kind := OpFetch; stage := InSession |} ] /\
    overlap st.
Proof.
  eexists. split; [|split].
  - unfold refreshThenFetch, idlePool. simpl.
    rewrite lookup_empty. simpl.
    rewrite decide_True by set_solver. simpl.
    rewrite lookup_delete_eq. reflexivity.
  - reflexivity.
  - exists 0%nat, 1%nat. do 2 eexists. repeat split; try reflexivity. lia.
Qed.

(** *** The lock does serialize [fetch] operations *)

Section FetchOnly.

Implicit Types (st : pool) (o : operation).

Lemma ops_setStage (i : nat) (p : phase) st o :
  ops st !! i = Some o -> ops (setStage i p st) = <[i := restage o p]> (ops st).
Proof. intros H. unfold setStage. cbn. by rewrite H. Qed.








End FetchOnly.


Section LockSampleRuns.

Import LockSamples.



End LockSampleRuns.


(** ** The signer *)

Import Signer SignerExamples.

Section HexFacts.

Lemma hexDigit_isHex d : (d < 16)%N -> isHexUnit (hexDigit d) = true.
Proof.
  intros Hd. unfold hexDigit, isHexUnit.
  destruct (N.ltb_spec d 10).
  - apply orb_true_iff. left. apply andb_true_iff. split; apply N.leb_le; lia.
  - apply orb_true_iff. right. apply andb_true_iff. split; apply N.leb_le; lia.
Qed.

Lemma hexDigit_inj d d' :
  (d < 16)%N -> (d' < 16)%N -> hexDigit d = hexDigit d' -> d = d'.
Proof.
  unfold hexDigit. intros Hd Hd'.
  destruct (N.ltb_spec d 10), (N.ltb_spec d' 10); lia.
Qed.

Lemma byte_bound b : (Byte.to_N b < 256)%N.
Proof. pose proof (Byte.to_N_bounded b). lia. Qed.

Lemma byte_to_N_inj b b' : Byte.to_N b = Byte.to_N b' -> b = b'.
Proof.
  intros H. apply (f_equal Byte.of_N) in H. rewrite !Byte.of_to_N in H.
  by injection H.
Qed.

Lemma hexByte_inj b b' : hexByte b = hexByte b' -> b = b'.
Proof.
  unfold hexByte. intros [= Hhi Hlo].
  pose proof (byte_bound b) as Hb. pose proof (byte_bound b') as Hb'.
  apply hexDigit_inj in Hhi; [|apply N.Div0.div_lt_upper_bound; lia..].
  apply hexDigit_inj in Hlo; [|apply N.mod_lt; lia..].
  apply byte_to_N_inj.
  rewrite (N.div_mod (Byte.to_N b) 16), (N.div_mod (Byte.to_N b') 16) by lia.
  by rewrite Hhi, Hlo.
Qed.

Lemma hex_inj (a b : list Byte.byte) : hex a = hex b -> a = b.
Proof.
  unfold hex. revert b. induction a as [|x a IH]; intros [|y b]; cbn; try done.
  intros [= H1 H2 Hrest]. f_equal; [|by apply IH].
  apply hexByte_inj. unfold hexByte. by rewrite H1, H2.
Qed.

Lemma hex_isHex (a : list Byte.byte) : forallb isHexUnit (hex a) = true.
Proof.
  unfold hex. induction a as [|x a IH]; cbn; [done|].
  pose proof (byte_bound x) as Hb.
  rewrite !hexDigit_isHex; [done|apply N.mod_lt; lia|
    apply N.Div0.div_lt_upper_bound; lia].
Qed.

Lemma takeWhile_app_stop p (a : jsstring) c r :
  forallb p a = true -> p c = false -> takeWhile p (a ++ c :: r) = a.
Proof.
  intros Ha Hc. induction a as [|x a IH]; cbn in *; [by rewrite Hc|].
  apply andb_true_iff in Ha as [Hx Ha]. rewrite Hx. f_equal. by apply IH.
Qed.

(** A string that ends in hexadecimal digits after a unit that is not one
    splits there in one way only. *)
Lemma hex_suffix_unique (x x' h h' : jsstring) c c' :
  x ++ c :: h = x' ++ c' :: h' ->
  isHexUnit c = false -> isHexUnit c' = false ->
  forallb isHexUnit h = true -> forallb isHexUnit h' = true ->
  x = x' /\ c = c' /\ h = h'.
Proof.
  intros Heq Hc Hc' Hh Hh'.
  assert (Hrev : rev h ++ c :: rev x = rev h' ++ c' :: rev x').
  { apply (f_equal (@rev N)) in Heq. rewrite !rev_app_distr in Heq. cbn in Heq.
    by rewrite <- !app_assoc in Heq. }
  assert (Hhh : rev h = rev h').
  { rewrite <- (takeWhile_app_stop isHexUnit (rev h) c (rev x)) by
      (by rewrite ?forallb_rev).
    rewrite Hrev. apply takeWhile_app_stop; by rewrite ?forallb_rev. }
  assert (h = h') as <-.
  { by rewrite <- (rev_involutive h), Hhh, rev_involutive. }
  apply app_inv_head in Hrev. injection Hrev as -> Hx.
  split; [|done]. by rewrite <- (rev_involutive x), Hx, rev_involutive.
Qed.

End HexFacts.

Section SignerFacts.

Variable sha256 : jsstring -> list Byte.byte.
Variable hmacSha256 : hmac_key -> jsstring -> list Byte.byte.
Variable toUpperCase : jsstring -> jsstring.
Variable parseURL : jsstring -> option url_record.

Implicit Types (method url ts tok pay : jsstring).

Lemma signedHeaders_headersToSign method ts tok pay :
  signedHeaders (headersToSign sha256 toUpperCase method ts tok pay)
  = signedHeadersOf (truthy tok) (signsPayload toUpperCase method pay).
Proof.
  unfold headersToSign.
  destruct (truthy tok), (signsPayload toUpperCase method pay); reflexivity.
Qed.

Lemma sorted_headersToSign method ts tok pay :
  sortBy (fun x y => negb (strLtb (JS.toLowerCase y.1) (JS.toLowerCase x.1)))
    (headersToSign sha256 toUpperCase method ts tok pay)
  = (if signsPayload toUpperCase method pay
     then [(lit "x-amz-content-sha256", payloadHash sha256 toUpperCase method pay)]
     else [])
    ++ [(lit "x-amz-date", ts)]
    ++ (if truthy tok then [(lit "x-amz-security-token", tok)] else []).
Proof.
  unfold headersToSign.
  destruct (truthy tok), (signsPayload toUpperCase method pay); reflexivity.
Qed.

Lemma canonicalHeaders_headersToSign method ts tok pay :
  canonicalHeaders (headersToSign sha256 toUpperCase method ts tok pay)
  = (if signsPayload toUpperCase method pay
     then renderHeader (lit "x-amz-content-sha256")
            (payloadHash sha256 toUpperCase method pay)
     else [])
    ++ renderHeader (lit "x-amz-date") ts
    ++ (if truthy tok then renderHeader (lit "x-amz-security-token") tok else []).
Proof.
  unfold canonicalHeaders. rewrite sorted_headersToSign.
  assert (Hr : forall name value,
    JS.toLowerCase (lit name) = lit name ->
    JS.toLowerCase (lit name, value).1 ++ lit ":" ++ trim (lit name, value).2 ++ [10%N]
    = renderHeader (lit name) value).
  { intros name value Hl. cbn [fst snd]. by rewrite Hl. }
  destruct (truthy tok), (signsPayload toUpperCase method pay);
    cbn [app List.map concat]; rewrite !Hr by reflexivity;
    rewrite ?app_nil_r, <- ?app_assoc; reflexivity.
Qed.

Lemma hex_tail_unique (x x' sep : jsstring) c (h h' : jsstring) :
  x ++ (sep ++ [c]) ++ h = x' ++ (sep ++ [c]) ++ h' ->
  isHexUnit c = false ->
  forallb isHexUnit h = true -> forallb isHexUnit h' = true ->
  x = x' /\ h = h'.
Proof.
  intros Heq Hc Hh Hh'.
  assert (Heq' : (x ++ sep) ++ c :: h = (x' ++ sep) ++ c :: h').
  { rewrite <- !app_assoc in Heq. by rewrite <- !app_assoc. }
  apply hex_suffix_unique in Heq' as (Hx & _ & Hhh); [|done..].
  split; [|done]. by apply app_inv_tail in Hx.
Qed.

Lemma regroup (t a b c h : jsstring) :
  t ++ ((a ++ b) ++ c) ++ h = t ++ a ++ b ++ c ++ h.
Proof. by rewrite <- !app_assoc. Qed.

(** The credential scope and the list of signed headers can be read off the
    authorization string. *)
Lemma scope_and_headers_unique (date date' mid : jsstring) b1 b2 b1' b2' :
  (length date <= 8)%nat -> (length date' <= 8)%nat ->
  date ++ mid ++ signedHeadersOf b1 b2 = date' ++ mid ++ signedHeadersOf b1' b2' ->
  date = date' /\ b1 = b1' /\ b2 = b2'.
Proof.
  intros Hd Hd' Heq.
  assert (Hlen : (length date + length (signedHeadersOf b1 b2)
                  = length date' + length (signedHeadersOf b1' b2'))%nat).
  { apply (f_equal (@length N)) in Heq. rewrite !length_app in Heq. lia. }
  assert (Hsame : length date = length date' ->
                  date = date' /\ b1 = b1' /\ b2 = b2').
  { intros Hl. apply app_inj_1 in Heq as [-> Heq]; [|done].
    apply app_inv_head in Heq. split; [done|].
    destruct b1, b2, b1', b2'; try done; discriminate Heq. }
  destruct b1, b2, b1', b2'; cbn in Hlen; try (apply Hsame; lia); lia.
Qed.

(** Inputs that agree on what is signed give the same authorization string. *)
Lemma createAWSSignature_congruence method url
    (headers headers' : gmap jsstring jsstring) ak sk tok tok' pay pay' ts :
  headers !! lit "x-amz-date" = Some ts ->
  headers' !! lit "x-amz-date" = Some ts ->
  signedToken tok = signedToken tok' ->
  signedPayload toUpperCase method pay = signedPayload toUpperCase method pay' ->
  createAWSSignature sha256 hmacSha256 toUpperCase parseURL
    method url headers ak sk tok pay
  = createAWSSignature sha256 hmacSha256 toUpperCase parseURL
      method url headers' ak sk tok' pay'.
Proof.
  intros Hts Hts' Htok Hpay. unfold createAWSSignature. rewrite Hts, Hts'.
  destruct (parseURL url) as [u|]; [|done].
  unfold canonicalRequest. rewrite !signedHeaders_headersToSign.
  rewrite !canonicalHeaders_headersToSign.
  unfold signedToken, signedPayload, payloadHash in *.
  assert (truthy tok = truthy tok' /\
          (truthy tok = true -> trim tok = trim tok')) as [Ht1 Ht2].
  { destruct (truthy tok), (truthy tok'); try done. by injection Htok. }
  assert (signsPayload toUpperCase method pay
          = signsPayload toUpperCase method pay' /\
          (signsPayload toUpperCase method pay = true -> pay = pay'))
    as [Hp1 Hp2].
  { destruct (signsPayload toUpperCase method pay),
      (signsPayload toUpperCase method pay'); try done. by injection Hpay. }
  rewrite <- Ht1, <- Hp1.
  destruct (truthy tok), (signsPayload toUpperCase method pay);
    unfold renderHeader; rewrite <- ?Ht2, <- ?Hp2 by done; reflexivity.
Qed.

(** C6, amended: the authorization string is a function of its inputs, and
    it is the same for two inputs that agree on the [x-amz-date] header, on
    the signed token (the session token up to surrounding white space, when
    there is one) and on the signed payload (the payload of a POST request,
    when it is not empty); conversely, two calls that differ in one of these
    three return different authorization strings, unless SHA-256 takes the
    same value on their two payloads or on their two canonical requests, or
    HMAC-SHA256 on their two strings to sign. *)
Theorem createAWSSignature_signed_inputs method url
    (headers headers' : gmap jsstring jsstring) ak sk tok tok' pay pay' ts ts' u :
  headers !! lit "x-amz-date" = Some ts ->
  headers' !! lit "x-amz-date" = Some ts' ->
  parseURL url = Some u ->
  let creq := canonicalRequest sha256 toUpperCase method u ts tok pay in
  let creq' := canonicalRequest sha256 toUpperCase method u ts' tok' pay' in
  (ts = ts' -> signedToken tok = signedToken tok' ->
   signedPayload toUpperCase method pay = signedPayload toUpperCase method pay' ->
   createAWSSignature sha256 hmacSha256 toUpperCase parseURL
     method url headers ak sk tok pay
   = createAWSSignature sha256 hmacSha256 toUpperCase parseURL
       method url headers' ak sk tok' pay') /\
  (createAWSSignature sha256 hmacSha256 toUpperCase parseURL
     method url headers ak sk tok pay
   = createAWSSignature sha256 hmacSha256 toUpperCase parseURL
       method url headers' ak sk tok' pay' ->
   (ts = ts' /\ signedToken tok = signedToken tok' /\
    signedPayload toUpperCase method pay = signedPayload toUpperCase method pay')
   \/ collidesOn sha256 pay pay'
   \/ collidesOn sha256 creq creq'
   \/ collidesOn
        (hmacSha256 (KeyBuffer (signingKey hmacSha256 sk (firstn 8 ts))))
        (stringToSign sha256 ts (firstn 8 ts) creq)
        (stringToSign sha256 ts' (firstn 8 ts') creq')).
Proof.
  intros Hts Hts' Hu creq creq'. split.
  { intros <-. by apply createAWSSignature_congruence with ts. }
  unfold createAWSSignature. rewrite Hts, Hts', Hu. fold creq creq'.
  intros H1. apply (inj Some) in H1.
  rewrite !signedHeaders_headersToSign in H1.
  set (b1 := truthy tok) in *. set (b1' := truthy tok') in *.
  set (b2 := signsPayload toUpperCase method pay) in *.
  set (b2' := signsPayload toUpperCase method pay') in *.
  do 3 apply app_inv_head in H1.
  unfold credentialScope in H1. rewrite <- !app_assoc in H1.
  match type of H1 with
  | ?d ++ ?p1 ++ ?p2 ++ ?p3 ++ ?p4 ++ ?p5 ++ ?p6 ++ signedHeadersOf b1 b2 ++ _ ++ hex ?s
    = ?d' ++ _ ++ _ ++ _ ++ _ ++ _ ++ _ ++ signedHeadersOf b1' b2' ++ _ ++ hex ?s' =>
      assert (Hsplit :
        (d ++ (p1 ++ p2 ++ p3 ++ p4 ++ p5 ++ p6) ++ signedHeadersOf b1 b2)
          ++ (lit ", Signature" ++ [61%N]) ++ hex s
        = (d' ++ (p1 ++ p2 ++ p3 ++ p4 ++ p5 ++ p6) ++ signedHeadersOf b1' b2')
          ++ (lit ", Signature" ++ [61%N]) ++ hex s')
        by (rewrite <- !app_assoc; exact H1)
  end.
  clear H1.
  apply hex_tail_unique in Hsplit as [Hscope Hsig];
    [|reflexivity|apply hex_isHex..].
  apply scope_and_headers_unique in Hscope as (Hdate & Hb1 & Hb2);
    [|rewrite length_firstn; lia..].
  apply hex_inj in Hsig.
  destruct (decide (stringToSign sha256 ts (firstn 8 ts) creq
                    = stringToSign sha256 ts' (firstn 8 ts') creq'))
    as [Hsts|Hsts].
  2:{ do 3 right. split; [done|]. rewrite Hsig. by rewrite Hdate. }
  clear Hsig. rewrite <- Hdate in Hsts.
  unfold stringToSign in Hsts. cbn [join] in Hsts.
  do 2 apply app_inv_head in Hsts.
  match type of Hsts with
  | ?t ++ _ ++ ?sc ++ _ ++ hex ?s = ?t' ++ _ ++ _ ++ _ ++ hex ?s' =>
      assert (Hsplit : t ++ (([10%N] ++ sc) ++ [10%N]) ++ hex s
                       = t' ++ (([10%N] ++ sc) ++ [10%N]) ++ hex s')
        by (rewrite (regroup t), (regroup t'); exact Hsts)
  end.
  clear Hsts.
  apply hex_tail_unique in Hsplit as [Hstamp Hcreq];
    [|reflexivity|apply hex_isHex..].
  apply hex_inj in Hcreq.
  destruct (decide (creq = creq')) as [Hreq|Hreq];
    [|right; right; left; by split].
  clear Hcreq. subst creq creq' ts'. unfold canonicalRequest in Hreq.
  rewrite !signedHeaders_headersToSign in Hreq.
  rewrite !canonicalHeaders_headersToSign in Hreq.
  unfold signedToken, signedPayload, payloadHash in *.
  cbn [join] in Hreq. do 6 apply app_inv_head in Hreq.
  fold b1 b1' b2 b2' in Hreq |- *. rewrite <- Hb1, <- Hb2 in *.
  match type of Hreq with
  | ?ch ++ _ ++ ?sh ++ _ ++ ?ph = ?ch' ++ _ ++ _ ++ _ ++ ?ph' =>
      assert (Hsplit : ch ++ (([10%N] ++ sh) ++ [10%N]) ++ ph
                       = ch' ++ (([10%N] ++ sh) ++ [10%N]) ++ ph')
        by (rewrite (regroup ch), (regroup ch'); exact Hreq)
  end.
  clear Hreq.
  apply hex_tail_unique in Hsplit as [Hheaders Hhash];
    [|reflexivity|destruct b2; apply hex_isHex..].
  assert (Hpay : b2 = true -> pay = pay' \/ collidesOn sha256 pay pay').
  { intros Hb. rewrite Hb in Hhash. apply hex_inj in Hhash.
    destruct (decide (pay = pay')) as [?|Hne]; [by left|]. by right. }
  assert (Htok : b1 = true -> trim tok = trim tok').
  { intros Hb. rewrite Hb in Hheaders.
    rewrite Hhash in Hheaders. do 2 apply app_inv_head in Hheaders.
    unfold renderHeader in Hheaders. do 2 apply app_inv_head in Hheaders.
    by apply app_inv_tail in Hheaders. }
  destruct b2 eqn:Eb2.
  + destruct (Hpay eq_refl) as [->|Hcol]; [|right; by left].
    left. split; [done|]. split; [|done].
    destruct b1; [by rewrite Htok|done].
  + left. split; [done|]. split; [|done].
    destruct b1; [by rewrite Htok|done].
Qed.

End SignerFacts.

Lemma createAWSSignature_signed_inputs_witness :
  createAWSSignature noDigest noMac asciiUpperCase rootURL
    (lit "get") (lit "https://imagex.bytedanceapi.com/") dateHeader
    (lit "AK") (lit "SK") (lit "token") (lit "first")
  = createAWSSignature noDigest noMac asciiUpperCase rootURL
      (lit "get") (lit "https://imagex.bytedanceapi.com/") dateAndOtherHeader
      (lit "AK") (lit "SK") (lit " token ") (lit "second").
Proof.
  apply (proj1 (createAWSSignature_signed_inputs noDigest noMac asciiUpperCase rootURL
                  (lit "get") (lit "https://imagex.bytedanceapi.com/")
                  dateHeader dateAndOtherHeader
                  (lit "AK") (lit "SK") (lit "token") (lit " token ")
                  (lit "first") (lit "second")
                  (lit "20240101T000000Z") (lit "20240101T000000Z")
                  {| pathname := lit "/";
                     searchParams := [(lit "Action", lit "ApplyImageUpload")] |}
                  (lookup_singleton_eq _ _) (lookup_insert_eq _ _ _) eq_refl));
    reflexivity.
Defined.

(** C6 as stated fails: white space around the session token is dropped
    before it is signed and the token enters the signature nowhere else, and
    the payload of a request that is not a POST is not signed at all.  In
    both cases a changed input has the same authorization string, whatever
    the hash functions are. *)
Lemma createAWSSignature_unsigned_changes :
  (lit "token" <> lit "token " /\
   forall sha256 hmacSha256 toUpperCase parseURL method url
          (headers : gmap jsstring jsstring) ak sk pay ts u,
     headers !! lit "x-amz-date" = Some ts -> parseURL url = Some u ->
     exists authorization,
       createAWSSignature sha256 hmacSha256 toUpperCase parseURL
         method url headers ak sk (lit "token") pay = Some authorization /\
       createAWSSignature sha256 hmacSha256 toUpperCase parseURL
         method url headers ak sk (lit "token ") pay = Some authorization) /\
  (lit "first" <> lit "second" /\
   forall sha256 hmacSha256 toUpperCase parseURL url
          (headers : gmap jsstring jsstring) ak sk tok ts u,
     toUpperCase (lit "GET") = lit "GET" ->
     headers !! lit "x-amz-date" = Some ts -> parseURL url = Some u ->
     exists authorization,
       createAWSSignature sha256 hmacSha256 toUpperCase parseURL
         (lit "GET") url headers ak sk tok (lit "first") = Some authorization /\
       createAWSSignature sha256 hmacSha256 toUpperCase parseURL
         (lit "GET") url headers ak sk tok (lit "second") = Some authorization).
Proof.
  split; (split; [discriminate|]).
  - intros sha256 hmacSha256 toUpperCase parseURL method url headers ak sk pay ts u
      Hts Hu.
    rewrite (createAWSSignature_congruence sha256 hmacSha256 toUpperCase parseURL
               method url headers headers ak sk (lit "token") (lit "token ")
               pay pay ts Hts Hts eq_refl eq_refl).
    unfold createAWSSignature. rewrite Hu, Hts. by eexists.
  - intros sha256 hmacSha256 toUpperCase parseURL url headers ak sk tok ts u
      Hup Hts Hu.
    assert (Hpay : signedPayload toUpperCase (lit "GET") (lit "first")
                   = signedPayload toUpperCase (lit "GET") (lit "second")).
    { unfold signedPayload, signsPayload. rewrite Hup. reflexivity. }
    rewrite (createAWSSignature_congruence sha256 hmacSha256 toUpperCase parseURL
               (lit "GET") url headers headers ak sk tok tok
               (lit "first") (lit "second") ts Hts Hts eq_refl Hpay).
    unfold createAWSSignature. rewrite Hu, Hts. by eexists.
Qed.

(** X23: the signed header names are listed in ascending order,
    [x-amz-content-sha256] when the payload is signed, [x-amz-date] always,
    [x-amz-security-token] when a session token is given; the canonical
    headers are the lines of the same headers in the same order, each value
    trimmed. *)
Theorem signed_headers_listing (sha256 : jsstring -> list Byte.byte)
  (toUpperCase : jsstring -> jsstring) (method ts tok pay : jsstring) :
  signedHeaders (headersToSign sha256 toUpperCase method ts tok pay)
  = signedHeadersOf (truthy tok) (signsPayload toUpperCase method pay) /\
  canonicalHeaders (headersToSign sha256 toUpperCase method ts tok pay)
  = (if signsPayload toUpperCase method pay
     then renderHeader (lit "x-amz-content-sha256")
            (payloadHash sha256 toUpperCase method pay)
     else [])
    ++ renderHeader (lit "x-amz-date") ts
    ++ (if truthy tok then renderHeader (lit "x-amz-security-token") tok else []).
Proof.
  split; [apply signedHeaders_headersToSign|apply canonicalHeaders_headersToSign].
Qed.

(** ** The checksum *)

Section CrcFacts.

Import Crc CrcExamples.

(** The model computes the check value of CRC-32. *)
Example calculateCRC32_check_value :
  calculateCRC32 checkInput = lit "cbf43926" /\ calculateCRC32 [] = lit "00000000".
Proof. split; vm_compute; reflexivity. Qed.

Lemma hexDigit_value d :
  (d < 16)%N ->
  (let c := hexDigit d in if c <? 58 then c - 48 else c - 87)%N = d.
Proof.
  intros Hd. unfold hexDigit. cbv zeta.
  destruct (N.ltb_spec d 10).
  - destruct (N.ltb_spec (48 + d) 58); lia.
  - destruct (N.ltb_spec (87 + d) 58); lia.
Qed.

Lemma hexValue_snoc s c :
  hexValue (s ++ [c]) = (16 * hexValue s + (if c <? 58 then c - 48 else c - 87))%N.
Proof. unfold hexValue. by rewrite fold_left_app. Qed.

(** With fuel for every bit of [n], [hexDigits] puts the digits of [n] in
    front of [acc]: as many as [n] needs and no more. *)
Lemma hexDigits_spec fuel n acc :
  (n < 2 ^ N.of_nat fuel)%N ->
  exists digits,
    hexDigits fuel n acc = digits ++ acc /\
    hexValue digits = n /\
    forallb isHexUnit digits = true /\
    forall k, (n < 16 ^ N.of_nat k)%N -> (length digits <= k)%nat.
Proof.
  revert n acc. induction fuel as [|fuel IH]; intros n acc Hn.
  - assert (n = 0%N) as -> by (cbn in Hn; lia). exists []. repeat split; intros; cbn; lia.
  - cbn [hexDigits]. destruct (N.eqb_spec n 0) as [->|Hpos].
    { exists []. repeat split; intros; cbn; lia. }
    assert (Hdiv : (n / 16 < 2 ^ N.of_nat fuel)%N).
    { apply N.Div0.div_lt_upper_bound.
      replace (N.of_nat (S fuel)) with (N.succ (N.of_nat fuel)) in Hn by lia.
      rewrite N.pow_succ_r' in Hn. lia. }
    destruct (IH (n / 16)%N (hexDigit (n mod 16) :: acc) Hdiv)
      as (digits & -> & Hval & Hhex & Hlen).
    assert (Hmod : (n mod 16 < 16)%N) by (apply N.mod_lt; lia).
    exists (digits ++ [hexDigit (n mod 16)]). repeat split.
    + by rewrite <- app_assoc.
    + rewrite hexValue_snoc, Hval. pose proof (hexDigit_value _ Hmod) as Hd.
      cbv zeta in Hd. rewrite Hd. pose proof (N.div_mod n 16 ltac:(lia)). lia.
    + rewrite forallb_app, Hhex. cbn [forallb]. by rewrite hexDigit_isHex.
    + intros [|k] Hk; [cbn in Hk; lia|]. rewrite length_app. cbn [length].
      specialize (Hlen k). assert (n / 16 < 16 ^ N.of_nat k)%N; [|lia].
      apply N.Div0.div_lt_upper_bound.
      replace (N.of_nat (S k)) with (N.succ (N.of_nat k)) in Hk by lia.
      rewrite N.pow_succ_r' in Hk. lia.
Qed.

Lemma toString16_spec n :
  hexValue (toString16 n) = n /\
  forallb isHexUnit (toString16 n) = true /\
  (1 <= length (toString16 n))%nat /\
  forall k, (0 < k)%nat -> (n < 16 ^ N.of_nat k)%N -> (length (toString16 n) <= k)%nat.
Proof.
  unfold toString16. destruct (N.eqb_spec n 0) as [->|Hpos].
  { repeat split; intros; cbn; lia. }
  destruct (hexDigits_spec (N.to_nat (N.size n)) n []) as (digits & -> & Hval & Hhex & Hlen).
  { rewrite N2Nat.id. apply N.size_gt. }
  rewrite app_nil_r. repeat split; [done|done| |by intros k _; apply Hlen].
  destruct digits; [|cbn; lia]. cbn in Hval. lia.
Qed.

Lemma hexValue_zeros k s : hexValue (repeat (ch "0") k ++ s) = hexValue s.
Proof.
  unfold hexValue. rewrite fold_left_app. f_equal.
  induction k as [|k IH]; [done|]. cbn [repeat fold_left]. exact IH.
Qed.

Lemma toUint32_range x : 0 <= toUint32 x < 2 ^ 32.
Proof. unfold toUint32. apply Z.mod_pos_bound. lia. Qed.

(** X24: for every buffer the checksum is a string of exactly eight
    lower-case hexadecimal digits, and these digits denote the final state of
    the loop, complemented, as an unsigned 32-bit number. *)
Theorem calculateCRC32_format bytes :
  length (calculateCRC32 bytes) = 8%nat /\
  forallb isHexUnit (calculateCRC32 bytes) = true /\
  Z.of_N (hexValue (calculateCRC32 bytes)) =
    toUint32 (xor32 (fold_left update bytes (xor32 0 (-1))) (-1)).
Proof.
  unfold calculateCRC32. cbv zeta.
  set (final := xor32 (fold_left update bytes (xor32 0 (-1))) (-1)).
  assert (Hu : ushr final 0 = toUint32 final) by (unfold ushr; apply Z.shiftr_0_r).
  rewrite Hu. pose proof (toUint32_range final) as Hr.
  destruct (toString16_spec (Z.to_N (toUint32 final))) as (Hval & Hhex & Hmin & Hmax).
  specialize (Hmax 8%nat ltac:(lia)).
  assert (Hlen : (length (toString16 (Z.to_N (toUint32 final))) <= 8)%nat).
  { apply Hmax. change (16 ^ N.of_nat 8)%N with (Z.to_N (2 ^ 32)). lia. }
  unfold padStart0. split; [|split].
  - rewrite length_app, repeat_length. lia.
  - rewrite forallb_app, Hhex, andb_true_r.
    generalize (8 - length (toString16 (Z.to_N (toUint32 final))))%nat.
    intros k. induction k as [|k IH]; [done|]. cbn [repeat forallb]. by rewrite IH.
  - rewrite hexValue_zeros, Hval. lia.
Qed.

End CrcFacts.

Section CrcTable.

Import Crc.

Lemma toUint32_land x : toUint32 x = Z.land x (Z.ones 32).
Proof. unfold toUint32. by rewrite Z.land_ones by lia. Qed.

Lemma toUint32_small x : 0 <= x < 2 ^ 32 -> toUint32 x = x.
Proof. intros H. unfold toUint32. by apply Z.mod_small. Qed.

Lemma toUint32_toInt32 x : toUint32 (toInt32 x) = toUint32 x.
Proof.
  unfold toInt32. cbv zeta. pose proof (toUint32_range x).
  destruct (toUint32 x <? 2 ^ 31).
  - by apply toUint32_small.
  - unfold toUint32 at 1. replace (toUint32 x - 2 ^ 32) with (toUint32 x + (-1) * 2 ^ 32) by lia.
    rewrite Z.mod_add by lia. by apply Z.mod_small.
Qed.

Lemma toUint32_lxor a b : toUint32 (Z.lxor a b) = Z.lxor (toUint32 a) (toUint32 b).
Proof.
  rewrite !toUint32_land. apply Z.bits_inj'. intros n Hn.
  rewrite !Z.land_spec, !Z.lxor_spec, !Z.land_spec.
  by destruct (Z.testbit (Z.ones 32) n), (Z.testbit a n), (Z.testbit b n).
Qed.

Lemma toUint32_xor32 a b : toUint32 (xor32 a b) = Z.lxor (toUint32 a) (toUint32 b).
Proof. unfold xor32. by rewrite toUint32_lxor, !toUint32_toInt32. Qed.

Lemma testbit_toUint32 x n : 0 <= n < 32 -> Z.testbit (toUint32 x) n = Z.testbit x n.
Proof.
  intros Hn. rewrite toUint32_land, Z.land_spec, Z.ones_spec_low by lia.
  apply andb_true_r.
Qed.

Lemma testbit_toUint32_high x n : 32 <= n -> Z.testbit (toUint32 x) n = false.
Proof.
  intros Hn. rewrite toUint32_land, Z.land_spec, Z.ones_spec_high by lia.
  apply andb_false_r.
Qed.

Lemma testbit_toInt32 x n : 0 <= n < 32 -> Z.testbit (toInt32 x) n = Z.testbit x n.
Proof.
  intros Hn. rewrite <- (testbit_toUint32 (toInt32 x)) by done.
  rewrite toUint32_toInt32. by apply testbit_toUint32.
Qed.

(** The low bits that [& mask] keeps, for a mask below [2 ^ 31]. *)
Lemma and32_low x k :
  0 <= k < 32 -> and32 x (Z.ones k - 0) = Z.land (toUint32 x) (Z.ones k).
Proof.
  intros Hk. unfold and32. rewrite Z.sub_0_r.
  assert (Hones : toInt32 (Z.ones k) = Z.ones k).
  { unfold toInt32. cbv zeta.
    assert (0 <= Z.ones k < 2 ^ 31).
    { rewrite Z.ones_equiv. assert (2 ^ k <= 2 ^ 31) by (apply Z.pow_le_mono_r; lia).
      assert (0 < 2 ^ k) by (apply Z.pow_pos_nonneg; lia). lia. }
    rewrite toUint32_small by lia. destruct (Z.ltb_spec (Z.ones k) (2 ^ 31)); lia. }
  rewrite Hones. apply Z.bits_inj'. intros n Hn. rewrite !Z.land_spec.
  destruct (Z.lt_ge_cases n k).
  - by rewrite testbit_toInt32, testbit_toUint32 by lia.
  - rewrite Z.ones_spec_high by lia. by rewrite !andb_false_r.
Qed.

Lemma tableStep_shiftStep x : toUint32 (tableStep x) = shiftStep (toUint32 x).
Proof.
  unfold tableStep, shiftStep.
  assert (Hbit : (and32 x 1 =? 0) = negb (Z.testbit (toUint32 x) 0)).
  { change 1 with (Z.ones 1 - 0). rewrite and32_low by lia.
    rewrite Z.land_ones, Z.bit0_eqb by lia. change (2 ^ 1) with 2.
    pose proof (Z.mod_pos_bound (toUint32 x) 2 ltac:(lia)).
    destruct (Z.eqb_spec (toUint32 x `mod` 2) 0), (Z.eqb_spec (toUint32 x `mod` 2) 1);
      try lia; reflexivity. }
  assert (Hs : 0 <= ushr x 1 < 2 ^ 32).
  { unfold ushr. pose proof (toUint32_range x). rewrite Z.shiftr_div_pow2 by lia.
    change (2 ^ 1) with 2. split; [apply Z.div_pos; lia|].
    apply Z.div_lt_upper_bound; lia. }
  rewrite Hbit. destruct (Z.testbit (toUint32 x) 0); cbn [negb].
  - rewrite toUint32_xor32, (toUint32_small (ushr x 1)) by done.
    unfold ushr. by rewrite Z.lxor_comm.
  - rewrite toUint32_small by done. unfold ushr. by rewrite Z.lxor_0_r.
Qed.

Lemma iter_tableStep k x :
  toUint32 (Nat.iter k tableStep x) = Nat.iter k shiftStep (toUint32 x).
Proof.
  induction k as [|k IH]; [done|]. by rewrite !Nat.iter_succ, tableStep_shiftStep, IH.
Qed.

(** The step is linear over exclusive or. *)
Lemma shiftStep_lxor a b : shiftStep (Z.lxor a b) = Z.lxor (shiftStep a) (shiftStep b).
Proof.
  unfold shiftStep. rewrite Z.shiftr_lxor, Z.lxor_spec.
  apply Z.bits_inj'. intros n Hn. rewrite !Z.lxor_spec.
  destruct (Z.testbit a 0), (Z.testbit b 0); cbn [xorb];
    rewrite ?Z.bits_0, ?xorb_false_r;
    by destruct (Z.testbit (Z.shiftr a 1) n), (Z.testbit (Z.shiftr b 1) n),
                (Z.testbit 3988292384 n).
Qed.

Lemma iter_shiftStep_lxor k a b :
  Nat.iter k shiftStep (Z.lxor a b)
  = Z.lxor (Nat.iter k shiftStep a) (Nat.iter k shiftStep b).
Proof.
  induction k as [|k IH]; [done|]. by rewrite !Nat.iter_succ, IH, shiftStep_lxor.
Qed.

(** On a state whose low [k] bits are clear, [k] steps only shift. *)
Lemma iter_shiftStep_high k h :
  Nat.iter k shiftStep (Z.shiftl h (Z.of_nat k)) = h.
Proof.
  revert h. induction k as [|k IH]; intros h; [by rewrite Z.shiftl_0_r|].
  rewrite Nat.iter_succ_r. unfold shiftStep at 2.
  rewrite Z.shiftl_spec_low by lia.
  rewrite Z.lxor_0_r, Z.shiftr_shiftl_l by lia.
  replace (Z.of_nat (S k) - 1) with (Z.of_nat k) by lia. apply IH.
Qed.

Lemma split_low_byte x :
  x = Z.lxor (Z.shiftl (Z.shiftr x 8) 8) (Z.land x 255).
Proof.
  apply Z.bits_inj'. intros n Hn. rewrite Z.lxor_spec, Z.land_spec.
  change 255 with (Z.ones 8). destruct (Z.lt_ge_cases n 8).
  - rewrite Z.shiftl_spec_low, Z.ones_spec_low by lia. by rewrite andb_true_r.
  - rewrite Z.shiftl_spec, Z.shiftr_spec, Z.ones_spec_high by lia.
    rewrite andb_false_r, xorb_false_r. f_equal. lia.
Qed.

Lemma crcTable_lookup i :
  0 <= i < 256 -> crcTable !! Z.to_nat i = Some (tableEntry i).
Proof.
  intros Hi. unfold crcTable.
  change (List.map tableEntry (seqZ 0 256)) with (tableEntry <$> seqZ 0 256).
  rewrite list_lookup_fmap, (lookup_seqZ_lt 0 256 (Z.to_nat i)) by lia.
  change (Some (tableEntry (0 + Z.of_nat (Z.to_nat i))) = Some (tableEntry i)).
  do 2 f_equal. lia.
Qed.

(** X25: the table is the bit loop, eight steps at a time.  Looking the low
    byte up in [crcTable] and shifting the state by eight bits gives, as an
    unsigned 32-bit number, what eight runs of the loop body that builds the
    table give on the state with the byte folded in. *)
Theorem update_is_eight_steps crc byte :
  toUint32 (update crc byte)
  = toUint32 (Nat.iter 8 tableStep (xor32 crc (Z.of_N (Byte.to_N byte)))).
Proof.
  set (b := Z.of_N (Byte.to_N byte)).
  assert (Hb : 0 <= b < 256) by (subst b; pose proof (byte_bound byte); lia).
  rewrite iter_tableStep, toUint32_xor32, (toUint32_small b) by lia.
  set (u := toUint32 crc). set (x := Z.lxor u b).
  assert (Hidx : and32 (xor32 crc b) 255 = Z.land x 255).
  { change 255 with (Z.ones 8 - 0) at 1. rewrite and32_low by lia.
    rewrite toUint32_xor32, (toUint32_small b) by lia. done. }
  assert (Hrange : 0 <= Z.land x 255 < 256).
  { change 255 with (Z.ones 8). rewrite Z.land_ones by lia.
    apply Z.mod_pos_bound. lia. }
  unfold update. cbv zeta. fold b. rewrite Hidx, crcTable_lookup by done.
  cbn [default]. rewrite toUint32_xor32.
  assert (Hs : toUint32 (ushr crc 8) = Z.shiftr x 8).
  { unfold ushr. fold u. subst x. rewrite Z.shiftr_lxor.
    rewrite (Z.shiftr_div_pow2 b) by lia. rewrite (Z.div_small b) by (change (2 ^ 8) with 256; lia).
    rewrite Z.lxor_0_r. apply toUint32_small.
    pose proof (toUint32_range crc). fold u in H. rewrite Z.shiftr_div_pow2 by lia.
    split; [apply Z.div_pos; lia|]. apply Z.div_lt_upper_bound; lia. }
  rewrite Hs. unfold tableEntry, Datatypes.id. rewrite iter_tableStep, toUint32_small by lia.
  rewrite (split_low_byte x) at 3. rewrite iter_shiftStep_lxor.
  by rewrite (iter_shiftStep_high 8).
Qed.

End CrcTable.

(** ** Placeholders in prompts *)

Section MetaFacts.

Import Meta.
Implicit Types (s prompt pending : jsstring) (n : Z).

Example buildMetaListFromPrompt_examples :
  buildMetaListFromPrompt (lit "@1 walks to @Image2, not @3") 2
  = [ MetaImage 0; MetaText (lit " walks to "); MetaImage 1;
      MetaText (lit ", not ") ] /\
  buildMetaListFromPrompt (lit "make @image a star") 1
  = [ MetaText (lit "make @image a star") ] /\
  buildMetaListFromPrompt (lit " ") 2
  = [ MetaText useText; MetaImage 0; MetaText andText; MetaImage 1;
      MetaText picturesVideoText ].
Proof. repeat split; vm_compute; reflexivity. Qed.

Lemma pushText_valid n t : forallb (validItem n) (pushText t) = true.
Proof. unfold pushText. destruct (truthy (trim t)) eqn:E; cbn; by rewrite ?E. Qed.

Lemma pushImage_valid n i : forallb (validItem n) (pushImage n i) = true.
Proof. unfold pushImage. destruct (_ && _) eqn:E; cbn; by rewrite ?E. Qed.

Lemma scan_valid n s skip pending :
  forallb (validItem n) (scan n s skip pending) = true.
Proof.
  revert skip pending. induction s as [|c s IH]; intros skip pending.
  - apply pushText_valid.
  - cbn [scan]. destruct skip as [|skip]; [|apply IH].
    destruct (matchAt (c :: s)) as [[digits len]|]; [|apply IH].
    by rewrite !forallb_app, pushText_valid, pushImage_valid, IH.
Qed.

Lemma defaultMetaList_valid n t :
  0 < n -> trim t = t -> forallb (validItem n) (defaultMetaList n t) = true.
Proof.
  intros Hn Ht. unfold defaultMetaList. rewrite forallb_app. apply andb_true_iff. split.
  - assert (H : forall l : list Z, Forall (fun i => 0 <= i < n) l ->
      forallb (validItem n)
        (flat_map (fun i => (if i =? 0 then [MetaText useText] else [])
                            ++ [MetaImage i]
                            ++ (if i <? n - 1 then [MetaText andText] else [])) l)
      = true).
    { induction 1 as [|i l Hi _ IH]; [done|]. cbn [flat_map].
      rewrite !forallb_app, IH. cbn [forallb validItem].
      destruct (Z.leb_spec 0 i), (Z.ltb_spec i n); try lia.
      by destruct (i =? 0), (i <? n - 1). }
    apply H. apply Forall_forall. intros i Hi%elem_of_seqZ. lia.
  - cbn [forallb validItem]. rewrite andb_true_r.
    destruct (truthy t) eqn:E; [|done].
    destruct (trim (picturesPrefix ++ t)) eqn:E'; [|done].
    apply trim_nil_ws in E'. done.
Qed.

(** X26: whatever the prompt and the number of uploaded images, the list
    is not empty, no text item in it is blank, and every image item refers to
    an uploaded image: its index is at least 0 and below the image count. *)
Theorem buildMetaListFromPrompt_valid prompt n :
  (1 <= length (buildMetaListFromPrompt prompt n))%nat /\
  forallb (validItem n) (buildMetaListFromPrompt prompt n) = true.
Proof.
  unfold buildMetaListFromPrompt. cbv zeta. destruct (Z.leb_spec n 0) as [Hn|Hn].
  - split; [cbn; lia|]. cbn [forallb validItem]. rewrite andb_true_r.
    destruct (truthy (trim prompt)) eqn:E; [|done]. by rewrite trim_idemp.
  - pose proof (scan_valid n prompt 0 []) as Hs.
    destruct (scan n prompt 0 []) as [|item l] eqn:E.
    + split; [|by apply defaultMetaList_valid; [|apply trim_idemp]].
      unfold defaultMetaList. rewrite length_app. cbn. lia.
    + split; [cbn; lia|done].
Qed.

Lemma matchAt_needs_at c s : (c =? ch "@")%N = false -> matchAt (c :: s) = None.
Proof. intros H. cbn [matchAt]. by rewrite H. Qed.

Lemma scan_plain n s pending :
  includesChar (ch "@") s = false ->
  scan n s 0 pending = pushText (pending ++ s).
Proof.
  revert pending. induction s as [|c s IH]; intros pending.
  - by rewrite app_nil_r.
  - unfold includesChar. cbn [existsb]. intros [Hc Hs]%orb_false_iff.
    cbn [scan]. rewrite matchAt_needs_at by by rewrite N.eqb_sym.
    rewrite IH by done. by rewrite <- app_assoc.
Qed.

(** X27: a prompt without [@] that is not blank is passed on as one text
    item, unchanged: the uploaded images are not referred to at all. *)
Theorem buildMetaListFromPrompt_plain_prompt prompt n :
  0 < n ->
  includesChar (ch "@") prompt = false ->
  truthy (trim prompt) = true ->
  buildMetaListFromPrompt prompt n = [MetaText prompt] /\
  imagesOf (buildMetaListFromPrompt prompt n) = [].
Proof.
  intros Hn Hat Ht. unfold buildMetaListFromPrompt. cbv zeta.
  destruct (Z.leb_spec n 0); [lia|]. rewrite scan_plain by done.
  unfold pushText. cbn [app]. by rewrite Ht.
Qed.

Lemma imagesOf_default n t : 0 <= n -> imagesOf (defaultMetaList n t) = seqZ 0 n.
Proof.
  intros Hn. unfold defaultMetaList, imagesOf. rewrite omap_app. cbn [omap].
  rewrite app_nil_r. generalize (seqZ 0 n). intros l.
  induction l as [|i l IH]; [done|]. cbn [flat_map]. rewrite !omap_app, IH.
  by destruct (i =? 0), (i <? n - 1).
Qed.

(** X28: with a blank prompt the list names every uploaded image once, in
    the order of upload. *)
Theorem buildMetaListFromPrompt_blank_prompt prompt n :
  0 < n ->
  trim prompt = [] ->
  imagesOf (buildMetaListFromPrompt prompt n) = seqZ 0 n.
Proof.
  intros Hn Hblank. unfold buildMetaListFromPrompt. cbv zeta.
  destruct (Z.leb_spec n 0); [lia|].
  assert (Hat : includesChar (ch "@") prompt = false).
  { apply trim_nil_ws in Hblank. unfold includesChar. clear -Hblank.
    induction prompt as [|c s IH]; [done|]. cbn [forallb existsb] in *.
    apply andb_true_iff in Hblank as [Hc Hs]. rewrite (IH Hs), orb_false_r.
    destruct (N.eqb_spec (ch "@") c) as [<-|]; [done|done]. }
  rewrite scan_plain by done. unfold pushText. cbn [app]. rewrite Hblank. cbn [truthy].
  apply imagesOf_default. lia.
Qed.

End MetaFacts.

Lemma buildMetaListFromPrompt_plain_prompt_witness :
  Meta.buildMetaListFromPrompt (lit "a cat dances") 2 = [Meta.MetaText (lit "a cat dances")] /\
  Meta.imagesOf (Meta.buildMetaListFromPrompt (lit "a cat dances") 2) = [].
Proof.
  apply (buildMetaListFromPrompt_plain_prompt (lit "a cat dances") 2);
    [lia|reflexivity|reflexivity].
Defined.

Lemma buildMetaListFromPrompt_blank_prompt_witness :
  Meta.imagesOf (Meta.buildMetaListFromPrompt (lit "  ") 3) = [0; 1; 2].
Proof.
  apply (buildMetaListFromPrompt_blank_prompt (lit "  ") 3); [lia|reflexivity].
Defined.

(** ** Settings in the browser *)

Section SettingsFacts.

Import Settings SettingsExamples.
Implicit Types (ls : storage) (settings : AppSettings).

Lemma getItemOr_insert ls key v fallback :
  (truthy v = false -> fallback = v) ->
  getItemOr (<[key := v]> ls) key fallback = v.
Proof.
  intros H. unfold getItemOr. rewrite lookup_insert_eq.
  destruct (truthy v) eqn:E; [done|]. by apply H.
Qed.

Lemma load_after_save settings ls :
  loadSettings (saveSettings settings ls) = settings.
Proof.
  destruct settings as [p [sj sx]]. unfold loadSettings, saveSettings.
  cbn [platform sessions jimengSession xyqSession]. f_equal; [|f_equal].
  - rewrite lookup_insert_ne by (by destruct p).
    rewrite lookup_insert_ne by done. rewrite lookup_insert_ne by done.
    rewrite lookup_insert_eq. by destruct p.
  - unfold getItemOr at 1. rewrite lookup_insert_ne by done.
    rewrite lookup_insert_ne by done. rewrite lookup_insert_eq.
    destruct (truthy sj) eqn:E; [done|]. apply getItemOr_insert.
    intros _. symmetry. by apply truthy_false.
  - unfold getItemOr. rewrite lookup_insert_ne by done. rewrite lookup_insert_eq.
    destruct (truthy sx) eqn:E; [done|]. symmetry. by apply truthy_false.
Qed.

(** X29: what is saved is what is loaded.  Whatever the storage held
    before, [loadSettings] after [saveSettings] gives the settings saved: the
    platform and both session ids, an empty one included.  After
    [handleSave] it gives the settings handed to [onSave], whose session ids
    are trimmed. *)
Theorem loadSettings_saveSettings settings ls :
  loadSettings (saveSettings settings ls) = settings /\
  loadSettings (handleSave settings ls).2 = (handleSave settings ls).1 /\
  sessions (handleSave settings ls).1
  = {| jimengSession := trim (jimengSession (sessions settings));
       xyqSession := trim (xyqSession (sessions settings)) |}.
Proof.
  split; [apply load_after_save|]. unfold handleSave. cbn [fst snd].
  split; [apply load_after_save|done].
Qed.

End SettingsFacts.

(** ** Polling from the browser *)

Section PollerFacts.

Import Poller PollerSamples.
Context {json : Type}.
Implicit Types (now : nat -> Z) (server : nat -> fetch_outcome json).

Lemma fetches_app (t1 t2 : list event) : fetches (t1 ++ t2) = (fetches t1 + fetches t2)%nat.
Proof. unfold fetches. by rewrite List.filter_app, length_app. Qed.

Lemma report_fetches b message : fetches (report b message) = 0%nat.
Proof. by destruct b. Qed.

Lemma round_fetches b (o : fetch_outcome json) : fetches (round b o).1 = 0%nat.
Proof.
  unfold round. destruct o as [m|r]; [done|].
  destruct (body r) as [|text [| |d]]; try done.
  destruct (negb (ok r)); [done|].
  destruct (bool_decide _); [by destruct (resultUrl d)|].
  destruct (bool_decide _); [done|].
  destruct (progress d); [apply report_fetches|done].
Qed.

Lemma clock_after now k :
  clockAdvances now -> now 0%nat + 3000 * Z.of_nat k <= now (S k).
Proof.
  intros [H0 Hk]. induction k as [|k IH]; [lia|]. specialize (Hk k). lia.
Qed.

Lemma roundsFrom_S T now server b fuel k :
  roundsFrom T now server b (S fuel) k =
  if now (S k) - now 0%nat <? T then
    match round b (server k) with
    | (events, Some o) => (Wait 3000 :: Fetch :: events, Some o)
    | (events, None) =>
        (Wait 3000 :: Fetch :: events
           ++ (roundsFrom T now server b fuel (S k)).1,
         (roundsFrom T now server b fuel (S k)).2)
    end
  else ([], Some (Throws (TimedOut (ceilDiv T 60000)))).
Proof.
  cbn [roundsFrom]. destruct (_ <? _); [|done].
  destruct (round b (server k)) as [events [o|]]; [done|].
  by destruct (roundsFrom T now server b fuel (S k)).
Qed.

(** From round [k] on, with fuel for the rounds that can still pass the
    test, the loop ends, and it fetches at most once per such round. *)
Lemma roundsFrom_ends T now server b fuel k :
  clockAdvances now ->
  T <= 3000 * Z.of_nat (k + fuel) ->
  exists o,
    (roundsFrom T now server b (S fuel) k).2 = Some o /\
    (3000 * Z.of_nat (fetches (roundsFrom T now server b (S fuel) k).1 + k) < T + 3000
     \/ fetches (roundsFrom T now server b (S fuel) k).1 = 0%nat).
Proof.
  intros Hclock. revert k. induction fuel as [|fuel IH]; intros k Hfuel;
    pose proof (clock_after now k Hclock) as Hk; rewrite roundsFrom_S.
  - destruct (Z.ltb_spec (now (S k) - now 0%nat) T) as [Hlt|Hge]; [lia|].
    eexists. split; [reflexivity|]. by right.
  - destruct (Z.ltb_spec (now (S k) - now 0%nat) T) as [Hlt|Hge].
    + pose proof (round_fetches b (server k)) as Hr.
      destruct (round b (server k)) as [events [o|]]; cbn [fst snd] in *.
      * exists o. split; [done|]. left.
        change (Wait 3000 :: Fetch :: events) with ([Wait 3000; Fetch] ++ events).
        rewrite fetches_app, Hr. cbn. lia.
      * destruct (IH (S k)) as (o & Ho & Hcount); [lia|].
        exists o. split; [done|].
        set (later := (roundsFrom T now server b (S fuel) (S k)).1) in *.
        change (Wait 3000 :: Fetch :: events ++ later)
          with ([Wait 3000; Fetch] ++ events ++ later).
        rewrite !fetches_app, Hr. left. destruct Hcount as [Hc|Hc].
        -- cbn. lia.
        -- rewrite Hc. cbn. lia.
    + eexists. split; [reflexivity|]. by right.
Qed.

(** X30: the browser gives up.  If the clock has advanced by the wait of
    3000 ms between two tests of the loop and the timeout is not negative,
    [pollVideoTask] ends with a result or an error whatever the server
    answers, and it has fetched at most once per 3000 ms of the timeout,
    rounded up. *)
Theorem pollVideoTask_gives_up T now server fuel taskId b :
  clockAdvances now ->
  0 <= T ->
  T + 3000 <= 3000 * Z.of_nat fuel ->
  exists o,
    (pollVideoTask T now server fuel taskId b).2 = Some o /\
    Z.of_nat (fetches (pollVideoTask T now server fuel taskId b).1)
      <= ceilDiv T 3000.
Proof.
  intros Hclock HT Hfuel. unfold pollVideoTask.
  assert (Hceil : forall n : nat, 3000 * Z.of_nat n < T + 3000 -> Z.of_nat n <= ceilDiv T 3000).
  { intros n Hn. unfold ceilDiv.
    pose proof (Z.div_mod (- T) 3000 ltac:(lia)) as Hdm.
    pose proof (Z.mod_pos_bound (- T) 3000 ltac:(lia)) as Hmod. lia. }
  destruct (truthy taskId); cbn [negb].
  - destruct fuel as [|fuel]; [lia|].
    destruct (roundsFrom_ends T now server b fuel 0 Hclock ltac:(lia)) as (o & Ho & Hc).
    destruct (roundsFrom T now server b (S fuel) 0) as [events o'].
    cbn [fst snd] in *. exists o. split; [done|].
    rewrite fetches_app, report_fetches, Nat.add_0_l. destruct Hc as [Hc|Hc].
    + apply Hceil. by rewrite Nat.add_0_r in Hc.
    + rewrite Hc. apply Hceil. lia.
  - eexists. split; [reflexivity|]. cbn. apply (Hceil 0%nat). lia.
Qed.

End PollerFacts.

Lemma pollVideoTask_gives_up_witness :
  exists o,
    (Poller.pollVideoTask 2700000 PollerSamples.tickingClock
       PollerSamples.alwaysProcessing 1000 (lit "task_1_1700000000000") true).2 = Some o /\
    Z.of_nat (Poller.fetches
                (Poller.pollVideoTask 2700000 PollerSamples.tickingClock
                   PollerSamples.alwaysProcessing 1000
                   (lit "task_1_1700000000000") true).1)
      <= Poller.ceilDiv 2700000 3000.
Proof.
  apply (pollVideoTask_gives_up 2700000 PollerSamples.tickingClock
           PollerSamples.alwaysProcessing 1000 (lit "task_1_1700000000000") true).
  - split; [done|]. intros k. unfold PollerSamples.tickingClock. lia.
  - lia.
  - lia.
Defined.

(** With these the default timeout of 45 minutes is reached after 900
    fetches. *)
Example pollVideoTask_default_timeout :
  Poller.pollVideoTask 2700000 PollerSamples.tickingClock
    PollerSamples.alwaysProcessing 1000 (lit "task_1_1700000000000") true
  = (Poller.Progress Poller.submittedMessage
       :: concat (repeat [Poller.Wait 3000; Poller.Fetch] 900),
     Some (Poller.Throws (Poller.TimedOut 45))).
Proof. vm_compute. reflexivity. Qed.
